(** * Calendar events: extraction, date/time canonicalisation, dispatch

    A shallow embedding of the calendar-event pipeline of the UI components
    ([utils/parseEvents], [CalendarButton], [CalendarEventRenderer]) and the
    properties of it that the design document states.

    - JavaScript strings are lists of UTF-16 code units ([N]).
    - A regular expression of the source is embedded as the matching function
      that the backtracking matcher computes for it; each one carries the
      pattern it stands for and the reason no backtracking alternative is lost.
    - A [Date] is the number of its local calendar day (days since
      1970-01-01); the code reads only its year, month and day.
    - What the platform decides ([new Date()], [new Date(string)], the network)
      is a parameter. *)

From Stdlib Require Import Strings.Ascii Strings.String Numbers.DecimalString.
From Stdlib Require Import List NArith ZArith Bool Lia.
Import ListNotations.

Set Implicit Arguments.

(** ** JavaScript strings and the primitives the code uses *)

Module JS.

Definition jsstring := list N.

(** An ASCII literal as code units. *)
Fixpoint str (s : String.string) : jsstring :=
  match s with
  | String.EmptyString => []
  | String.String c r => N_of_ascii c :: str r
  end.

Definition eqs (a b : jsstring) : bool :=
  if list_eq_dec N.eq_dec a b then true else false.

Local Open Scope N_scope.

(** [\d] (without the [u] flag): the ten ASCII digits. *)
Definition isDigit (c : N) : bool := (48 <=? c) && (c <=? 57).

(** [[A-Za-z]]. *)
Definition isAlpha (c : N) : bool :=
  ((65 <=? c) && (c <=? 90)) || ((97 <=? c) && (c <=? 122)).

(** ECMAScript LineTerminator: LF, CR, LS, PS. [.] matches everything else. *)
Definition isLineTerminator (c : N) : bool :=
  (c =? 10) || (c =? 13) || (c =? 8232) || (c =? 8233).

(** ECMAScript WhiteSpace: TAB, VT, FF, SP, NBSP, ZWNBSP and category Zs. *)
Definition isWhiteSpace (c : N) : bool :=
  (c =? 9) || (c =? 11) || (c =? 12) || (c =? 32) || (c =? 160)
  || (c =? 5760) || ((8192 <=? c) && (c <=? 8202))
  || (c =? 8239) || (c =? 8287) || (c =? 12288) || (c =? 65279).

(** [\s], and the characters [String.prototype.trim] removes. *)
Definition isSpace (c : N) : bool := isWhiteSpace c || isLineTerminator c.

(** Canonicalize of a case-insensitive pattern without the [u] flag. A code
    unit above 127 never canonicalizes to an ASCII letter, so for the ASCII
    patterns of this code only [a-z] matter. *)
Definition canonicalize (c : N) : N :=
  if (97 <=? c) && (c <=? 122) then c - 32 else c.

Definition toUpperCase (s : jsstring) : jsstring := map canonicalize s.

Fixpoint dropWhile (p : N -> bool) (s : jsstring) : jsstring :=
  match s with
  | [] => []
  | c :: r => if p c then dropWhile p r else s
  end.

Fixpoint takeWhile (p : N -> bool) (s : jsstring) : jsstring :=
  match s with
  | [] => []
  | c :: r => if p c then c :: takeWhile p r else []
  end.

Definition trimStart (s : jsstring) : jsstring := dropWhile isSpace s.
Definition trimEnd (s : jsstring) : jsstring := rev (dropWhile isSpace (rev s)).
Definition trim (s : jsstring) : jsstring := trimEnd (trimStart s).

(** A string is truthy when it is not empty. *)
Definition truthy (s : jsstring) : bool :=
  match s with [] => false | _ => true end.

(** A literal of a pattern, matched at the head of [s]: the rest on success. *)
Fixpoint lit (p s : jsstring) : option jsstring :=
  match p with
  | [] => Some s
  | a :: p' =>
      match s with
      | c :: s' => if a =? c then lit p' s' else None
      | [] => None
      end
  end.

(** The same under the [i] flag. *)
Fixpoint litCI (p s : jsstring) : option jsstring :=
  match p with
  | [] => Some s
  | a :: p' =>
      match s with
      | c :: s' => if canonicalize a =? canonicalize c then litCI p' s' else None
      | [] => None
      end
  end.

(** [s.split(sep)] for a one-character separator. *)
Fixpoint splitChar (sep : N) (s : jsstring) : jsstring * list jsstring :=
  match s with
  | [] => ([], [])
  | c :: r =>
      let (cur, more) := splitChar sep r in
      if c =? sep then ([], cur :: more) else (c :: cur, more)
  end.

Definition split (sep : N) (s : jsstring) : list jsstring :=
  let (h, t) := splitChar sep s in h :: t.

Local Open Scope Z_scope.

(** [parseInt] on a string that starts with decimal digits (every call site
    passes a capture of [\d{..}]): the value of the leading digits. *)
Definition parseInt (s : jsstring) : Z :=
  fold_left (fun acc c => 10 * acc + (Z.of_N c - 48)) (takeWhile isDigit s) 0.

(** [String(n)] and [n.toString()] for an integer. *)
Definition toString (n : Z) : jsstring :=
  str (DecimalString.NilZero.string_of_int (Z.to_int n)).

(** [s.padStart(2, '0')]. *)
Definition padStart2 (s : jsstring) : jsstring :=
  match s with
  | [] => [48%N; 48%N]
  | [c] => [48%N; c]
  | _ => s
  end.

(** *** Dates

    Day numbers and the proleptic Gregorian calendar, as in the ECMAScript
    definitions of MakeDay, YearFromTime, MonthFromTime and DateFromTime. *)

Definition daysFromCivil (y m d : Z) : Z :=
  let y' := if m <=? 2 then y - 1 else y in
  let era := y' / 400 in
  let yoe := y' - era * 400 in
  let mp := if m <=? 2 then m + 9 else m - 3 in
  let doy := (153 * mp + 2) / 5 + d - 1 in
  let doe := yoe * 365 + yoe / 4 - yoe / 100 + doy in
  era * 146097 + doe - 719468.

Definition civilOfDoe (era doe : Z) : Z * Z * Z :=
  let yoe := (doe - doe / 1460 + doe / 36524 - doe / 146096) / 365 in
  let doy := doe - (365 * yoe + yoe / 4 - yoe / 100) in
  let mp := (5 * doy + 2) / 153 in
  let d := doy - (153 * mp + 2) / 5 + 1 in
  let m := if mp <? 10 then mp + 3 else mp - 9 in
  let y := yoe + era * 400 in
  (if m <=? 2 then y + 1 else y, m, d).

Definition civilFromDays (t : Z) : Z * Z * Z :=
  let z := t + 719468 in
  civilOfDoe (z / 146097) (z mod 146097).

(** A [Date] object: its local day number. *)
Definition Date := Z.

Definition getFullYear (t : Date) : Z := fst (fst (civilFromDays t)).
Definition getMonth (t : Date) : Z := snd (fst (civilFromDays t)) - 1.
Definition getDate (t : Date) : Z := snd (civilFromDays t).

(** MakeFullYear: a year from 0 to 99 means 1900 + year. *)
Definition MakeFullYear (y : Z) : Z :=
  if (0 <=? y) && (y <=? 99) then 1900 + y else y.

(** MakeDay: months outside 0..11 carry into the year, days count on from
    the first of the month. *)
Definition MakeDay (year month date : Z) : Z :=
  daysFromCivil (year + month / 12) (month mod 12 + 1) 1 + date - 1.

(** [new Date(year, monthIndex, day)]. *)
Definition newDate (year month day : Z) : Date :=
  MakeDay (MakeFullYear year) month day.

(** What the platform supplies: [new Date()] and [new Date(string)], whose
    result for a string is [None] when the Date is invalid
    ([isNaN(date.getTime())]). *)
Record Env := {
  now : Date;
  dateParse : jsstring -> option Date
}.

End JS.

(** ** utils/parseEvents *)

Module ParseEvents.
Import JS.

Record ParsedEvent := {
  title : jsstring;
  date : jsstring;
  time : jsstring;
  location : jsstring;
  description : jsstring;
  originalLink : jsstring
}.

Definition dashes : jsstring := str "---".
Definition EVENT : jsstring := str "EVENT".
Definition END_EVENT : jsstring := str "END-EVENT".

(** [---wordS?---] at the head of [s]. [S?] is greedy: the matcher first
    takes an [S] and, should the dashes not follow, retries without it. *)
Definition matchMarker (word s : jsstring) : option jsstring :=
  match lit dashes s with
  | None => None
  | Some s1 =>
      match lit word s1 with
      | None => None
      | Some s2 =>
          match lit (str "S") s2 with
          | Some s3 =>
              match lit dashes s3 with
              | Some r => Some r
              | None => lit dashes s2
              end
          | None => lit dashes s2
          end
      end
  end.

(** [([\s\S]*?)---END-EVENTS?---]: the lazy star gives the shortest body
    after which the closing marker matches. *)
Fixpoint lazyBody (s : jsstring) : option (jsstring * jsstring) :=
  match matchMarker END_EVENT s with
  | Some rest => Some ([], rest)
  | None =>
      match s with
      | [] => None
      | c :: s' =>
          match lazyBody s' with
          | Some (body, rest) => Some (c :: body, rest)
          | None => None
          end
      end
  end.

(** [/---EVENTS?---([\s\S]*?)---END-EVENTS?---/] at the head of [s]. *)
Definition matchBlock (s : jsstring) : option (jsstring * jsstring) :=
  match matchMarker EVENT s with
  | None => None
  | Some s1 => lazyBody s1
  end.

(** One [exec] of the block pattern from the current [lastIndex], [s] being
    the text from there on: the text skipped before the leftmost match, the
    capture group and the text after the match ([lastIndex] moves there). *)
Fixpoint execBlock (s : jsstring) : option (jsstring * jsstring * jsstring) :=
  match matchBlock s with
  | Some (body, rest) => Some ([], body, rest)
  | None =>
      match s with
      | [] => None
      | c :: s' =>
          match execBlock s' with
          | Some (skipped, body, rest) => Some (c :: skipped, body, rest)
          | None => None
          end
      end
  end.

Definition titleKey : jsstring := str "title:".

Definition startsWith (p s : jsstring) : bool :=
  match lit p s with Some _ => true | None => false end.

(** [s.split(/(?=title:)/g)]: the lookahead matches the empty string before
    each [title:]; a match at the start of the piece being built is skipped,
    so the text is cut before every [title:] that is not at its start. The
    first piece and the pieces after it. *)
Fixpoint splitTitle (s : jsstring) : jsstring * list jsstring :=
  match s with
  | [] => ([], [])
  | c :: s' =>
      let (cur, more) := splitTitle s' in
      if startsWith titleKey s' then ([c], cur :: more) else (c :: cur, more)
  end.

Definition splitEntries (s : jsstring) : list jsstring :=
  let (h, t) := splitTitle s in h :: t.

(** The leftmost match of a literal under the [i] flag: the text after it. *)
Fixpoint searchCI (key s : jsstring) : option jsstring :=
  match litCI key s with
  | Some r => Some r
  | None =>
      match s with
      | [] => None
      | _ :: s' => searchCI key s'
      end
  end.

(** [data.match(new RegExp(field + ':\\s*( .* )', 'i'))] (the capture group
    is written with spaces here): after the leftmost [field:], [\s*] takes all
    white space (line ends too) and the group the rest of the line; both
    always match, so nothing is retried. *)
Definition extractField (data field : jsstring) : jsstring :=
  match searchCI (field ++ str ":") data with
  | Some r => trim (takeWhile (fun c => negb (isLineTerminator c)) (dropWhile isSpace r))
  | None => []
  end.

Definition makeEvent (eventData : jsstring) : ParsedEvent :=
  {| title := extractField eventData (str "title");
     date := extractField eventData (str "date");
     time := extractField eventData (str "time");
     location := extractField eventData (str "location");
     description := extractField eventData (str "description");
     originalLink := extractField eventData (str "originalLink") |}.

(** The body of [eventEntries.forEach]: the events one entry pushes. *)
Definition pushEntry (eventData : jsstring) : list ParsedEvent :=
  let event := makeEvent eventData in
  if truthy (title event) && truthy (date event) && truthy (time event)
  then [event] else [].

(** The body of the [while] loop: the events one block pushes. *)
Definition parseBlock (eventsBlock : jsstring) : list ParsedEvent :=
  let eventEntries := filter (fun entry => truthy (trim entry)) (splitEntries eventsBlock) in
  flat_map pushEntry eventEntries.

(** The [while] loop; every match is at least 26 code units long, so
    [length content] iterations are never used up (see [parseLoop_fuel]). *)
Fixpoint parseLoop (fuel : nat) (s : jsstring) : list ParsedEvent :=
  match fuel with
  | O => []
  | S fuel' =>
      match execBlock s with
      | None => []
      | Some (_, eventsBlock, rest) => parseBlock eventsBlock ++ parseLoop fuel' rest
      end
  end.

Definition parseEventsFromContent (content : jsstring) : list ParsedEvent :=
  parseLoop (S (length content)) content.

(** [content.replace(/---EVENTS?---[\s\S]*?---END-EVENTS?---/g, '')]: the
    text between the matches, in order. *)
Fixpoint stripLoop (fuel : nat) (s : jsstring) : jsstring :=
  match fuel with
  | O => s
  | S fuel' =>
      match execBlock s with
      | None => s
      | Some (skipped, _, rest) => skipped ++ stripLoop fuel' rest
      end
  end.

Definition stripEventBlocks (content : jsstring) : jsstring :=
  stripLoop (S (length content)) content.

End ParseEvents.

(** ** The regular expressions of the two components

    [CalendarButton] and [CalendarEventRenderer] contain the same literals. *)

Module Patterns.
Import JS.

Local Open Scope N_scope.

(** One given character. *)
Definition chr (a : N) (s : jsstring) : option jsstring :=
  match s with
  | c :: r => if c =? a then Some r else None
  | [] => None
  end.

(** [\d{n}]: the digits and the rest. *)
Fixpoint digitsN (n : nat) (s : jsstring) : option (jsstring * jsstring) :=
  match n with
  | O => Some ([], s)
  | S n' =>
      match s with
      | c :: r =>
          if isDigit c then
            match digitsN n' r with
            | Some (ds, rest) => Some (c :: ds, rest)
            | None => None
            end
          else None
      | [] => None
      end
  end.

(** [\d{1,2}], greedy. Each use is followed by a character that is not a
    digit, so giving the second digit back never helps. *)
Definition digits12 (s : jsstring) : option (jsstring * jsstring) :=
  match s with
  | a :: r =>
      if isDigit a then
        match r with
        | b :: r' => if isDigit b then Some ([a; b], r') else Some ([a], r)
        | [] => Some ([a], [])
        end
      else None
  | [] => None
  end.

Definition atEnd (s : jsstring) : bool :=
  match s with [] => true | _ => false end.

(** [/^\d{4}-\d{2}-\d{2}$/.test(s)] *)
Definition testIsoDate (s : jsstring) : bool :=
  match digitsN 4 s with
  | Some (_, s1) =>
      match chr 45 s1 with
      | Some s2 =>
          match digitsN 2 s2 with
          | Some (_, s3) =>
              match chr 45 s3 with
              | Some s4 =>
                  match digitsN 2 s4 with
                  | Some (_, s5) => atEnd s5
                  | None => false
                  end
              | None => false
              end
          | None => false
          end
      | None => false
      end
  | None => false
  end.

(** [/^[A-Za-z]+ \d{1,2}, \d{4}$/.test(s)]; the letters are followed by a
    space, which is no letter, so the greedy run is the only candidate. *)
Definition testMonthName (s : jsstring) : bool :=
  match takeWhile isAlpha s with
  | [] => false
  | _ :: _ =>
      match chr 32 (dropWhile isAlpha s) with
      | Some s1 =>
          match digits12 s1 with
          | Some (_, s2) =>
              match lit (str ", ") s2 with
              | Some s3 =>
                  match digitsN 4 s3 with
                  | Some (_, s4) => atEnd s4
                  | None => false
                  end
              | None => false
              end
          | None => false
          end
      | None => false
      end
  end.

(** [/^\d{1,2}\/\d{1,2}\/\d{4}$/.test(s)] *)
Definition testSlashDate (s : jsstring) : bool :=
  match digits12 s with
  | Some (_, s1) =>
      match chr 47 s1 with
      | Some s2 =>
          match digits12 s2 with
          | Some (_, s3) =>
              match chr 47 s3 with
              | Some s4 =>
                  match digitsN 4 s4 with
                  | Some (_, s5) => atEnd s5
                  | None => false
                  end
              | None => false
              end
          | None => false
          end
      | None => false
      end
  | None => false
  end.

(** The captures of the time pattern. *)
Record TimeMatch := {
  tmHours : jsstring;
  tmMinutes : jsstring;
  tmAmPm : jsstring
}.

(** [(AM|PM)] under the [i] flag: the two characters as they are written. *)
Definition amPm (s : jsstring) : option (jsstring * jsstring) :=
  match s with
  | a :: m :: r =>
      if ((canonicalize a =? 65) || (canonicalize a =? 80)) && (canonicalize m =? 77)
      then Some ([a; m], r) else None
  | _ => None
  end.

(** [(\d{1,2}):(\d{2})\s*(AM|PM)] under the [i] flag, at the head of [s].
    [\s*] is greedy; the letter that must follow is no white space, so a
    shorter run cannot match either. *)
Definition matchTime (s : jsstring) : option (TimeMatch * jsstring) :=
  match digits12 s with
  | Some (h, s1) =>
      match chr 58 s1 with
      | Some s2 =>
          match digitsN 2 s2 with
          | Some (m, s3) =>
              match amPm (dropWhile isSpace s3) with
              | Some (ap, rest) =>
                  Some ({| tmHours := h; tmMinutes := m; tmAmPm := ap |}, rest)
              | None => None
              end
          | None => None
          end
      | None => None
      end
  | None => None
  end.

(** [/^\d{1,2}:\d{2}\s*(AM|PM)$/i.test(s)] *)
Definition testTime12 (s : jsstring) : bool :=
  match matchTime s with
  | Some (_, rest) => atEnd rest
  | None => false
  end.

(** [/^\d{1,2}:\d{2}$/.test(s)] *)
Definition testTime24 (s : jsstring) : bool :=
  match digits12 s with
  | Some (_, s1) =>
      match chr 58 s1 with
      | Some s2 =>
          match digitsN 2 s2 with
          | Some (_, s3) => atEnd s3
          | None => false
          end
      | None => false
      end
  | None => false
  end.

(** [s.match(/(\d{1,2}):(\d{2})\s*(AM|PM)/i)]: the leftmost match. *)
Fixpoint searchTime (s : jsstring) : option TimeMatch :=
  match matchTime s with
  | Some (m, _) => Some m
  | None =>
      match s with
      | [] => None
      | _ :: s' => searchTime s'
      end
  end.

(** [[^\s@]] *)
Definition emailChar (c : N) : bool := negb (isSpace c) && negb (c =? 64).

(** [\.[^\s@]+$] at the head of [s]. *)
Definition dotSuffix (s : jsstring) : bool :=
  match s with
  | 46 :: b => truthy b && forallb emailChar b
  | _ => false
  end.

(** [[^\s@]+\.[^\s@]+$] at the head of [s]: the class takes one or more
    characters and the rest must follow; every length is tried. *)
Fixpoint emailDomain (s : jsstring) : bool :=
  match s with
  | [] => false
  | c :: r => emailChar c && (dotSuffix r || emailDomain r)
  end.

(** [/^[^\s@]+@[^\s@]+\.[^\s@]+$/.test(s)] *)
Fixpoint testEmail (s : jsstring) : bool :=
  match s with
  | [] => false
  | c :: r =>
      emailChar c
      && (match r with
          | 64 :: d => emailDomain d
          | _ => false
          end || testEmail r)
  end.

End Patterns.

(** ** The calendar-invite endpoint *)

Module Fetch.
Import JS.

(** The JSON body of one request. *)
Record Payload := {
  email : jsstring;
  title : jsstring;
  date : jsstring;
  location : jsstring;
  description : jsstring;
  url : jsstring
}.

Record Request := {
  target : jsstring;
  body : Payload
}.

(** How the promise that [fetch] returns settles: fulfilled with a response,
    whose [ok] says whether the status is 2xx, or rejected. *)
Inductive Settled :=
| Fulfilled (ok : bool)
| Rejected.

(** The network: how the [n]-th request of one action settles. *)
Definition Network := nat -> Request -> Settled.

Fixpoint fetchFrom (net : Network) (n : nat) (reqs : list Request) : list Settled :=
  match reqs with
  | [] => []
  | r :: rest => net n r :: fetchFrom net (S n) rest
  end.

(** [Promise.allSettled(requests.map(fetch))] *)
Definition allSettled (net : Network) (reqs : list Request) : list Settled :=
  fetchFrom net 0 reqs.

(** [r.status === 'fulfilled'] *)
Definition isFulfilled (r : Settled) : bool :=
  match r with Fulfilled _ => true | Rejected => false end.

(** What a handler did: the requests it sent, the component state while
    they are awaited (none when it returns at once), the calls of
    [onAddToCalendar] it made and the state it leaves. *)
Record Run (State : Type) := {
  sent : list Request;
  pending : option State;
  reported : list (bool * jsstring);
  after : State
}.

End Fetch.

(** ** CalendarButton: one event *)

Module CalendarButton.
Import JS Patterns Fetch.

Record CalendarEvent := {
  title : jsstring;
  date : jsstring;
  time : jsstring;
  location : jsstring;
  description : jsstring;
  originalLink : option jsstring
}.

Record Props := {
  event : CalendarEvent;
  apiBase : jsstring;
  organizationName : option jsstring;
  curatedByText : option jsstring
}.

Record State := {
  email : jsstring;
  isValid : bool;
  isAdding : bool;
  showEmailInput : bool
}.

(** The [useState] initial values. *)
Definition initial : State :=
  {| email := []; isValid := false; isAdding := false; showEmailInput := false |}.

(** The default of the destructured prop. *)
Definition orgName (p : Props) : jsstring :=
  match organizationName p with Some o => o | None => str "DeSilo" end.

(** The line feeds of the template literal. *)
Definition blankLine : jsstring := [10%N; 10%N].

(** An optional string in a condition or on the left of [||]. *)
Definition present (o : option jsstring) : option jsstring :=
  match o with
  | Some (c :: r) => Some (c :: r)
  | _ => None
  end.

Definition validateEmail (value : jsstring) : bool := testEmail value.

(** The effect that runs on mount, [savedEmail] read from the local storage. *)
Definition onMount (savedEmail : option jsstring) (st : State) : State :=
  match present savedEmail with
  | Some saved =>
      {| email := saved; isValid := validateEmail saved;
         isAdding := isAdding st; showEmailInput := showEmailInput st |}
  | None => st
  end.

Definition handleEmailChange (value : jsstring) (st : State) : State :=
  {| email := value; isValid := validateEmail value;
     isAdding := isAdding st; showEmailInput := showEmailInput st |}.

Section WithEnv.
Variable env : Env.

Local Open Scope Z_scope.

Definition parseDate (dateStr : jsstring) : Date :=
  let date :=
    if testIsoDate dateStr then
      match split 45 dateStr with
      | year :: month :: day :: _ =>
          Some (newDate (parseInt year) (parseInt month - 1) (parseInt day))
      | _ => None
      end
    else if testMonthName dateStr then dateParse env dateStr
    else if testSlashDate dateStr then dateParse env dateStr
    else dateParse env dateStr in
  match date with
  | Some d => d
  | None => now env
  end.

Definition formatDisplayTime (timeStr : jsstring) : jsstring :=
  if testTime12 timeStr then timeStr
  else if testTime24 timeStr then
    match split 58 timeStr with
    | hours :: minutes :: _ =>
        let hour24 := parseInt hours in
        let hour12 :=
          if hour24 =? 0 then 12 else if 12 <? hour24 then hour24 - 12 else hour24 in
        let ampm := if hour24 <? 12 then str "AM" else str "PM" in
        toString hour12 ++ str ":" ++ minutes ++ str " " ++ ampm
    | _ => timeStr
    end
  else timeStr.

(** The two assignments to [hours]. *)
Definition to24 (ampm : jsstring) (hours : Z) : Z :=
  let hours := if eqs ampm (str "PM") && negb (hours =? 12) then hours + 12 else hours in
  if eqs ampm (str "AM") && (hours =? 12) then 0 else hours.

Definition formatDateTime (date time : jsstring) : jsstring :=
  let parsedDate := parseDate date in
  let year := getFullYear parsedDate in
  let month := padStart2 (toString (getMonth parsedDate + 1)) in
  let day := padStart2 (toString (getDate parsedDate)) in
  let normalizedTime := formatDisplayTime time in
  match searchTime normalizedTime with
  | None =>
      toString year ++ str "-" ++ month ++ str "-" ++ day ++ str "T12:00:00-06:00"
  | Some timeMatch =>
      let hours := to24 (toUpperCase (tmAmPm timeMatch)) (parseInt (tmHours timeMatch)) in
      let minutes := tmMinutes timeMatch in
      toString year ++ str "-" ++ month ++ str "-" ++ day ++ str "T"
        ++ padStart2 (toString hours) ++ str ":" ++ minutes ++ str ":00-06:00"
  end.

Definition byText (p : Props) : jsstring :=
  match present (curatedByText p) with
  | Some t => t
  | None => str "Curated by " ++ orgName p ++ str " AI Assistant"
  end.

Definition payload (p : Props) (st : State) : Payload :=
  let event := event p in
  {| Fetch.email := email st;
     Fetch.title := str "[" ++ orgName p ++ str "] " ++ title event;
     Fetch.date := formatDateTime (date event) (time event);
     Fetch.location := location event;
     Fetch.description :=
       byText p ++ blankLine ++ description event ++ blankLine
         ++ match present (originalLink event) with
            | Some link => str "View original event: " ++ link
            | None => []
            end;
     Fetch.url := match present (originalLink event) with Some link => link | None => [] end |}.

(** [handleAddToCalendar]: nothing happens unless the email is valid and no
    request is in flight; otherwise one request is sent, and the callback
    gets the success message when the response is [ok] and the failure
    message when it is not or the request is rejected. *)
Definition handleAddToCalendar (net : Network) (p : Props) (st : State) : Run State :=
  if negb (isValid st) || isAdding st then
    {| sent := []; pending := None; reported := []; after := st |}
  else
    let adding :=
      {| email := email st; isValid := isValid st;
         isAdding := true; showEmailInput := showEmailInput st |} in
    let request :=
      {| target := apiBase p ++ str "/api/notifications/calendar-invite";
         body := payload p st |} in
    match net O request with
    | Fulfilled true =>
        {| sent := [request];
           pending := Some adding;
           reported := [(true, str "Calendar invite sent to " ++ email st ++ str "!")];
           after := {| email := email st; isValid := isValid st;
                       isAdding := false; showEmailInput := false |} |}
    | _ =>
        {| sent := [request];
           pending := Some adding;
           reported := [(false, str "Failed to add to calendar. Please try again.")];
           after := {| email := email st; isValid := isValid st;
                       isAdding := false; showEmailInput := showEmailInput st |} |}
    end.

End WithEnv.

End CalendarButton.

(** ** CalendarEventRenderer: all events of a message *)

Module CalendarEventRenderer.
Import JS Patterns Fetch.

Definition CalendarEvent := CalendarButton.CalendarEvent.

Record Props := {
  events : list CalendarEvent;
  apiBase : jsstring;
  organizationName : option jsstring;
  curatedByText : option jsstring
}.

Record State := {
  email : jsstring;
  isValid : bool;
  isAdding : bool;
  showBulkEmailInput : bool
}.

Definition initial : State :=
  {| email := []; isValid := false; isAdding := false; showBulkEmailInput := false |}.

Definition orgName (p : Props) : jsstring :=
  match organizationName p with Some o => o | None => str "DeSilo" end.

Definition blankLine : jsstring := [10%N; 10%N].

Definition present (o : option jsstring) : option jsstring :=
  match o with
  | Some (c :: r) => Some (c :: r)
  | _ => None
  end.

Definition validateEmail (value : jsstring) : bool := testEmail value.

Definition onMount (savedEmail : option jsstring) (st : State) : State :=
  match present savedEmail with
  | Some saved =>
      {| email := saved; isValid := validateEmail saved;
         isAdding := isAdding st; showBulkEmailInput := showBulkEmailInput st |}
  | None => st
  end.

Definition handleEmailChange (value : jsstring) (st : State) : State :=
  {| email := value; isValid := validateEmail value;
     isAdding := isAdding st; showBulkEmailInput := showBulkEmailInput st |}.

Section WithEnv.
Variable env : Env.

Local Open Scope Z_scope.

Definition parseDate (dateStr : jsstring) : Date :=
  let date :=
    if testIsoDate dateStr then
      match split 45 dateStr with
      | year :: month :: day :: _ =>
          Some (newDate (parseInt year) (parseInt month - 1) (parseInt day))
      | _ => None
      end
    else if testMonthName dateStr then dateParse env dateStr
    else if testSlashDate dateStr then dateParse env dateStr
    else dateParse env dateStr in
  match date with
  | Some d => d
  | None => now env
  end.

Definition formatDisplayTime (timeStr : jsstring) : jsstring :=
  if testTime12 timeStr then timeStr
  else if testTime24 timeStr then
    match split 58 timeStr with
    | hours :: minutes :: _ =>
        let hour24 := parseInt hours in
        let hour12 :=
          if hour24 =? 0 then 12 else if 12 <? hour24 then hour24 - 12 else hour24 in
        let ampm := if hour24 <? 12 then str "AM" else str "PM" in
        toString hour12 ++ str ":" ++ minutes ++ str " " ++ ampm
    | _ => timeStr
    end
  else timeStr.

Definition to24 (ampm : jsstring) (hours : Z) : Z :=
  let hours := if eqs ampm (str "PM") && negb (hours =? 12) then hours + 12 else hours in
  if eqs ampm (str "AM") && (hours =? 12) then 0 else hours.

Definition formatDateTime (date time : jsstring) : jsstring :=
  let parsedDate := parseDate date in
  let year := getFullYear parsedDate in
  let month := padStart2 (toString (getMonth parsedDate + 1)) in
  let day := padStart2 (toString (getDate parsedDate)) in
  let normalizedTime := formatDisplayTime time in
  match searchTime normalizedTime with
  | None =>
      toString year ++ str "-" ++ month ++ str "-" ++ day ++ str "T12:00:00-06:00"
  | Some timeMatch =>
      let hours := to24 (toUpperCase (tmAmPm timeMatch)) (parseInt (tmHours timeMatch)) in
      let minutes := tmMinutes timeMatch in
      toString year ++ str "-" ++ month ++ str "-" ++ day ++ str "T"
        ++ padStart2 (toString hours) ++ str ":" ++ minutes ++ str ":00-06:00"
  end.

Definition byText (p : Props) : jsstring :=
  match present (curatedByText p) with
  | Some t => t
  | None => str "Curated by " ++ orgName p ++ str " AI Assistant"
  end.

(** The body of the request sent for one event. *)
Definition payload (p : Props) (st : State) (event : CalendarEvent) : Payload :=
  {| Fetch.email := email st;
     Fetch.title := str "[" ++ orgName p ++ str "] " ++ CalendarButton.title event;
     Fetch.date := formatDateTime (CalendarButton.date event) (CalendarButton.time event);
     Fetch.location := CalendarButton.location event;
     Fetch.description :=
       byText p ++ blankLine ++ CalendarButton.description event ++ blankLine
         ++ match present (CalendarButton.originalLink event) with
            | Some link => str "View original event: " ++ link
            | None => []
            end;
     Fetch.url :=
       match present (CalendarButton.originalLink event) with
       | Some link => link
       | None => []
       end |}.

Definition requests (p : Props) (st : State) : list Request :=
  map (fun event =>
         {| target := apiBase p ++ str "/api/notifications/calendar-invite";
            body := payload p st event |})
      (events p).

(** [results.filter((r) => r.status === 'fulfilled').length] *)
Definition succeeded (results : list Settled) : nat :=
  length (filter isFulfilled results).

Definition successMessage (n : nat) (email : jsstring) : jsstring :=
  toString (Z.of_nat n) ++ str " calendar invite"
    ++ (if (1 <? n)%nat then str "s" else []) ++ str " sent to " ++ email ++ str "!".

(** [handleAddAllToCalendar]: nothing happens unless the email is valid, no
    request is in flight and there is an event; otherwise one request per
    event is sent, all are awaited, and the callback gets the success message
    when at least one promise is fulfilled and the failure message when none
    is. *)
Definition handleAddAllToCalendar (net : Network) (p : Props) (st : State) : Run State :=
  if negb (isValid st) || isAdding st || (length (events p) =? 0)%nat then
    {| sent := []; pending := None; reported := []; after := st |}
  else
    let adding :=
      {| email := email st; isValid := isValid st;
         isAdding := true; showBulkEmailInput := showBulkEmailInput st |} in
    let results := allSettled net (requests p st) in
    if (0 <? succeeded results)%nat then
      {| sent := requests p st;
         pending := Some adding;
         reported := [(true, successMessage (succeeded results) (email st))];
         after := {| email := email st; isValid := isValid st;
                     isAdding := false; showBulkEmailInput := false |} |}
    else
      {| sent := requests p st;
         pending := Some adding;
         reported := [(false, str "Failed to add events to calendar. Please try again.")];
         after := {| email := email st; isValid := isValid st;
                     isAdding := false; showBulkEmailInput := showBulkEmailInput st |} |}.

End WithEnv.

End CalendarEventRenderer.

(** ** Example data *)

Module Samples.
Import JS Fetch.

(** A platform whose clock shows 2025-06-15 and whose [Date] constructor
    rejects every string. *)
Definition env0 : Env :=
  {| now := daysFromCivil 2025 6 15; dateParse := fun _ => None |}.

Definition party (link : option jsstring) : CalendarButton.CalendarEvent :=
  {| CalendarButton.title := str "Party";
     CalendarButton.date := str "2025-03-05";
     CalendarButton.time := str "2:30 PM";
     CalendarButton.location := str "Hall";
     CalendarButton.description := str "Bring cake";
     CalendarButton.originalLink := link |}.

Definition buttonProps (link : option jsstring) : CalendarButton.Props :=
  {| CalendarButton.event := party link;
     CalendarButton.apiBase := str "https://api.test";
     CalendarButton.organizationName := None;
     CalendarButton.curatedByText := None |}.

Definition rendererProps (n : nat) : CalendarEventRenderer.Props :=
  {| CalendarEventRenderer.events := repeat (party None) n;
     CalendarEventRenderer.apiBase := str "https://api.test";
     CalendarEventRenderer.organizationName := None;
     CalendarEventRenderer.curatedByText := None |}.

(** The state after the user typed a valid address. *)
Definition typed : CalendarEventRenderer.State :=
  CalendarEventRenderer.handleEmailChange (str "a@b.co") CalendarEventRenderer.initial.

(** Every request gets a response; the second one (index 1) is an error
    response, the others are 2xx. *)
Definition secondFails : Network :=
  fun n _ => if Nat.eqb n 1 then Fulfilled false else Fulfilled true.

(** Every request gets an error response. *)
Definition allFail : Network := fun _ _ => Fulfilled false.

(** No request gets through. *)
Definition allRejected : Network := fun _ _ => Rejected.

(** A block inside the two halves of another one. *)
Definition spliced : jsstring :=
  str "---EV" ++ str "---EVENT---x---END-EVENT---" ++ str "ENT---y---END-EVENT---".

(** A block with a title and a time but no date. *)
Definition undated : jsstring :=
  str "Hi ---EVENT---" ++ [10%N] ++ str "title: Party" ++ [10%N]
    ++ str "time: 2:30 PM" ++ [10%N] ++ str "---END-EVENT--- bye".

(** The lines of a complete event, the title first. *)
Definition partyEntry : jsstring :=
  str "title: Party" ++ [10%N] ++ str "date: 2025-03-05" ++ [10%N]
    ++ str "time: 2:30 PM" ++ [10%N] ++ str "Location:  Hall " ++ [10%N].

(** The same fields with the title last. *)
Definition titleLastBody : jsstring :=
  [10%N] ++ str "date: 2025-03-05" ++ [10%N] ++ str "time: 2:30 PM" ++ [10%N]
    ++ str "title: Party" ++ [10%N].

Definition titleLast : jsstring :=
  str "---EVENT---" ++ titleLastBody ++ str "---END-EVENT---".

(** A location left empty, followed by a description. *)
Definition emptyLocation : jsstring :=
  str "---EVENT---" ++ [10%N] ++ str "title: Party" ++ [10%N]
    ++ str "date: 2025-03-05" ++ [10%N] ++ str "time: 2:30 PM" ++ [10%N]
    ++ str "location:" ++ [10%N] ++ str "description: fun" ++ [10%N]
    ++ str "---END-EVENT---".

(** A block with a title and a time, no line for the date, and a
    description that speaks of an update. *)
Definition updateBody : jsstring :=
  [10%N] ++ str "title: Party" ++ [10%N] ++ str "time: 2:30 PM" ++ [10%N]
    ++ str "description: update: soon" ++ [10%N].

Definition updateText : jsstring :=
  str "---EVENT---" ++ updateBody ++ str "---END-EVENT---".

(** A block whose date is left empty, the time on the next line. *)
Definition emptyDateBody : jsstring :=
  [10%N] ++ str "title: Party" ++ [10%N] ++ str "date:" ++ [10%N]
    ++ str "time: 2:30 PM" ++ [10%N].

Definition emptyDateText : jsstring :=
  str "---EVENT---" ++ emptyDateBody ++ str "---END-EVENT---".

(** A block after a rule of dashes, with a sentence before the title, an
    indented date in capitals and dashes in the description. *)
Definition looseLead : jsstring := str "Here it is:" ++ [10%N].

Definition looseEntry : jsstring :=
  str "title: Party" ++ [10%N] ++ str "  DATE: 2025-03-05" ++ [10%N]
    ++ str "Time: 2:30 PM" ++ [10%N] ++ str "description: a --- b" ++ [10%N].

Definition looseText : jsstring :=
  (str "Intro" ++ [10%N] ++ str "---" ++ [10%N])
    ++ str "---EVENTS---" ++ (looseLead ++ looseEntry) ++ str "---END-EVENT---"
    ++ str " bye".

End Samples.

(** ** What the properties are stated with *)

Module Statements.
Import JS Patterns Fetch.

(** The states a [CalendarButton] can be in. *)
Inductive ButtonReachable : CalendarButton.State -> Prop :=
| BR_initial : ButtonReachable CalendarButton.initial
| BR_mount saved st :
    ButtonReachable st -> ButtonReachable (CalendarButton.onMount saved st)
| BR_change value st :
    ButtonReachable st -> ButtonReachable (CalendarButton.handleEmailChange value st)
| BR_show b st :
    ButtonReachable st ->
    ButtonReachable
      {| CalendarButton.email := CalendarButton.email st;
         CalendarButton.isValid := CalendarButton.isValid st;
         CalendarButton.isAdding := CalendarButton.isAdding st;
         CalendarButton.showEmailInput := b |}
| BR_pending env net p st st' :
    ButtonReachable st ->
    pending (CalendarButton.handleAddToCalendar env net p st) = Some st' ->
    ButtonReachable st'
| BR_after env net p st :
    ButtonReachable st ->
    ButtonReachable (after (CalendarButton.handleAddToCalendar env net p st)).

(** The states a [CalendarEventRenderer] can be in. *)
Inductive RendererReachable : CalendarEventRenderer.State -> Prop :=
| RR_initial : RendererReachable CalendarEventRenderer.initial
| RR_mount saved st :
    RendererReachable st -> RendererReachable (CalendarEventRenderer.onMount saved st)
| RR_change value st :
    RendererReachable st ->
    RendererReachable (CalendarEventRenderer.handleEmailChange value st)
| RR_show b st :
    RendererReachable st ->
    RendererReachable
      {| CalendarEventRenderer.email := CalendarEventRenderer.email st;
         CalendarEventRenderer.isValid := CalendarEventRenderer.isValid st;
         CalendarEventRenderer.isAdding := CalendarEventRenderer.isAdding st;
         CalendarEventRenderer.showBulkEmailInput := b |}
| RR_pending env net p st st' :
    RendererReachable st ->
    pending (CalendarEventRenderer.handleAddAllToCalendar env net p st) = Some st' ->
    RendererReachable st'
| RR_after env net p st :
    RendererReachable st ->
    RendererReachable (after (CalendarEventRenderer.handleAddAllToCalendar env net p st)).

(** A handler that returned at its guard. *)
Definition nothingDone {State : Type} (st : State) : Run State :=
  {| sent := []; pending := None; reported := []; after := st |}.

(** *** The canonical instant *)

(** One position of a fixed-width format: a decimal digit or a given
    character. *)
Inductive Slot :=
| Digit
| Exactly (c : N).

Fixpoint fits (shape : list Slot) (s : jsstring) : bool :=
  match shape, s with
  | [], [] => true
  | Digit :: shape', c :: s' => isDigit c && fits shape' s'
  | Exactly a :: shape', c :: s' => N.eqb c a && fits shape' s'
  | _, _ => false
  end.

Definition literally (s : jsstring) : list Slot := map Exactly s.

(** [YYYY-MM-DDTHH:MM:SS] followed by the offset [-06:00]. *)
Definition instantShape : list Slot :=
  [Digit; Digit; Digit; Digit] ++ literally (str "-") ++ [Digit; Digit]
    ++ literally (str "-") ++ [Digit; Digit] ++ literally (str "T")
    ++ [Digit; Digit] ++ literally (str ":") ++ [Digit; Digit]
    ++ literally (str ":") ++ [Digit; Digit] ++ literally (str "-06:00").

Definition canonicalShape (s : jsstring) : bool := fits instantShape s.

(** The hour that the time pattern finds in the normalized time is at most
    [bound] (true also when the pattern finds nothing). *)
Definition matchedHourAtMost (bound : Z) (time : jsstring) : bool :=
  match searchTime (CalendarEventRenderer.formatDisplayTime time) with
  | Some m => (parseInt (tmHours m) <=? bound)%Z
  | None => true
  end.

(** *** The description of an invite, as the claim words it: attribution,
    blank line, description and, only with a link, a blank line and the
    reference line. *)
Definition claimedDescription (attribution description : jsstring)
    (link : option jsstring) : jsstring :=
  attribution ++ [10%N; 10%N] ++ description
    ++ match link with
       | Some (c :: l) => [10%N; 10%N] ++ str "View original event: " ++ c :: l
       | _ => []
       end.

(** *** Event blocks in a text *)

(** [key] occurs in [s], letter case aside. *)
Definition mentions (key s : jsstring) : Prop :=
  exists before k rest,
    s = before ++ k ++ rest /\ toUpperCase k = toUpperCase key.

(** [key] occurs in [s] as it is written. *)
Definition occurs (key s : jsstring) : Prop :=
  exists before rest, s = before ++ key ++ rest.

Definition isOpening (m : jsstring) : Prop :=
  m = str "---EVENT---" \/ m = str "---EVENTS---".

Definition isClosing (m : jsstring) : Prop :=
  m = str "---END-EVENT---" \/ m = str "---END-EVENTS---".

(** [s] contains a complete block. *)
Definition HasBlock (s : jsstring) : Prop :=
  exists before opening body closing rest,
    isOpening opening /\ isClosing closing
    /\ s = before ++ opening ++ body ++ closing ++ rest.

(** One block of a text with the text before it: gap, opening marker, body
    and closing marker. *)
Record Span := {
  gap : jsstring;
  opening : jsstring;
  inner : jsstring;
  closing : jsstring
}.

Definition spanText (b : Span) : jsstring :=
  gap b ++ opening b ++ inner b ++ closing b.

(** The six fields of an event by name. *)
Definition fieldsByName : list (jsstring * (ParseEvents.ParsedEvent -> jsstring)) :=
  [ (str "title", ParseEvents.title);
    (str "date", ParseEvents.date);
    (str "time", ParseEvents.time);
    (str "location", ParseEvents.location);
    (str "description", ParseEvents.description);
    (str "originalLink", ParseEvents.originalLink) ].

(** The three required fields are there. *)
Definition hasRequired (e : ParseEvents.ParsedEvent) : Prop :=
  ParseEvents.title e <> [] /\ ParseEvents.date e <> [] /\ ParseEvents.time e <> [].

(** No character of a field key is a line end. *)
Definition plainKey (key : jsstring) : bool :=
  forallb (fun c => negb (isLineTerminator (canonicalize c))) key.

(** *** First occurrences, values and the scan of a text *)

(** [k] is [key] in some letter case. *)
Definition spelled (key k : jsstring) : Prop := toUpperCase k = toUpperCase key.

(** In [pre ++ rest] nothing of the kind [isM] begins before [rest] does. *)
Definition firstAt (isM : jsstring -> Prop) (pre rest : jsstring) : Prop :=
  forall a m r, isM m -> pre ++ rest = a ++ m ++ r -> length pre <= length a.

Definition visible (c : N) : bool := negb (isSpace c).

(** Somewhere in [s] the field name and its colon, in any letter case, are
    followed, sooner or later, by a visible character. *)
Definition followed (name s : jsstring) : Prop :=
  exists before key rest,
    s = before ++ key ++ rest
    /\ spelled (name ++ str ":") key
    /\ existsb visible rest = true.

(** An entry with all three required fields. *)
Definition complete (entry : jsstring) : Prop :=
  followed (str "title") entry /\ followed (str "date") entry
  /\ followed (str "time") entry.

(** The value of a field in an entry: after the first place where the
    field name and its colon stand, in any letter case, there is white space
    and then the value, which starts with a visible character and runs to the
    end of its line. *)
Inductive FieldValue (entry name value : jsstring) : Prop :=
| field_value (before key space rest : jsstring) :
    entry = before ++ key ++ space ++ value ++ rest ->
    spelled (name ++ str ":") key ->
    firstAt (spelled (name ++ str ":")) before (key ++ space ++ value ++ rest) ->
    forallb isSpace space = true ->
    (exists c v, value = c :: v /\ isSpace c = false) ->
    forallb (fun c => negb (isLineTerminator c)) value = true ->
    (rest = [] \/ exists t r, rest = t :: r /\ isLineTerminator t = true) ->
    FieldValue entry name value.

(** The blocks of a text from left to right: each block begins at the first
    opening marker of what is left of the text and ends with the first closing
    marker after that; what follows the last block has no complete block. *)
Inductive Scan : jsstring -> list Span -> jsstring -> Prop :=
| Scan_done s : ~ HasBlock s -> Scan s [] s
| Scan_block g o b c rest blocks last :
    isOpening o -> isClosing c ->
    firstAt isOpening g (o ++ b ++ c ++ rest) ->
    firstAt isClosing b (c ++ rest) ->
    Scan rest blocks last ->
    Scan (g ++ o ++ b ++ c ++ rest)
         ({| gap := g; opening := o; inner := b; closing := c |} :: blocks) last.

(** A line of a block that gives a field: the field name and its colon at
    the start of the line, white space aside, and a value after them. *)
Definition fieldLineOf (name line : jsstring) : bool :=
  match litCI (name ++ str ":") (trimStart line) with
  | Some v => truthy (trim v)
  | None => false
  end.

(** The block has a line that gives the field. *)
Definition hasFieldLine (name block : jsstring) : bool :=
  existsb (fieldLineOf name) (split 10 block).

(** *** The description of an invite, part by part *)

(** The attribution: the text supplied, or the default with the
    organization name, itself ['DeSilo'] by default. *)
Definition attribution (curatedByText organizationName : option jsstring) : jsstring :=
  match curatedByText with
  | Some (c :: t) => c :: t
  | _ =>
      str "Curated by "
        ++ match organizationName with Some o => o | None => str "DeSilo" end
        ++ str " AI Assistant"
  end.

(** The line that refers to the original event, if there is a link. *)
Definition referenceLine (link : option jsstring) : jsstring :=
  match link with
  | Some (c :: l) => str "View original event: " ++ c :: l
  | _ => []
  end.

End Statements.

(** ** The remembered address

    Both components keep the last valid address in the local storage under
    the key [calendarEmail]: [handleEmailChange] writes it, the effect that
    runs on mount reads it. *)

Module Storage.
Import JS.

(** The item [calendarEmail] of the local storage. *)
Definition Store := option jsstring.

(** The [localStorage.setItem] of [CalendarButton]'s [handleEmailChange]. *)
Definition buttonStore (value : jsstring) (store : Store) : Store :=
  if CalendarButton.validateEmail value then Some value else store.

(** The [localStorage.setItem] of [CalendarEventRenderer]'s
    [handleEmailChange]. *)
Definition rendererStore (value : jsstring) (store : Store) : Store :=
  if CalendarEventRenderer.validateEmail value then Some value else store.

(** What the user does with the address fields of a page: types into the
    field of a button or into the field of the bulk box. *)
Inductive Typing :=
| IntoButton (value : jsstring)
| IntoRenderer (value : jsstring).

Definition write (t : Typing) (store : Store) : Store :=
  match t with
  | IntoButton value => buttonStore value store
  | IntoRenderer value => rendererStore value store
  end.

(** The storage after a series of inputs, the first one first. *)
Definition writes (ts : list Typing) (store : Store) : Store :=
  fold_left (fun st t => write t st) ts store.

End Storage.

(** ** More to state properties with *)

Module MoreStatements.
Import JS Patterns Fetch Statements.

Local Open Scope Z_scope.

(** *** Calendar dates *)

Definition isLeap (y : Z) : bool :=
  (y mod 4 =? 0) && (negb (y mod 100 =? 0) || (y mod 400 =? 0)).

Definition daysInMonth (y m : Z) : Z :=
  if m =? 2 then (if isLeap y then 29 else 28)
  else if (m =? 4) || (m =? 6) || (m =? 9) || (m =? 11) then 30
  else 31.

(** A string of exactly [n] decimal digits. *)
Definition digitString (n : nat) (s : jsstring) : Prop :=
  length s = n /\ forallb isDigit s = true.

(** One or two decimal digits. *)
Definition hourString (h : jsstring) : Prop :=
  (length h = 1%nat \/ length h = 2%nat) /\ forallb isDigit h = true.

(** The code units of the ten digits. *)
Definition digitCodes : list N := [48; 49; 50; 51; 52; 53; 54; 55; 56; 57]%N.

(** [YYYY-MM-DD] from its three parts. *)
Definition isoDate (Y M D : jsstring) : jsstring :=
  Y ++ str "-" ++ M ++ str "-" ++ D.

(** The date part of the instant: the year as it prints, month and day
    padded to two digits. *)
Definition datePart (env : Env) (date : jsstring) : jsstring :=
  toString (getFullYear (CalendarEventRenderer.parseDate env date))
    ++ str "-"
    ++ padStart2 (toString (getMonth (CalendarEventRenderer.parseDate env date) + 1))
    ++ str "-"
    ++ padStart2 (toString (getDate (CalendarEventRenderer.parseDate env date))).

(** The hour of the 12-hour clock and its half of the day. *)
Definition hour12 (hour24 : Z) : Z :=
  if hour24 =? 0 then 12 else if 12 <? hour24 then hour24 - 12 else hour24.

Definition meridiem (hour24 : Z) : jsstring :=
  if hour24 <? 12 then str "AM" else str "PM".

(** [H:MM] from its two parts. *)
Definition clock (H M : jsstring) : jsstring := H ++ str ":" ++ M.

(** *** Addresses *)

(** A local part, an at sign, and a domain with a dot that has text on
    both sides; no white space and no further at sign anywhere. *)
Definition emailShape (s : jsstring) : Prop :=
  exists l d1 d2,
    s = l ++ str "@" ++ d1 ++ str "." ++ d2
    /\ l <> [] /\ d1 <> [] /\ d2 <> []
    /\ forallb emailChar l = true
    /\ forallb emailChar d1 = true
    /\ forallb emailChar d2 = true.

(** *** Field values *)

(** Nothing to trim and all on one line. *)
Definition tidy (s : jsstring) : Prop :=
  trim s = s /\ forallb (fun c => negb (isLineTerminator c)) s = true.

(** *** Dispatch *)

(** The handler did not touch the address and left [isAdding] as it was. *)
Definition buttonFrame (st st' : CalendarButton.State) : Prop :=
  CalendarButton.email st' = CalendarButton.email st
  /\ CalendarButton.isValid st' = CalendarButton.isValid st
  /\ CalendarButton.isAdding st' = CalendarButton.isAdding st.

Definition rendererFrame (st st' : CalendarEventRenderer.State) : Prop :=
  CalendarEventRenderer.email st' = CalendarEventRenderer.email st
  /\ CalendarEventRenderer.isValid st' = CalendarEventRenderer.isValid st
  /\ CalendarEventRenderer.isAdding st' = CalendarEventRenderer.isAdding st.

(** The props a [CalendarEventRenderer] hands to the [CalendarButton] it
    renders for [event]. *)
Definition buttonPropsOf (p : CalendarEventRenderer.Props)
    (event : CalendarButton.CalendarEvent) : CalendarButton.Props :=
  {| CalendarButton.event := event;
     CalendarButton.apiBase := CalendarEventRenderer.apiBase p;
     CalendarButton.organizationName := Some (CalendarEventRenderer.orgName p);
     CalendarButton.curatedByText := CalendarEventRenderer.curatedByText p |}.

End MoreStatements.

(** ** The handlers and a callback that can throw

    Both handlers call [onAddToCalendar] inside their [try] block, so what the
    callback does decides what happens next: when the call that reports the
    success throws, the [catch] block calls the callback a second time, with
    the failure message, and the input is not hidden; when the call of the
    [catch] block throws, the exception leaves the handler. The [finally]
    block runs in every case. A call is taken to end: it returns or it
    throws. *)

Module Callbacks.
Import JS Fetch.

(** How a call of [onAddToCalendar] ends. *)
Inductive Completion := Returns | Throws.

(** The prop [onAddToCalendar]: absent, or a function, of which only the way
    a call with given arguments ends matters here. A handler makes at most one
    call with [true] and at most one with [false]. *)
Definition Callback := option (bool -> jsstring -> Completion).

(** [onAddToCalendar?.(success, message)]: the call, when there is a
    callback, and how the expression completes. *)
Definition invoke (cb : Callback) (success : bool) (message : jsstring)
    : list (bool * jsstring) * Completion :=
  match cb with
  | Some f => ([(success, message)], f success message)
  | None => ([], Returns)
  end.

(** What a handler did: the requests it sent, the calls of the callback in
    order, the state it leaves, and whether an exception left it (the promise
    the handler returns is then rejected). *)
Record Trace (State : Type) := {
  requested : list Request;
  calls : list (bool * jsstring);
  final : State;
  escaped : bool
}.

(** What a [try] block did: the calls it made, whether it threw, and
    whether it hid the input. *)
Record Tried := {
  made : list (bool * jsstring);
  threw : bool;
  hid : bool
}.

(** The success branch of a [try] block: the call and, when it returns,
    the state update behind it. *)
Definition reportSuccess (cb : Callback) (message : jsstring) : Tried :=
  match invoke cb true message with
  | (cs, Returns) => {| made := cs; threw := false; hid := true |}
  | (cs, Throws) => {| made := cs; threw := true; hid := false |}
  end.

(** [throw new Error(...)] *)
Definition failed : Tried := {| made := []; threw := true; hid := false |}.

(** The [catch] block after a [try] block: the calls of both, and whether
    the call in the [catch] block threw. *)
Definition catching (cb : Callback) (t : Tried) (message : jsstring)
    : list (bool * jsstring) * bool :=
  if threw t then
    match invoke cb false message with
    | (cs, Returns) => (made t ++ cs, false)
    | (cs, Throws) => (made t ++ cs, true)
    end
  else (made t, false).

Section WithEnv.
Variable env : Env.

(** [handleAddToCalendar] of [CalendarButton]. *)
Definition handleAddToCalendar (cb : Callback) (net : Network)
    (p : CalendarButton.Props) (st : CalendarButton.State)
    : Trace CalendarButton.State :=
  if negb (CalendarButton.isValid st) || CalendarButton.isAdding st then
    {| requested := []; calls := []; final := st; escaped := false |}
  else
    let request :=
      {| target := CalendarButton.apiBase p ++ str "/api/notifications/calendar-invite";
         body := CalendarButton.payload env p st |} in
    let tried :=
      match net O request with
      | Fulfilled true =>
          reportSuccess cb
            (str "Calendar invite sent to " ++ CalendarButton.email st ++ str "!")
      | _ => failed
      end in
    let caught :=
      catching cb tried (str "Failed to add to calendar. Please try again.") in
    {| requested := [request];
       calls := fst caught;
       final := {| CalendarButton.email := CalendarButton.email st;
                   CalendarButton.isValid := CalendarButton.isValid st;
                   CalendarButton.isAdding := false;
                   CalendarButton.showEmailInput :=
                     if hid tried then false else CalendarButton.showEmailInput st |};
       escaped := snd caught |}.

(** [handleAddAllToCalendar] of [CalendarEventRenderer]. *)
Definition handleAddAllToCalendar (cb : Callback) (net : Network)
    (p : CalendarEventRenderer.Props) (st : CalendarEventRenderer.State)
    : Trace CalendarEventRenderer.State :=
  if negb (CalendarEventRenderer.isValid st) || CalendarEventRenderer.isAdding st
     || (length (CalendarEventRenderer.events p) =? 0)%nat then
    {| requested := []; calls := []; final := st; escaped := false |}
  else
    let results := allSettled net (CalendarEventRenderer.requests env p st) in
    let succeeded := CalendarEventRenderer.succeeded results in
    let tried :=
      if (0 <? succeeded)%nat then
        reportSuccess cb
          (CalendarEventRenderer.successMessage succeeded (CalendarEventRenderer.email st))
      else failed in
    let caught :=
      catching cb tried (str "Failed to add events to calendar. Please try again.") in
    {| requested := CalendarEventRenderer.requests env p st;
       calls := fst caught;
       final := {| CalendarEventRenderer.email := CalendarEventRenderer.email st;
                   CalendarEventRenderer.isValid := CalendarEventRenderer.isValid st;
                   CalendarEventRenderer.isAdding := false;
                   CalendarEventRenderer.showBulkEmailInput :=
                     if hid tried then false
                     else CalendarEventRenderer.showBulkEmailInput st |};
       escaped := snd caught |}.

End WithEnv.

(** The calls a handler makes, by what it sent and what the callback
    does: none when nothing was sent or there is no callback; otherwise one
    call, or the success call followed by the failure call when the former
    throws. An exception leaves the handler exactly when the failure call
    throws. *)
Definition callsMade {State : Type} (cb : Callback) (t : Trace State) : Prop :=
  match cb, requested t with
  | None, _ => calls t = [] /\ escaped t = false
  | Some _, [] => calls t = [] /\ escaped t = false
  | Some f, _ :: _ =>
      (exists m, calls t = [(true, m)] /\ f true m = Returns /\ escaped t = false)
      \/ (exists m, calls t = [(false, m)]
                    /\ (escaped t = true <-> f false m = Throws))
      \/ (exists m m', calls t = [(true, m); (false, m')] /\ f true m = Throws
                       /\ (escaped t = true <-> f false m' = Throws))
  end.

(** A callback that always returns. *)
Definition quiet (cb : Callback) : Prop :=
  match cb with
  | Some f => forall success message, f success message = Returns
  | None => True
  end.

(** A callback that throws when it is told of a success. *)
Definition throwsOnSuccess : Callback :=
  Some (fun (success : bool) (_ : jsstring) => if success then Throws else Returns).

End Callbacks.

(** ** Dates in the platform's time zone

    [new Date(year, monthIndex, day)] is midnight of that day in local time:
    its time value is [UTC] of that local time, and the getters read
    [LocalTime] of the time value. A local time that the zone skips is read
    with the offset before the skip, so the Date lands after it, on another
    day when the zone skips a whole day. *)

Module Zoned.
Import JS Patterns.

Local Open Scope Z_scope.

Definition msPerDay : Z := 86400000.

(** The platform's time zone: [UTC(t)] of a local time and [LocalTime(t)]
    of a time value, both in milliseconds. *)
Record Zone := {
  UTC : Z -> Z;
  LocalTime : Z -> Z
}.

(** TimeClip: a time value out of range makes an invalid Date. *)
Definition TimeClip (t : Z) : option Z :=
  if Z.abs t <=? 8640000000000000 then Some t else None.

(** [new Date(year, monthIndex, day)]: the time value, [None] for an
    invalid Date. *)
Definition newDate (z : Zone) (year month day : Z) : option Z :=
  TimeClip (UTC z (MakeDay (MakeFullYear year) month day * msPerDay)).

(** The local day number of a time value. *)
Definition localDay (z : Zone) (t : Z) : Z := LocalTime z t / msPerDay.

Definition getFullYear (z : Zone) (t : Z) : Z := JS.getFullYear (localDay z t).
Definition getMonth (z : Zone) (t : Z) : Z := JS.getMonth (localDay z t).
Definition getDate (z : Zone) (t : Z) : Z := JS.getDate (localDay z t).

(** What the platform supplies: its zone, the time value of [new Date()]
    and that of [new Date(string)], [None] for an invalid Date. *)
Record Platform := {
  zone : Zone;
  clock : Z;
  construct : jsstring -> option Z
}.

Section WithPlatform.
Variable pf : Platform.

Definition parseDate (dateStr : jsstring) : Z :=
  let date :=
    if testIsoDate dateStr then
      match split 45 dateStr with
      | year :: month :: day :: _ =>
          newDate (zone pf) (parseInt year) (parseInt month - 1) (parseInt day)
      | _ => None
      end
    else if testMonthName dateStr then construct pf dateStr
    else if testSlashDate dateStr then construct pf dateStr
    else construct pf dateStr in
  match date with
  | Some d => d
  | None => clock pf
  end.

Definition formatDateTime (date time : jsstring) : jsstring :=
  let parsedDate := parseDate date in
  let year := getFullYear (zone pf) parsedDate in
  let month := padStart2 (toString (getMonth (zone pf) parsedDate + 1)) in
  let day := padStart2 (toString (getDate (zone pf) parsedDate)) in
  let normalizedTime := CalendarEventRenderer.formatDisplayTime time in
  match searchTime normalizedTime with
  | None =>
      toString year ++ str "-" ++ month ++ str "-" ++ day ++ str "T12:00:00-06:00"
  | Some timeMatch =>
      let hours :=
        CalendarEventRenderer.to24 (toUpperCase (tmAmPm timeMatch))
          (parseInt (tmHours timeMatch)) in
      let minutes := tmMinutes timeMatch in
      toString year ++ str "-" ++ month ++ str "-" ++ day ++ str "T"
        ++ padStart2 (toString hours) ++ str ":" ++ minutes ++ str ":00-06:00"
  end.

(** The platform with the zone taken out: the local days of its clock
    and of the dates it constructs. *)
Definition days : Env :=
  {| now := localDay (zone pf) (clock pf);
     dateParse := fun s =>
       match construct pf s with
       | Some t => Some (localDay (zone pf) t)
       | None => None
       end |}.

End WithPlatform.

(** The zone keeps a day: midnight of that day in local time, taken to
    its time value and back, is a time of that day. *)
Definition keeps (z : Zone) (day : Z) : Prop :=
  localDay z (UTC z (day * msPerDay)) = day.

(** Local time and time value are never more than a day apart. *)
Definition bounded (z : Zone) : Prop :=
  forall t, Z.abs (UTC z t - t) <= msPerDay.

(** A zone with one offset for all times. *)
Definition fixedZone (offset : Z) : Zone :=
  {| UTC := fun t => t - offset; LocalTime := fun t => t + offset |}.

(** A zone that goes from ten hours behind to fourteen hours ahead at
    2011-12-30T10:00:00Z, as Pacific/Apia did: the local day 2011-12-30 does
    not exist, and a local time of that day is read with the old offset. *)
Definition apiaSkip : Z := daysFromCivil 2011 12 30 * msPerDay + 36000000.

Definition apia : Zone :=
  {| UTC := fun t =>
       if t <? daysFromCivil 2011 12 31 * msPerDay then t + 36000000 else t - 50400000;
     LocalTime := fun t =>
       if t <? apiaSkip then t - 36000000 else t + 50400000 |}.

Definition inApia : Platform :=
  {| zone := apia; clock := 0; construct := fun _ => None |}.

Definition inChicago : Platform :=
  {| zone := fixedZone (-21600000); clock := 0; construct := fun _ => None |}.

(** The date part of the instant, in the platform's zone. *)
Definition datePart (pf : Platform) (date : jsstring) : jsstring :=
  toString (getFullYear (zone pf) (parseDate pf date))
    ++ str "-"
    ++ padStart2 (toString (getMonth (zone pf) (parseDate pf date) + 1))
    ++ str "-"
    ++ padStart2 (toString (getDate (zone pf) (parseDate pf date))).

End Zoned.

(** ** Dispatch: the gate and the aggregation *)

Module DispatchFacts.
Import JS Patterns Fetch Samples Statements.

(** [isValid] always is the verdict on the current [email]. *)
Lemma button_isValid_sync st :
  ButtonReachable st ->
  CalendarButton.isValid st = CalendarButton.validateEmail (CalendarButton.email st).
Proof.
  induction 1 as [ | saved st _ IH | value st _ IH | b st _ IH
                   | env net p st st' _ IH Hp | env net p st _ IH ]; simpl; auto.
  - unfold CalendarButton.onMount.
    destruct (CalendarButton.present saved); simpl; auto.
  - unfold CalendarButton.handleAddToCalendar in Hp.
    destruct (negb (CalendarButton.isValid st) || CalendarButton.isAdding st);
      [discriminate | ].
    destruct (net 0%nat _) as [[ | ] | ]; simpl in Hp; inversion Hp; subst; simpl; auto.
  - unfold CalendarButton.handleAddToCalendar.
    destruct (negb (CalendarButton.isValid st) || CalendarButton.isAdding st); auto.
    destruct (net 0%nat _) as [[ | ] | ]; simpl; auto.
Qed.

Lemma renderer_isValid_sync st :
  RendererReachable st ->
  CalendarEventRenderer.isValid st
  = CalendarEventRenderer.validateEmail (CalendarEventRenderer.email st).
Proof.
  induction 1 as [ | saved st _ IH | value st _ IH | b st _ IH
                   | env net p st st' _ IH Hp | env net p st _ IH ]; simpl; auto.
  - unfold CalendarEventRenderer.onMount.
    destruct (CalendarEventRenderer.present saved); simpl; auto.
  - unfold CalendarEventRenderer.handleAddAllToCalendar in Hp.
    destruct (negb (CalendarEventRenderer.isValid st)
              || CalendarEventRenderer.isAdding st || _); [discriminate | ].
    destruct (0 <? _)%nat; simpl in Hp; inversion Hp; subst; simpl; auto.
  - unfold CalendarEventRenderer.handleAddAllToCalendar.
    destruct (negb (CalendarEventRenderer.isValid st)
              || CalendarEventRenderer.isAdding st || _); auto.
    destruct (0 <? _)%nat; simpl; auto.
Qed.

(** While requests are awaited, [isAdding] is set. *)
Lemma button_pending_isAdding env net p st st' :
  pending (CalendarButton.handleAddToCalendar env net p st) = Some st' ->
  CalendarButton.isAdding st' = true.
Proof.
  unfold CalendarButton.handleAddToCalendar.
  destruct (negb (CalendarButton.isValid st) || CalendarButton.isAdding st);
    [discriminate | ].
  destruct (net 0%nat _) as [[ | ] | ]; simpl; intros H; inversion H; reflexivity.
Qed.

Lemma renderer_pending_isAdding env net p st st' :
  pending (CalendarEventRenderer.handleAddAllToCalendar env net p st) = Some st' ->
  CalendarEventRenderer.isAdding st' = true.
Proof.
  unfold CalendarEventRenderer.handleAddAllToCalendar.
  destruct (negb (CalendarEventRenderer.isValid st)
            || CalendarEventRenderer.isAdding st || _); [discriminate | ].
  destruct (0 <? _)%nat; simpl; intros H; inversion H; reflexivity.
Qed.

Lemma fetchFrom_length net n reqs : length (fetchFrom net n reqs) = length reqs.
Proof. revert n; induction reqs; simpl; auto. Qed.

(** Error responses are fulfilled promises: when no request is rejected,
    every one of them is counted. *)
Lemma succeeded_without_rejection net reqs :
  (forall n r, net n r <> Rejected) ->
  CalendarEventRenderer.succeeded (allSettled net reqs) = length reqs.
Proof.
  intros Hnet. unfold CalendarEventRenderer.succeeded, allSettled.
  generalize 0%nat. induction reqs as [ | r reqs IH]; intros n; simpl; auto.
  destruct (net n r) eqn:E; simpl; [now rewrite IH | now apply Hnet in E].
Qed.

Lemma succeeded_all_rejected net reqs :
  (forall n r, net n r = Rejected) ->
  CalendarEventRenderer.succeeded (allSettled net reqs) = 0%nat.
Proof.
  intros Hnet. unfold CalendarEventRenderer.succeeded, allSettled.
  generalize 0%nat at 1. induction reqs as [ | r reqs IH]; intros n; simpl; auto.
  rewrite Hnet. simpl. apply IH.
Qed.

(** What the bulk handler reports once it has passed its guard. *)
Lemma bulk_report env net p st :
  CalendarEventRenderer.isValid st = true ->
  CalendarEventRenderer.isAdding st = false ->
  CalendarEventRenderer.events p <> [] ->
  let n := CalendarEventRenderer.succeeded
             (allSettled net (CalendarEventRenderer.requests env p st)) in
  reported (CalendarEventRenderer.handleAddAllToCalendar env net p st)
  = if (0 <? n)%nat
    then [(true, CalendarEventRenderer.successMessage n (CalendarEventRenderer.email st))]
    else [(false, str "Failed to add events to calendar. Please try again.")].
Proof.
  intros Hv Ha He. unfold CalendarEventRenderer.handleAddAllToCalendar.
  rewrite Hv, Ha. simpl.
  destruct (CalendarEventRenderer.events p) eqn:E; [congruence | ]. simpl Nat.eqb. cbv iota.
  destruct (0 <? _)%nat; reflexivity.
Qed.

(** C1, at its own example: three events, the second request answered with
    an error response and the other two with 2xx. The handler counts fulfilled
    promises, not [ok] responses, and reports three invites, not two. *)
Theorem bulk_counts_error_responses :
  forall env,
    reported (CalendarEventRenderer.handleAddAllToCalendar env secondFails (rendererProps 3) typed)
    = [(true, str "3 calendar invites sent to a@b.co!")].
Proof. intros env. reflexivity. Qed.

(** C2, for a batch of any size all of whose requests are answered with an
    error response: the handler reports success for the whole batch. *)
Theorem bulk_all_error_responses_reported_as_success :
  forall env n,
    reported (CalendarEventRenderer.handleAddAllToCalendar env allFail (rendererProps (S n)) typed)
    = [(true, CalendarEventRenderer.successMessage (S n) (str "a@b.co"))].
Proof.
  intros env n.
  rewrite bulk_report; try reflexivity; try discriminate.
  cbv zeta. rewrite succeeded_without_rejection by (intros; discriminate).
  unfold CalendarEventRenderer.requests. rewrite length_map. simpl.
  rewrite repeat_length. reflexivity.
Qed.

(** C9: with an address that fails the check, with a dispatch in flight or
    (in bulk) with no event, the handlers send nothing, report nothing and
    leave the state as it is; ["not-an-email"] fails the check. *)
Theorem gated_dispatch_is_noop :
  forall env net,
    (forall p st,
        ButtonReachable st ->
        CalendarButton.validateEmail (CalendarButton.email st) = false ->
        CalendarButton.handleAddToCalendar env net p st = nothingDone st)
    /\ (forall p st,
        RendererReachable st ->
        CalendarEventRenderer.validateEmail (CalendarEventRenderer.email st) = false ->
        CalendarEventRenderer.handleAddAllToCalendar env net p st = nothingDone st)
    /\ (forall env' net' p' st' p st,
        pending (CalendarButton.handleAddToCalendar env' net' p' st') = Some st ->
        CalendarButton.handleAddToCalendar env net p st = nothingDone st)
    /\ (forall env' net' p' st' p st,
        pending (CalendarEventRenderer.handleAddAllToCalendar env' net' p' st') = Some st ->
        CalendarEventRenderer.handleAddAllToCalendar env net p st = nothingDone st)
    /\ (forall p st,
        CalendarEventRenderer.events p = [] ->
        CalendarEventRenderer.handleAddAllToCalendar env net p st = nothingDone st)
    /\ CalendarButton.validateEmail (str "not-an-email") = false
    /\ CalendarEventRenderer.validateEmail (str "not-an-email") = false.
Proof.
  intros env net. repeat split.
  - intros p st Hr Hv. apply button_isValid_sync in Hr.
    unfold CalendarButton.handleAddToCalendar. rewrite Hr, Hv. reflexivity.
  - intros p st Hr Hv. apply renderer_isValid_sync in Hr.
    unfold CalendarEventRenderer.handleAddAllToCalendar. rewrite Hr, Hv. reflexivity.
  - intros env' net' p' st' p st Hp. apply button_pending_isAdding in Hp.
    unfold CalendarButton.handleAddToCalendar. rewrite Hp, orb_true_r. reflexivity.
  - intros env' net' p' st' p st Hp. apply renderer_pending_isAdding in Hp.
    unfold CalendarEventRenderer.handleAddAllToCalendar.
    rewrite Hp, orb_true_r. reflexivity.
  - intros p st He. unfold CalendarEventRenderer.handleAddAllToCalendar.
    rewrite He. simpl. rewrite orb_true_r. reflexivity.
Qed.

Lemma gated_dispatch_is_noop_witness :
  CalendarButton.handleAddToCalendar env0 allFail (buttonProps None)
    (CalendarButton.handleEmailChange (str "not-an-email") CalendarButton.initial)
  = nothingDone
      (CalendarButton.handleEmailChange (str "not-an-email") CalendarButton.initial)
  /\ CalendarEventRenderer.handleAddAllToCalendar env0 allFail (rendererProps 3)
       (CalendarEventRenderer.handleEmailChange (str "not-an-email")
          CalendarEventRenderer.initial)
     = nothingDone
         (CalendarEventRenderer.handleEmailChange (str "not-an-email")
            CalendarEventRenderer.initial)
  /\ CalendarEventRenderer.handleAddAllToCalendar env0 allFail (rendererProps 0) typed
     = nothingDone typed.
Proof.
  destruct (gated_dispatch_is_noop env0 allFail) as (H1 & H2 & _ & _ & H5 & _).
  split; [ | split].
  - apply H1; [apply BR_change, BR_initial | reflexivity].
  - apply H2; [apply RR_change, RR_initial | reflexivity].
  - apply H5. reflexivity.
Defined.

(** With failures that reject the promise the count is the number of
    requests that got through: the second of three rejected gives two. *)
Lemma bulk_counts_fulfilled_promises :
  forall env,
    reported (CalendarEventRenderer.handleAddAllToCalendar env
                (fun n _ => if Nat.eqb n 1 then Rejected else Fulfilled true)
                (rendererProps 3) typed)
    = [(true, str "2 calendar invites sent to a@b.co!")].
Proof. intros env. reflexivity. Qed.

(** When every request is rejected the batch is reported as failed. *)
Lemma bulk_all_rejected_reported_as_failure :
  forall env n,
    reported (CalendarEventRenderer.handleAddAllToCalendar env allRejected
                (rendererProps (S n)) typed)
    = [(false, str "Failed to add events to calendar. Please try again.")].
Proof.
  intros env n.
  rewrite bulk_report; try reflexivity; try discriminate.
  cbv zeta. now rewrite succeeded_all_rejected.
Qed.

(** The single-event handler does look at the response: an error response
    is reported as a failure. *)
Lemma single_error_response_reported_as_failure :
  forall env,
    reported (CalendarButton.handleAddToCalendar env allFail (buttonProps None)
                (CalendarButton.handleEmailChange (str "a@b.co") CalendarButton.initial))
    = [(false, str "Failed to add to calendar. Please try again.")].
Proof. intros env. reflexivity. Qed.

End DispatchFacts.

(** ** Date and time normalization, and the invite built from it *)

Module NormalizerFacts.
Import JS Patterns Fetch Samples Statements.

Local Open Scope Z_scope.

(** Month and day of every day number are a calendar month and day. *)
Lemma civilFromDays_range t :
  1 <= snd (fst (civilFromDays t)) <= 12 /\ 1 <= snd (civilFromDays t) <= 31.
Proof.
  unfold civilFromDays, civilOfDoe. cbv zeta. cbn [fst snd].
  set (doe := (t + 719468) mod 146097).
  assert (Hdoe : 0 <= doe < 146097) by (apply Z.mod_pos_bound; lia).
  clearbody doe.
  set (yoe := (doe - doe / 1460 + doe / 36524 - doe / 146096) / 365).
  set (doy := doe - (365 * yoe + yoe / 4 - yoe / 100)).
  assert (Hdoy : 0 <= doy <= 365).
  { subst doy yoe. Z.div_mod_to_equations. lia. }
  clearbody doy. clear yoe Hdoe doe.
  set (mp := (5 * doy + 2) / 153).
  assert (Hmp : 0 <= mp <= 11) by (subst mp; Z.div_mod_to_equations; lia).
  assert (Hd : 1 <= doy - (153 * mp + 2) / 5 + 1 <= 31)
    by (subst mp; Z.div_mod_to_equations; lia).
  clearbody mp.
  destruct (mp <? 10) eqn:E; [apply Z.ltb_lt in E | apply Z.ltb_ge in E]; lia.
Qed.

Lemma getMonth_range t : 1 <= getMonth t + 1 <= 12.
Proof. unfold getMonth. pose proof (civilFromDays_range t). lia. Qed.

Lemma getDate_range t : 1 <= getDate t <= 31.
Proof. unfold getDate. pose proof (civilFromDays_range t). lia. Qed.

Lemma fits_app p1 p2 s1 s2 :
  fits p1 s1 = true -> fits p2 s2 = true -> fits (p1 ++ p2) (s1 ++ s2) = true.
Proof.
  revert s1. induction p1 as [ | [ | a] p1 IH]; intros [ | c s1]; simpl;
    try discriminate; auto.
  - intros H1 H2. apply andb_true_iff in H1 as [Hc H1]. rewrite Hc. simpl. auto.
  - intros H1 H2. apply andb_true_iff in H1 as [Hc H1]. rewrite Hc. simpl. auto.
Qed.

(** A number below one hundred, padded, is two digits. *)
Lemma two_digits n :
  0 <= n <= 99 -> fits [Digit; Digit] (padStart2 (toString n)) = true.
Proof.
  intros Hn.
  assert (H : forallb (fun k => fits [Digit; Digit] (padStart2 (toString (Z.of_nat k))))
                (seq 0 100) = true) by (vm_compute; reflexivity).
  rewrite forallb_forall in H.
  specialize (H (Z.to_nat n)). rewrite Z2Nat.id in H by lia.
  apply H. apply in_seq. lia.
Qed.

(** A year from 1000 to 9999 is four digits. *)
Lemma four_digits y :
  1000 <= y <= 9999 -> fits [Digit; Digit; Digit; Digit] (toString y) = true.
Proof.
  intros Hy.
  assert (H : forallb (fun k => fits [Digit; Digit; Digit; Digit]
                                   (toString (1000 + Z.of_nat k)))
                (seq 0 (90 * 100)) = true) by (vm_compute; reflexivity).
  rewrite forallb_forall in H.
  specialize (H (Z.to_nat (y - 1000))). rewrite Z2Nat.id in H by lia.
  replace (1000 + (y - 1000)) with y in H by lia.
  apply H. apply in_seq. lia.
Qed.

Lemma isDigit_value c : isDigit c = true -> 0 <= Z.of_N c - 48 <= 9.
Proof.
  unfold isDigit. intros H. apply andb_true_iff in H as [H1 H2].
  apply N.leb_le in H1, H2. lia.
Qed.

Lemma digitsN2_inv s ds r :
  digitsN 2 s = Some (ds, r) -> fits [Digit; Digit] ds = true.
Proof.
  simpl. destruct s as [ | a [ | b s]]; try discriminate.
  - destruct (isDigit a); discriminate.
  - destruct (isDigit a) eqn:Ea; [ | discriminate].
    destruct (isDigit b) eqn:Eb; [ | discriminate].
    intros H. inversion H; subst. simpl. now rewrite Ea, Eb.
Qed.

Lemma digits12_value s h r :
  digits12 s = Some (h, r) -> 0 <= parseInt h <= 99.
Proof.
  unfold digits12. destruct s as [ | a s]; [discriminate | ].
  destruct (isDigit a) eqn:Ea; [ | discriminate].
  pose proof (isDigit_value _ Ea) as Ha.
  destruct s as [ | b s].
  - intros H. inversion H; subst. unfold parseInt. cbn [takeWhile].
    rewrite Ea. cbn [takeWhile fold_left]. lia.
  - destruct (isDigit b) eqn:Eb; intros H; inversion H; subst;
      unfold parseInt; cbn [takeWhile]; rewrite Ea; cbn [takeWhile].
    + rewrite Eb. cbn [takeWhile fold_left]. pose proof (isDigit_value _ Eb). lia.
    + cbn [fold_left]. lia.
Qed.

Lemma amPm_inv s ap r :
  amPm s = Some (ap, r) ->
  toUpperCase ap = str "AM" \/ toUpperCase ap = str "PM".
Proof.
  unfold amPm. destruct s as [ | a [ | m s]]; try discriminate.
  destruct ((canonicalize a =? 65)%N || (canonicalize a =? 80)%N) eqn:Ea;
    [ | discriminate].
  destruct (canonicalize m =? 77)%N eqn:Em; [ | discriminate].
  simpl. intros H. inversion H; subst. simpl.
  apply N.eqb_eq in Em. rewrite Em.
  apply orb_true_iff in Ea as [Ea | Ea]; apply N.eqb_eq in Ea; rewrite Ea; auto.
Qed.

(** What the time pattern captures. *)
Lemma matchTime_inv s m r :
  matchTime s = Some (m, r) ->
  0 <= parseInt (tmHours m) <= 99
  /\ fits [Digit; Digit] (tmMinutes m) = true
  /\ (toUpperCase (tmAmPm m) = str "AM" \/ toUpperCase (tmAmPm m) = str "PM").
Proof.
  unfold matchTime.
  destruct (digits12 s) as [[h s1] | ] eqn:Eh; [ | discriminate].
  destruct (chr 58 s1) as [s2 | ]; [ | discriminate].
  destruct (digitsN 2 s2) as [[mi s3] | ] eqn:Em; [ | discriminate].
  destruct (amPm (dropWhile isSpace s3)) as [[ap rest] | ] eqn:Ea; [ | discriminate].
  intros H. inversion H; subst. simpl.
  repeat split; eauto using digits12_value, digitsN2_inv, amPm_inv;
    eapply digits12_value; eauto.
Qed.

Lemma searchTime_inv s m :
  searchTime s = Some m ->
  0 <= parseInt (tmHours m) <= 99
  /\ fits [Digit; Digit] (tmMinutes m) = true
  /\ (toUpperCase (tmAmPm m) = str "AM" \/ toUpperCase (tmAmPm m) = str "PM").
Proof.
  induction s as [ | c s IH]; simpl.
  - discriminate.
  - destruct (matchTime (c :: s)) as [[m' r] | ] eqn:E.
    + intros H. inversion H; subst. eapply matchTime_inv; eauto.
    + exact IH.
Qed.

(** The meridiem rules. *)
Lemma to24_PM h :
  CalendarEventRenderer.to24 (str "PM") h = if h =? 12 then 12 else h + 12.
Proof.
  unfold CalendarEventRenderer.to24. simpl.
  destruct (h =? 12) eqn:E; simpl; [now apply Z.eqb_eq in E | reflexivity].
Qed.

Lemma to24_AM h :
  CalendarEventRenderer.to24 (str "AM") h = if h =? 12 then 0 else h.
Proof. unfold CalendarEventRenderer.to24. simpl. reflexivity. Qed.

(** The instant is the year, two digits each for month and day, the hour
    after the meridiem rules and the minutes as matched. *)
Lemma formatDateTime_shape env date time :
  1000 <= getFullYear (CalendarEventRenderer.parseDate env date) <= 9999 ->
  matchedHourAtMost 87 time = true ->
  canonicalShape (CalendarEventRenderer.formatDateTime env date time) = true.
Proof.
  intros Hy Hh. unfold CalendarEventRenderer.formatDateTime. cbv zeta.
  set (d := CalendarEventRenderer.parseDate env date) in *.
  pose proof (four_digits Hy) as Fy.
  pose proof (two_digits (n := getMonth d + 1)) as Fm.
  pose proof (two_digits (n := getDate d)) as Fd.
  pose proof (getMonth_range d). pose proof (getDate_range d).
  specialize (Fm ltac:(lia)). specialize (Fd ltac:(lia)).
  unfold matchedHourAtMost in Hh. unfold canonicalShape, instantShape.
  destruct (searchTime (CalendarEventRenderer.formatDisplayTime time)) as [m | ] eqn:E.
  - apply searchTime_inv in E as (Hh0 & Fmin & Hap). apply Z.leb_le in Hh.
    assert (Fh : fits [Digit; Digit]
                   (padStart2 (toString (CalendarEventRenderer.to24
                                           (toUpperCase (tmAmPm m))
                                           (parseInt (tmHours m))))) = true).
    { apply two_digits. destruct Hap as [-> | ->];
        [rewrite to24_AM | rewrite to24_PM];
        destruct (parseInt (tmHours m) =? 12); lia. }
    repeat (apply fits_app; [assumption || reflexivity | ]). reflexivity.
  - repeat (apply fits_app; [assumption || reflexivity | ]). reflexivity.
Qed.

(** C5: the worked examples of the canonical instant and the meridiem
    rules: PM adds twelve unless the hour is 12, 12 AM is hour 0, everything
    else keeps its hour. *)
Theorem canonical_instant_examples :
  forall env,
    CalendarEventRenderer.formatDateTime env (str "2025-03-05") (str "2:30 PM")
    = str "2025-03-05T14:30:00-06:00"
    /\ CalendarEventRenderer.formatDateTime env (str "2025-03-05") (str "14:30")
       = str "2025-03-05T14:30:00-06:00"
    /\ CalendarEventRenderer.formatDateTime env (str "2025-01-01") (str "12:00 AM")
       = str "2025-01-01T00:00:00-06:00"
    /\ CalendarEventRenderer.formatDateTime env (str "2025-01-01") (str "12:00 PM")
       = str "2025-01-01T12:00:00-06:00"
    /\ (forall h, CalendarEventRenderer.to24 (str "PM") h = if h =? 12 then 12 else h + 12)
    /\ (forall h, CalendarEventRenderer.to24 (str "AM") h = if h =? 12 then 0 else h).
Proof.
  intros env.
  repeat apply conj;
    [vm_compute; reflexivity | vm_compute; reflexivity | vm_compute; reflexivity
    | vm_compute; reflexivity | exact to24_PM | exact to24_AM].
Qed.


(** A year below 1000 is not padded either. *)
Lemma canonical_shape_short_year :
  CalendarEventRenderer.formatDateTime env0 (str "0500-01-01") (str "noon")
  = str "500-01-01T12:00:00-06:00".
Proof. vm_compute. reflexivity. Qed.



(** C8, as claimed, fails: without a link the description still ends with
    the blank line that precedes the reference line. *)
Lemma description_without_link_counterexample :
  let p := rendererProps 1 in
  let d := Fetch.description (CalendarEventRenderer.payload env0 p typed (party None)) in
  d <> claimedDescription (CalendarEventRenderer.byText p)
         (CalendarButton.description (party None)) None
  /\ d = str "Curated by DeSilo AI Assistant" ++ [10%N; 10%N] ++ str "Bring cake"
           ++ [10%N; 10%N].
Proof. split; [vm_compute; discriminate | vm_compute; reflexivity]. Qed.

(** C8, amended: in both components and for all props, states and events,
    the description is the attribution, a blank line, the event's description,
    a second blank line and the reference line. The attribution is
    [curatedByText] when that is a non-empty string, and otherwise
    [Curated by <organization> AI Assistant], the organization being
    [organizationName] when it is given and [DeSilo] when it is not. The
    reference line is [View original event: <link>] when the link is a
    non-empty string and empty otherwise, so that without a link the
    description ends with the second blank line. *)
Theorem invite_description_layout :
  forall env,
    (forall p st ev,
        Fetch.description (CalendarEventRenderer.payload env p st ev)
        = attribution (CalendarEventRenderer.curatedByText p)
                      (CalendarEventRenderer.organizationName p)
            ++ [10%N; 10%N] ++ CalendarButton.description ev ++ [10%N; 10%N]
            ++ referenceLine (CalendarButton.originalLink ev))
    /\ (forall p st,
        Fetch.description (CalendarButton.payload env p st)
        = attribution (CalendarButton.curatedByText p)
                      (CalendarButton.organizationName p)
            ++ [10%N; 10%N] ++ CalendarButton.description (CalendarButton.event p)
            ++ [10%N; 10%N]
            ++ referenceLine (CalendarButton.originalLink (CalendarButton.event p))).
Proof.
  intros env. split.
  - intros [evs api org cur] st [t d tm loc desc link].
    cbn [CalendarEventRenderer.payload Fetch.description CalendarButton.description
         CalendarButton.originalLink CalendarEventRenderer.curatedByText
         CalendarEventRenderer.organizationName].
    unfold CalendarEventRenderer.byText, CalendarEventRenderer.orgName,
      CalendarEventRenderer.blankLine.
    cbn [CalendarEventRenderer.curatedByText CalendarEventRenderer.organizationName].
    destruct cur as [[ | c cur] | ]; destruct link as [[ | l link] | ]; reflexivity.
  - intros [[t d tm loc desc link] api org cur] st.
    unfold CalendarButton.payload. cbv zeta.
    cbn [Fetch.description CalendarButton.description CalendarButton.event
         CalendarButton.originalLink CalendarButton.curatedByText
         CalendarButton.organizationName].
    unfold CalendarButton.byText, CalendarButton.orgName, CalendarButton.blankLine.
    cbn [CalendarButton.curatedByText CalendarButton.organizationName].
    destruct cur as [[ | c cur] | ]; destruct link as [[ | l link] | ]; reflexivity.
Qed.

(** C10: the two components normalize dates and times alike, and so put
    the same instant into the request for the same date and time. *)
Theorem normalizers_agree :
  forall env,
    (forall dateStr,
        CalendarButton.parseDate env dateStr = CalendarEventRenderer.parseDate env dateStr)
    /\ (forall timeStr,
        CalendarButton.formatDisplayTime timeStr
        = CalendarEventRenderer.formatDisplayTime timeStr)
    /\ (forall date time,
        CalendarButton.formatDateTime env date time
        = CalendarEventRenderer.formatDateTime env date time)
    /\ (forall p st p' st',
        Fetch.date (CalendarButton.payload env p st)
        = Fetch.date (CalendarEventRenderer.payload env p' st' (CalendarButton.event p))).
Proof. intros env. repeat split. Qed.

End NormalizerFacts.

(** ** Event blocks: parsing and stripping *)

Module ParserFacts.
Import JS Patterns Samples Statements ParseEvents.

(** *** Literals *)

Lemma lit_inv p s r : lit p s = Some r -> s = p ++ r.
Proof.
  revert s. induction p as [ | a p IH]; intros s; simpl.
  - intros H. now inversion H.
  - destruct s as [ | c s]; [discriminate | ].
    destruct (N.eqb_spec a c); [ | discriminate].
    intros H. apply IH in H. now subst.
Qed.

Lemma lit_app p r : lit p (p ++ r) = Some r.
Proof. induction p as [ | a p IH]; simpl; [reflexivity | now rewrite N.eqb_refl]. Qed.

Lemma litCI_inv key s r :
  litCI key s = Some r ->
  exists k, s = k ++ r /\ toUpperCase k = toUpperCase key.
Proof.
  revert s. induction key as [ | a key IH]; intros s; simpl.
  - intros H. inversion H. now exists [].
  - destruct s as [ | c s]; [discriminate | ].
    destruct (N.eqb_spec (canonicalize a) (canonicalize c)) as [E | ]; [ | discriminate].
    intros H. apply IH in H as (k & -> & Hk).
    exists (c :: k). simpl. now rewrite Hk, E.
Qed.

Lemma litCI_app key k r :
  toUpperCase k = toUpperCase key -> litCI key (k ++ r) = Some r.
Proof.
  revert k. induction key as [ | a key IH]; intros [ | c k]; simpl;
    try discriminate; auto.
  intros H. inversion H as [[Hc Hk]]. rewrite Hc, N.eqb_refl. auto.
Qed.

(** *** Occurrences *)

Lemma mentions_cons key c s : mentions key s -> mentions key (c :: s).
Proof.
  intros (b & k & r & -> & Hk). exists (c :: b), k, r. auto.
Qed.

Lemma mentions_app key a s b : mentions key s -> mentions key (a ++ s ++ b).
Proof.
  intros (b0 & k & r & -> & Hk). exists (a ++ b0), k, (r ++ b).
  now rewrite <- !app_assoc.
Qed.

Lemma searchCI_mentions key s r : searchCI key s = Some r -> mentions key s.
Proof.
  induction s as [ | c s IH]; simpl.
  - destruct (litCI key []) eqn:E; [ | discriminate].
    intros _. apply litCI_inv in E as (k & Hs & Hk). exists [], k, j. auto.
  - destruct (litCI key (c :: s)) eqn:E.
    + intros _. apply litCI_inv in E as (k & Hs & Hk). exists [], k, j. auto.
    + intros H. apply mentions_cons. auto.
Qed.

Lemma searchCI_head key s r : litCI key s = Some r -> searchCI key s = Some r.
Proof. destruct s; simpl; intros ->; reflexivity. Qed.

Lemma mentions_searchCI key s : mentions key s -> searchCI key s <> None.
Proof.
  intros (b & k & r & -> & Hk). induction b as [ | c b IH]; simpl.
  - erewrite searchCI_head by (apply litCI_app; exact Hk). discriminate.
  - destruct (litCI key (c :: b ++ k ++ r)); [discriminate | exact IH].
Qed.

(** Whether a key is mentioned can be computed. *)
Lemma mentions_iff key s : mentions key s <-> searchCI key s <> None.
Proof.
  split; [apply mentions_searchCI | ].
  destruct (searchCI key s) eqn:E; [intros _ | congruence].
  eapply searchCI_mentions; eauto.
Qed.

Lemma not_mentions key s : searchCI key s = None -> ~ mentions key s.
Proof. intros H Hm. now apply mentions_searchCI in Hm. Qed.

(** *** Markers and blocks *)

Lemma matchMarker_inv word s r :
  matchMarker word s = Some r ->
  s = dashes ++ word ++ dashes ++ r \/ s = dashes ++ word ++ str "S" ++ dashes ++ r.
Proof.
  unfold matchMarker.
  destruct (lit dashes s) as [s1 | ] eqn:E1; [ | discriminate].
  destruct (lit word s1) as [s2 | ] eqn:E2; [ | discriminate].
  apply lit_inv in E1, E2. subst.
  destruct (lit (str "S") s2) as [s3 | ] eqn:E3.
  - destruct (lit dashes s3) as [r' | ] eqn:E4.
    + intros H. inversion H; subst. apply lit_inv in E3, E4. subst. now right.
    + intros H. apply lit_inv in H. subst. now left.
  - intros H. apply lit_inv in H. subst. now left.
Qed.

Lemma matchMarker_opening s r :
  matchMarker EVENT s = Some r -> exists o, isOpening o /\ s = o ++ r.
Proof.
  intros H. apply matchMarker_inv in H as [-> | ->].
  - exists (str "---EVENT---"). split; [now left | reflexivity].
  - exists (str "---EVENTS---"). split; [now right | reflexivity].
Qed.

Lemma matchMarker_closing s r :
  matchMarker END_EVENT s = Some r -> exists c, isClosing c /\ s = c ++ r.
Proof.
  intros H. apply matchMarker_inv in H as [-> | ->].
  - exists (str "---END-EVENT---"). split; [now left | reflexivity].
  - exists (str "---END-EVENTS---"). split; [now right | reflexivity].
Qed.

Lemma matchMarker_at_opening o r : isOpening o -> matchMarker EVENT (o ++ r) = Some r.
Proof. intros [-> | ->]; reflexivity. Qed.

Lemma matchMarker_at_closing c r : isClosing c -> matchMarker END_EVENT (c ++ r) = Some r.
Proof. intros [-> | ->]; reflexivity. Qed.

Lemma opening_length o : isOpening o -> 11 <= length o.
Proof. intros [-> | ->]; simpl; lia. Qed.

Lemma lazyBody_eq s :
  lazyBody s
  = match matchMarker END_EVENT s with
    | Some rest => Some ([], rest)
    | None =>
        match s with
        | [] => None
        | c :: s' =>
            match lazyBody s' with
            | Some (body, rest) => Some (c :: body, rest)
            | None => None
            end
        end
    end.
Proof. destruct s; reflexivity. Qed.

Lemma execBlock_eq s :
  execBlock s
  = match matchBlock s with
    | Some (body, rest) => Some ([], body, rest)
    | None =>
        match s with
        | [] => None
        | c :: s' =>
            match execBlock s' with
            | Some (skipped, body, rest) => Some (c :: skipped, body, rest)
            | None => None
            end
        end
    end.
Proof. destruct s; reflexivity. Qed.

Lemma lazyBody_inv s body rest :
  lazyBody s = Some (body, rest) ->
  exists c, isClosing c /\ s = body ++ c ++ rest.
Proof.
  revert body. induction s as [ | x s IH]; intros body; rewrite lazyBody_eq.
  - destruct (matchMarker END_EVENT []) eqn:E; [ | discriminate].
    intros H. inversion H; subst. now apply matchMarker_closing.
  - destruct (matchMarker END_EVENT (x :: s)) eqn:E.
    + intros H. inversion H; subst. now apply matchMarker_closing.
    + destruct (lazyBody s) as [[b r] | ]; [ | discriminate].
      intros H. inversion H; subst.
      destruct (IH b eq_refl) as (c & Hc & ->). exists c. auto.
Qed.

(** The lazy body ends at the first closing marker, so one is found
    whenever one is there. *)
Lemma lazyBody_finds body c rest :
  isClosing c -> lazyBody (body ++ c ++ rest) <> None.
Proof.
  intros Hc. induction body as [ | x body IH]; rewrite lazyBody_eq.
  - simpl. rewrite (matchMarker_at_closing _ Hc). discriminate.
  - simpl. destruct (matchMarker END_EVENT (x :: body ++ c ++ rest)); [discriminate | ].
    destruct (lazyBody (body ++ c ++ rest)) as [[b r] | ]; [discriminate | exact IH].
Qed.

Lemma matchBlock_inv s body rest :
  matchBlock s = Some (body, rest) ->
  exists o c, isOpening o /\ isClosing c /\ s = o ++ body ++ c ++ rest.
Proof.
  unfold matchBlock. destruct (matchMarker EVENT s) as [s1 | ] eqn:E; [ | discriminate].
  intros H. apply matchMarker_opening in E as (o & Ho & ->).
  apply lazyBody_inv in H as (c & Hc & ->). eauto.
Qed.

(** A match of the block pattern is a gap, an opening marker, the body and
    a closing marker. *)
Lemma execBlock_inv s skipped body rest :
  execBlock s = Some (skipped, body, rest) ->
  exists o c, isOpening o /\ isClosing c /\ s = skipped ++ o ++ body ++ c ++ rest.
Proof.
  revert skipped. induction s as [ | x s IH]; intros skipped; rewrite execBlock_eq.
  - destruct (matchBlock []) as [[b r] | ] eqn:E; [ | discriminate].
    intros H. inversion H; subst. now apply matchBlock_inv.
  - destruct (matchBlock (x :: s)) as [[b r] | ] eqn:E.
    + intros H. inversion H; subst. now apply matchBlock_inv.
    + destruct (execBlock s) as [[[sk b] r] | ]; [ | discriminate].
      intros H. inversion H; subst.
      destruct (IH sk eq_refl) as (o & c & Ho & Hc & ->). exists o, c. auto.
Qed.

Lemma execBlock_shorter s skipped body rest :
  execBlock s = Some (skipped, body, rest) -> length rest < length s.
Proof.
  intros H. apply execBlock_inv in H as (o & c & Ho & _ & ->).
  apply opening_length in Ho. rewrite !length_app. lia.
Qed.

Lemma execBlock_prepend a s : execBlock s <> None -> execBlock (a ++ s) <> None.
Proof.
  intros H. induction a as [ | x a IH]; [exact H | ].
  rewrite execBlock_eq. simpl.
  destruct (matchBlock (x :: a ++ s)) as [[b r] | ]; [discriminate | ].
  destruct (execBlock (a ++ s)) as [[[sk b] r] | ]; [discriminate | exact IH].
Qed.

(** The block pattern matches somewhere exactly when the text has a block. *)
Lemma execBlock_HasBlock s : execBlock s <> None <-> HasBlock s.
Proof.
  split.
  - destruct (execBlock s) as [[[sk b] r] | ] eqn:E; [intros _ | congruence].
    apply execBlock_inv in E as (o & c & Ho & Hc & ->).
    exists sk, o, b, c, r. auto.
  - intros (a & o & b & c & r & Ho & Hc & ->).
    apply execBlock_prepend. rewrite execBlock_eq. unfold matchBlock.
    rewrite (matchMarker_at_opening _ Ho).
    destruct (lazyBody (b ++ c ++ r)) as [[b' r'] | ] eqn:E; [discriminate | ].
    now apply lazyBody_finds in E.
Qed.

(** *** The loops never run out of iterations *)

Lemma parseLoop_fuel n m s :
  length s < n -> length s < m -> parseLoop n s = parseLoop m s.
Proof.
  revert m s. induction n as [ | n IH]; intros [ | m] s Hn Hm; try lia. simpl.
  destruct (execBlock s) as [[[sk b] r] | ] eqn:E; [ | reflexivity].
  apply execBlock_shorter in E. f_equal. apply IH; lia.
Qed.

Lemma stripLoop_fuel n m s :
  length s < n -> length s < m -> stripLoop n s = stripLoop m s.
Proof.
  revert m s. induction n as [ | n IH]; intros [ | m] s Hn Hm; try lia. simpl.
  destruct (execBlock s) as [[[sk b] r] | ] eqn:E; [ | reflexivity].
  apply execBlock_shorter in E. f_equal. apply IH; lia.
Qed.

(** The [while] loop, one iteration unfolded. *)
Lemma parseEventsFromContent_eq content :
  parseEventsFromContent content
  = match execBlock content with
    | None => []
    | Some (_, eventsBlock, rest) => parseBlock eventsBlock ++ parseEventsFromContent rest
    end.
Proof.
  unfold parseEventsFromContent at 1. cbn [parseLoop].
  destruct (execBlock content) as [[[sk b] r] | ] eqn:E; [ | reflexivity].
  apply execBlock_shorter in E. f_equal.
  unfold parseEventsFromContent. apply parseLoop_fuel; lia.
Qed.

(** The replacement, one match unfolded. *)
Lemma stripEventBlocks_eq content :
  stripEventBlocks content
  = match execBlock content with
    | None => content
    | Some (skipped, _, rest) => skipped ++ stripEventBlocks rest
    end.
Proof.
  unfold stripEventBlocks at 1. cbn [stripLoop].
  destruct (execBlock content) as [[[sk b] r] | ] eqn:E; [ | reflexivity].
  apply execBlock_shorter in E. f_equal.
  unfold stripEventBlocks. apply stripLoop_fuel; lia.
Qed.

(** *** Entries and fields *)

Lemma splitTitle_concat s : fst (splitTitle s) ++ concat (snd (splitTitle s)) = s.
Proof.
  induction s as [ | c s IH]; simpl; [reflexivity | ].
  destruct (splitTitle s) as [cur more]. simpl in IH.
  destruct (startsWith titleKey s); simpl; now rewrite IH.
Qed.

Lemma splitEntries_concat s : concat (splitEntries s) = s.
Proof.
  unfold splitEntries. pose proof (splitTitle_concat s) as H.
  destruct (splitTitle s) as [h t]. exact H.
Qed.

Lemma In_concat_infix (x : jsstring) l :
  In x l -> exists a b, concat l = a ++ x ++ b.
Proof.
  intros H. apply in_split in H as (l1 & l2 & ->).
  exists (concat l1), (concat l2). now rewrite concat_app.
Qed.

(** Every entry is a piece of its block. *)
Lemma entry_infix block entry :
  In entry (splitEntries block) -> exists a b, block = a ++ entry ++ b.
Proof.
  intros H. apply In_concat_infix in H. now rewrite splitEntries_concat in H.
Qed.

Lemma truthy_nonempty s : truthy s = true <-> s <> [].
Proof. destruct s; simpl; split; congruence. Qed.

Lemma pushEntry_required eventData e :
  In e (pushEntry eventData) -> title e <> [] /\ date e <> [] /\ time e <> [].
Proof.
  unfold pushEntry. cbv zeta.
  destruct (truthy (title (makeEvent eventData))) eqn:Et; [ | intros []].
  destruct (truthy (date (makeEvent eventData))) eqn:Ed; [ | intros []].
  destruct (truthy (time (makeEvent eventData))) eqn:Em; [ | intros []].
  intros [<- | []]. now rewrite <- !truthy_nonempty.
Qed.

Lemma pushEntry_empty eventData :
  title (makeEvent eventData) = [] \/ date (makeEvent eventData) = []
  \/ time (makeEvent eventData) = [] ->
  pushEntry eventData = [].
Proof.
  unfold pushEntry. cbv zeta. intros [H | [H | H]]; rewrite H; simpl;
    rewrite ?andb_false_r; reflexivity.
Qed.

Lemma parseBlock_required block : Forall hasRequired (parseBlock block).
Proof.
  apply Forall_forall. intros e H. unfold parseBlock in H.
  apply in_flat_map in H as (entry & _ & H). now apply pushEntry_required in H.
Qed.

Lemma parseLoop_required n s : Forall hasRequired (parseLoop n s).
Proof.
  revert s. induction n as [ | n IH]; intros s; simpl; [constructor | ].
  destruct (execBlock s) as [[[sk b] r] | ]; [ | constructor].
  apply Forall_app. split; [apply parseBlock_required | apply IH].
Qed.

Lemma flat_map_nil {A B : Type} (f : A -> list B) l :
  (forall x, In x l -> f x = []) -> flat_map f l = [].
Proof.
  induction l as [ | x l IH]; simpl; intros H; [reflexivity | ].
  rewrite (H x) by now left. simpl. apply IH. intros y Hy. apply H. now right.
Qed.

(** *** Stripping *)

Lemma stripEventBlocks_length s : length (stripEventBlocks s) <= length s.
Proof.
  assert (H : forall n s, length s <= n -> length (stripEventBlocks s) <= length s).
  { induction n as [ | n IH]; intros t Hle; rewrite stripEventBlocks_eq;
      destruct (execBlock t) as [[[sk b] r] | ] eqn:E; try lia.
    - apply execBlock_shorter in E. lia.
    - pose proof (execBlock_shorter _ E) as Hr.
      apply execBlock_inv in E as (o & c & _ & _ & Hs).
      specialize (IH r ltac:(lia)). rewrite length_app.
      apply (f_equal (@length N)) in Hs. rewrite !length_app in Hs. lia. }
  now apply (H (length s)).
Qed.

(** The replacement leaves a text as it is exactly when nothing matches. *)
Lemma stripEventBlocks_fixed s : stripEventBlocks s = s <-> execBlock s = None.
Proof.
  rewrite stripEventBlocks_eq.
  destruct (execBlock s) as [[[sk b] r] | ] eqn:E.
  - split; [ | discriminate]. intros H. exfalso.
    apply execBlock_inv in E as (o & c & Ho & _ & Hs).
    apply opening_length in Ho. pose proof (stripEventBlocks_length r).
    rewrite Hs in H. apply (f_equal (@length N)) in H.
    rewrite !length_app in H. lia.
  - split; reflexivity.
Qed.

(** C7, as claimed, fails: removing a block can join the two halves of
    another one, which a second pass then removes. *)
Lemma strip_twice_counterexample :
  stripEventBlocks spliced = str "---EVENT---y---END-EVENT---"
  /\ stripEventBlocks (stripEventBlocks spliced) = []
  /\ stripEventBlocks (stripEventBlocks spliced) <> stripEventBlocks spliced.
Proof.
  split; [vm_compute; reflexivity | ].
  split; [vm_compute; reflexivity | vm_compute; discriminate].
Qed.

(** *** A single block in a text without other dashes *)

Lemma lit_dashes_inv s r : lit dashes s = Some r -> s = 45%N :: 45%N :: 45%N :: r.
Proof. intros H. now apply lit_inv in H. Qed.

Lemma mentions_dashes_head s : mentions dashes (45%N :: 45%N :: 45%N :: s).
Proof. exists [], dashes, s. split; reflexivity. Qed.

(** In front of a marker, a text without three dashes in a row leaves no
    place where a marker could start earlier. *)
Lemma marker_not_before word s x :
  ~ mentions dashes s -> s <> [] ->
  (exists c w, word = c :: w /\ c <> 45%N) ->
  matchMarker word (s ++ dashes ++ x) = None.
Proof.
  intros Hs Hne (c & w & -> & Hc). unfold matchMarker.
  destruct (lit dashes (s ++ dashes ++ x)) as [s1 | ] eqn:E; [ | reflexivity].
  apply lit_dashes_inv in E.
  assert (Hw : forall y, lit (c :: w) (45%N :: y) = None).
  { intros y. cbn [lit]. destruct (N.eqb_spec c 45); [contradiction | reflexivity]. }
  destruct s as [ | a [ | b [ | d s]]]; [contradiction | | | ].
  - simpl in E. inversion E; subst. now rewrite Hw.
  - simpl in E. inversion E; subst. now rewrite Hw.
  - simpl in E. inversion E; subst. exfalso. apply Hs, mentions_dashes_head.
Qed.

Lemma not_mentions_tail key c s : ~ mentions key (c :: s) -> ~ mentions key s.
Proof. intros H Hm. apply H. now apply mentions_cons. Qed.

Lemma closing_dashes c : isClosing c -> exists c', c = dashes ++ c'.
Proof. intros [-> | ->]; eexists; reflexivity. Qed.

Lemma opening_dashes o : isOpening o -> exists o', o = dashes ++ o'.
Proof. intros [-> | ->]; eexists; reflexivity. Qed.

Lemma lazyBody_exact body c rest :
  ~ mentions dashes body -> isClosing c ->
  lazyBody (body ++ c ++ rest) = Some (body, rest).
Proof.
  intros Hb Hc. induction body as [ | x body IH]; rewrite lazyBody_eq.
  - simpl. now rewrite (matchMarker_at_closing _ Hc).
  - destruct (closing_dashes Hc) as (c' & Ec).
    assert (E : matchMarker END_EVENT ((x :: body) ++ c ++ rest) = None).
    { rewrite Ec, <- app_assoc. apply marker_not_before; auto; [discriminate | ].
      eexists _, _. split; [reflexivity | discriminate]. }
    rewrite E. simpl. rewrite IH; [reflexivity | ]. eapply not_mentions_tail; eauto.
Qed.

Lemma execBlock_exact pre o body c rest :
  ~ mentions dashes pre -> ~ mentions dashes body ->
  isOpening o -> isClosing c ->
  execBlock (pre ++ o ++ body ++ c ++ rest) = Some (pre, body, rest).
Proof.
  intros Hp Hb Ho Hc. induction pre as [ | x pre IH]; rewrite execBlock_eq.
  - simpl. unfold matchBlock. rewrite (matchMarker_at_opening _ Ho).
    now rewrite lazyBody_exact.
  - destruct (opening_dashes Ho) as (o' & Eo).
    assert (E : matchBlock ((x :: pre) ++ o ++ body ++ c ++ rest) = None).
    { unfold matchBlock. rewrite Eo, <- app_assoc.
      rewrite marker_not_before; auto; [discriminate | ].
      eexists _, _. split; [reflexivity | discriminate]. }
    rewrite E. simpl. rewrite IH; [reflexivity | ]. eapply not_mentions_tail; eauto.
Qed.

(** *** One entry *)

Lemma startsWith_occurs key s : startsWith key s = true -> occurs key s.
Proof.
  unfold startsWith. destruct (lit key s) as [r | ] eqn:E; [ | discriminate].
  intros _. apply lit_inv in E. exists [], r. exact E.
Qed.

Lemma occurs_cons key c s : occurs key s -> occurs key (c :: s).
Proof. intros (b & r & ->). now exists (c :: b), r. Qed.

Lemma splitTitle_none s : ~ occurs titleKey s -> splitTitle s = (s, []).
Proof.
  induction s as [ | c s IH]; intros H; simpl; [reflexivity | ].
  assert (Hs : ~ occurs titleKey s) by (intros Ho; apply H; now apply occurs_cons).
  rewrite (IH Hs).
  destruct (startsWith titleKey s) eqn:E; [ | reflexivity].
  now apply startsWith_occurs in E.
Qed.

Lemma dropWhile_all p s : forallb p s = true -> dropWhile p s = [].
Proof.
  induction s as [ | c s IH]; simpl; [reflexivity | ].
  intros H. apply andb_true_iff in H as [-> H]. auto.
Qed.

Lemma trim_spaces s : forallb isSpace s = true -> trim s = [].
Proof. intros H. unfold trim, trimStart. now rewrite dropWhile_all. Qed.

Lemma dropWhile_last p l c : p c = false -> dropWhile p (l ++ [c]) <> [].
Proof.
  intros Hc. induction l as [ | x l IH]; simpl.
  - rewrite Hc. discriminate.
  - destruct (p x); [exact IH | discriminate].
Qed.

(** A text that starts with a visible character keeps it when trimmed. *)
Lemma trim_visible c s : isSpace c = false -> trim (c :: s) <> [].
Proof.
  intros Hc. unfold trim, trimStart, trimEnd. simpl. rewrite Hc. simpl.
  intros H. apply (f_equal (@rev N)) in H. rewrite rev_involutive in H.
  simpl in H. revert H. now apply dropWhile_last.
Qed.

(** *** One field *)

Lemma dropWhile_spaces space c v :
  forallb isSpace space = true -> isSpace c = false ->
  dropWhile isSpace (space ++ c :: v) = c :: v.
Proof.
  intros Hs Hc. induction space as [ | x space IH]; simpl.
  - now rewrite Hc.
  - simpl in Hs. apply andb_true_iff in Hs as [-> Hs]. auto.
Qed.

Lemma takeWhile_line value rest :
  forallb (fun c => negb (isLineTerminator c)) value = true ->
  (rest = [] \/ exists t r, rest = t :: r /\ isLineTerminator t = true) ->
  takeWhile (fun c => negb (isLineTerminator c)) (value ++ rest) = value.
Proof.
  intros Hv Hr. induction value as [ | c value IH]; simpl.
  - destruct Hr as [-> | (t & r & -> & Ht)]; simpl; [reflexivity | now rewrite Ht].
  - simpl in Hv. apply andb_true_iff in Hv as [-> Hv]. now rewrite IH.
Qed.

(** *** One block, one event *)

Lemma field_of_makeEvent entry name get :
  In (name, get) fieldsByName ->
  plainKey (name ++ str ":") = true /\ get (makeEvent entry) = extractField entry name.
Proof.
  unfold fieldsByName. simpl.
  intros [H | [H | [H | [H | [H | [H | []]]]]]]; inversion H; subst; split; reflexivity.
Qed.


(** A value left empty is taken from the next line. *)
Lemma empty_value_takes_next_line :
  map location (parseEventsFromContent emptyLocation) = [str "description: fun"].
Proof. vm_compute. reflexivity. Qed.

End ParserFacts.

(** ** More about the parser *)

Module ParserMore.
Import JS Patterns Samples Statements MoreStatements ParseEvents ParserFacts.

(** X1: a text without a complete block (an empty text, a text without
    markers, an opening marker that is never closed) gives no event, and the
    replacement returns a text unchanged exactly when it has no complete
    block. *)
Theorem no_block_no_event :
  forall content,
    (stripEventBlocks content = content <-> ~ HasBlock content)
    /\ (~ HasBlock content -> parseEventsFromContent content = []).
Proof.
  intros content. split.
  - rewrite stripEventBlocks_fixed, <- execBlock_HasBlock.
    destruct (execBlock content); split; try discriminate; try reflexivity.
    + intros H. exfalso. apply H. discriminate.
    + intros _ H. now apply H.
  - intros H. rewrite parseEventsFromContent_eq.
    destruct (execBlock content) eqn:E; [ | reflexivity].
    exfalso. apply H, execBlock_HasBlock. congruence.
Qed.

Lemma no_block_no_event_witness :
  stripEventBlocks (str "---EVENT--- title: open and never closed")
  = str "---EVENT--- title: open and never closed"
  /\ parseEventsFromContent (str "---EVENT--- title: open and never closed") = [].
Proof.
  assert (H : ~ HasBlock (str "---EVENT--- title: open and never closed")).
  { rewrite <- execBlock_HasBlock. intros H. now apply H. }
  destruct (no_block_no_event (str "---EVENT--- title: open and never closed"))
    as [H1 H2].
  split; [now apply H1 | now apply H2].
Defined.

(** X2: blocks are read in the order of the text. When the text before a
    block and the body of the block have no run of three dashes, the events
    of the block come first and the events of the rest of the text after them,
    and the replacement keeps the text before the block and goes on with the
    rest. *)
Theorem first_block_then_rest :
  forall pre o body c rest,
    isOpening o -> isClosing c ->
    ~ mentions dashes pre -> ~ mentions dashes body ->
    parseEventsFromContent (pre ++ o ++ body ++ c ++ rest)
    = parseBlock body ++ parseEventsFromContent rest
    /\ stripEventBlocks (pre ++ o ++ body ++ c ++ rest)
       = pre ++ stripEventBlocks rest.
Proof.
  intros pre o body c rest Ho Hc Hp Hb. split.
  - now rewrite parseEventsFromContent_eq, execBlock_exact.
  - now rewrite stripEventBlocks_eq, execBlock_exact.
Qed.

Lemma first_block_then_rest_witness :
  parseEventsFromContent
    (str "a " ++ str "---EVENT---" ++ partyEntry ++ str "---END-EVENTS---"
       ++ str " b " ++ titleLast)
  = parseBlock partyEntry ++ parseEventsFromContent (str " b " ++ titleLast)
  /\ stripEventBlocks
       (str "a " ++ str "---EVENT---" ++ partyEntry ++ str "---END-EVENTS---"
          ++ str " b " ++ titleLast)
     = str "a " ++ stripEventBlocks (str " b " ++ titleLast).
Proof.
  apply first_block_then_rest.
  - now left.
  - now right.
  - apply not_mentions. reflexivity.
  - apply not_mentions. reflexivity.
Defined.

Lemma occurs_head_or_tail key s :
  occurs key s -> startsWith key s = true \/ occurs key (tl s).
Proof.
  intros ([ | x b] & r & ->).
  - left. unfold startsWith. simpl. now rewrite lit_app.
  - right. simpl. now exists b, r.
Qed.

Lemma startsWith_app key s r :
  startsWith key s = true -> startsWith key (s ++ r) = true.
Proof.
  unfold startsWith. destruct (lit key s) as [t | ] eqn:E; [ | discriminate].
  intros _. apply lit_inv in E. subst. now rewrite <- app_assoc, lit_app.
Qed.

(** The first piece of a text that starts with [title:] starts with it. *)
Lemma splitTitle_keeps_key s :
  startsWith titleKey s = true -> startsWith titleKey (fst (splitTitle s)) = true.
Proof.
  unfold startsWith at 1. destruct (lit titleKey s) as [r | ] eqn:E; [ | discriminate].
  intros _. apply lit_inv in E. subst s.
  change (titleKey ++ r)
    with (116%N :: 105%N :: 116%N :: 108%N :: 101%N :: 58%N :: r).
  cbn [splitTitle].
  destruct (splitTitle r) as [cur more].
  destruct (startsWith titleKey r); reflexivity.
Qed.

Lemma splitTitle_pieces s :
  Forall (fun p => startsWith titleKey p = true) (snd (splitTitle s))
  /\ ~ occurs titleKey (tl (fst (splitTitle s)))
  /\ Forall (fun p => ~ occurs titleKey (tl p)) (snd (splitTitle s)).
Proof.
  induction s as [ | x s IH]; simpl.
  - repeat split; auto. intros (b & r & H). now destruct b.
  - pose proof (splitTitle_concat s) as Hc.
    pose proof (splitTitle_keeps_key s) as Hk.
    destruct (splitTitle s) as [cur more]. simpl in IH, Hc, Hk.
    destruct IH as (IH1 & IH2 & IH3).
    destruct (startsWith titleKey s) eqn:E; simpl.
    + repeat split.
      * constructor; [now apply Hk | exact IH1].
      * intros (b & r & H). now destruct b.
      * constructor; assumption.
    + repeat split; auto.
      intros Ho. apply occurs_head_or_tail in Ho as [Ho | Ho]; [ | contradiction].
      rewrite <- Hc in E. rewrite startsWith_app in E by exact Ho. discriminate.
Qed.

(** X3: cutting a block into entries loses no text; every entry after the
    first starts with [title:], and no entry has a [title:] past its
    start. *)
Theorem entries_partition_block :
  forall block,
    concat (splitEntries block) = block
    /\ Forall (fun entry => startsWith titleKey entry = true) (tl (splitEntries block))
    /\ Forall (fun entry => ~ occurs titleKey (tl entry)) (splitEntries block).
Proof.
  intros block. split; [apply splitEntries_concat | ].
  pose proof (splitTitle_pieces block) as (H1 & H2 & H3).
  unfold splitEntries. destruct (splitTitle block) as [h t]. simpl in *.
  split; [exact H1 | now constructor].
Qed.

(** *** Trimmed values *)

Lemma dropWhile_head p s c r : dropWhile p s = c :: r -> p c = false.
Proof.
  induction s as [ | x s IH]; simpl; [discriminate | ].
  destruct (p x) eqn:E; [exact IH | ]. intros H. inversion H; subst. exact E.
Qed.

Lemma dropWhile_suffix p s : exists w, s = w ++ dropWhile p s.
Proof.
  induction s as [ | x s (w & IH)]; simpl; [now exists [] | ].
  destruct (p x); [ | now exists []].
  exists (x :: w). simpl. now rewrite <- IH.
Qed.

Lemma dropWhile_keep p c r : p c = false -> dropWhile p (c :: r) = c :: r.
Proof. intros H. simpl. now rewrite H. Qed.

(** Trimming gives the empty string or a string with a visible character
    at each end. *)
Lemma trim_ends s :
  trim s = []
  \/ exists c u d, trim s = c :: u /\ isSpace c = false
                   /\ rev (trim s) = d :: rev (removelast (trim s)) /\ isSpace d = false.
Proof.
  unfold trim, trimEnd, trimStart.
  remember (dropWhile isSpace s) as s' eqn:Es.
  destruct (dropWhile isSpace (rev s')) as [ | d u] eqn:E; [now left | right].
  pose proof (dropWhile_head _ _ E) as Hd.
  destruct (dropWhile_suffix isSpace (rev s')) as (w & Hw). rewrite E in Hw.
  apply (f_equal (@rev N)) in Hw. rewrite rev_involutive, rev_app_distr in Hw.
  cbn [rev] in Hw |- *.
  destruct (rev u ++ [d]) as [ | c t] eqn:Et.
  { destruct (rev u); discriminate. }
  assert (Hc : isSpace c = false).
  { rewrite Hw in Es. simpl in Es. symmetry in Es. now apply dropWhile_head in Es. }
  exists c, t, d. repeat split; auto.
  rewrite <- Et, rev_app_distr, rev_involutive. simpl.
  now rewrite removelast_last, rev_involutive.
Qed.

Lemma trim_trim s : trim (trim s) = trim s.
Proof.
  destruct (trim_ends s) as [-> | (c & u & d & Ht & Hc & Hr & Hd)]; [reflexivity | ].
  unfold trim at 1. unfold trimStart, trimEnd.
  rewrite Ht at 1. rewrite dropWhile_keep by exact Hc. rewrite <- Ht, Hr.
  rewrite dropWhile_keep by exact Hd. rewrite <- Hr. apply rev_involutive.
Qed.

Lemma forallb_dropWhile q p s : forallb q s = true -> forallb q (dropWhile p s) = true.
Proof.
  induction s as [ | x s IH]; simpl; [reflexivity | ].
  intros H. destruct (p x); [apply andb_true_iff in H as [_ H]; auto | exact H].
Qed.

Lemma forallb_rev q (s : jsstring) : forallb q s = true -> forallb q (rev s) = true.
Proof.
  rewrite !forallb_forall. intros H x Hx. apply H. now apply in_rev.
Qed.

Lemma forallb_trim q s : forallb q s = true -> forallb q (trim s) = true.
Proof.
  intros H. unfold trim, trimEnd, trimStart.
  now apply forallb_rev, forallb_dropWhile, forallb_rev, forallb_dropWhile.
Qed.

Lemma forallb_takeWhile (q : N -> bool) s : forallb q (takeWhile q s) = true.
Proof.
  induction s as [ | x s IH]; simpl; [reflexivity | ].
  destruct (q x) eqn:E; simpl; [now rewrite E | reflexivity].
Qed.

Lemma extractField_tidy data field : tidy (extractField data field).
Proof.
  unfold extractField, tidy.
  destruct (searchCI (field ++ str ":") data) as [r | ]; [ | split; reflexivity].
  split; [apply trim_trim | apply forallb_trim, forallb_takeWhile].
Qed.

Lemma parseLoop_made n s :
  Forall (fun e => exists entry, e = makeEvent entry) (parseLoop n s).
Proof.
  revert s. induction n as [ | n IH]; intros s; simpl; [constructor | ].
  destruct (execBlock s) as [[[sk b] r] | ]; [ | constructor].
  apply Forall_app. split; [ | apply IH].
  apply Forall_forall. intros e H. unfold parseBlock in H.
  apply in_flat_map in H as (entry & _ & H). unfold pushEntry in H.
  destruct (truthy _ && truthy _ && truthy _); [ | destruct H].
  destruct H as [<- | []]. eauto.
Qed.

(** X4: every field of every event that the parser returns is trimmed (it
    has no white space at either end) and has no line end inside. *)
Theorem parsed_fields_are_tidy :
  forall content e,
    In e (parseEventsFromContent content) ->
    tidy (title e) /\ tidy (date e) /\ tidy (time e) /\ tidy (location e)
    /\ tidy (description e) /\ tidy (originalLink e).
Proof.
  intros content e H.
  pose proof (parseLoop_made (S (length content)) content) as Hm.
  rewrite Forall_forall in Hm. destruct (Hm e H) as (entry & ->).
  unfold makeEvent. simpl. repeat split; apply extractField_tidy.
Qed.

Lemma parsed_fields_are_tidy_witness :
  tidy (location (makeEvent partyEntry)).
Proof.
  apply (parsed_fields_are_tidy
           (str "Hi ---EVENT---" ++ partyEntry ++ str "---END-EVENT--- bye")
           (makeEvent partyEntry)).
  vm_compute. left. reflexivity.
Defined.

End ParserMore.

(** ** The parser, exactly *)

Module ParserExact.
Import JS Patterns Samples Statements ParseEvents ParserFacts ParserMore.

(** *** First occurrences *)

(** Of two ends of a text the shorter one is an end of the longer one. *)
Lemma suffix_by_length (a b r1 r2 : jsstring) :
  a ++ r1 = b ++ r2 -> length r2 <= length r1 -> exists mid, r1 = mid ++ r2.
Proof.
  revert b. induction a as [ | x a IH]; intros b E Hl.
  - simpl in E. now exists b.
  - destruct b as [ | y b].
    + simpl in E. subst r2. simpl in Hl. rewrite length_app in Hl. lia.
    + inversion E. eauto.
Qed.

Lemma firstAt_tail isM x pre rest :
  firstAt isM (x :: pre) rest -> firstAt isM pre rest.
Proof.
  intros H a m r Hm E.
  specialize (H (x :: a) m r Hm). simpl in H. rewrite E in H.
  specialize (H eq_refl). lia.
Qed.

Lemma firstAt_not_head isM x pre rest m r :
  firstAt isM (x :: pre) rest -> isM m -> (x :: pre) ++ rest <> m ++ r.
Proof.
  intros H Hm E. specialize (H [] m r Hm E). simpl in H. lia.
Qed.

Lemma lazyBody_first body c rest :
  isClosing c -> firstAt isClosing body (c ++ rest) ->
  lazyBody (body ++ c ++ rest) = Some (body, rest).
Proof.
  intros Hc Hf. induction body as [ | x body IH]; rewrite lazyBody_eq.
  - simpl. now rewrite (matchMarker_at_closing _ Hc).
  - destruct (matchMarker END_EVENT ((x :: body) ++ c ++ rest)) as [r | ] eqn:E.
    + exfalso. apply matchMarker_closing in E as (c' & Hc' & E).
      eapply firstAt_not_head; [exact Hf | exact Hc' | exact E].
    + simpl. rewrite IH; [reflexivity | eapply firstAt_tail; exact Hf].
Qed.

(** A block that begins at the first opening marker and ends with the first
    closing marker after it is the match of the block pattern. *)
Lemma execBlock_first pre o body c rest :
  isOpening o -> isClosing c ->
  firstAt isOpening pre (o ++ body ++ c ++ rest) ->
  firstAt isClosing body (c ++ rest) ->
  execBlock (pre ++ o ++ body ++ c ++ rest) = Some (pre, body, rest).
Proof.
  intros Ho Hc Hp Hb. induction pre as [ | x pre IH]; rewrite execBlock_eq.
  - simpl. unfold matchBlock. rewrite (matchMarker_at_opening _ Ho).
    now rewrite lazyBody_first.
  - assert (E : matchBlock ((x :: pre) ++ o ++ body ++ c ++ rest) = None).
    { unfold matchBlock.
      destruct (matchMarker EVENT ((x :: pre) ++ o ++ body ++ c ++ rest)) as [r | ] eqn:E;
        [ | reflexivity].
      exfalso. apply matchMarker_opening in E as (o' & Ho' & E).
      eapply firstAt_not_head; [exact Hp | exact Ho' | exact E]. }
    rewrite E. simpl. rewrite IH; [reflexivity | eapply firstAt_tail; exact Hp].
Qed.

Lemma lazyBody_is_first s body rest :
  lazyBody s = Some (body, rest) ->
  exists tail, s = body ++ tail /\ firstAt isClosing body tail.
Proof.
  revert body. induction s as [ | x s IH]; intros body; rewrite lazyBody_eq.
  - destruct (matchMarker END_EVENT []); [ | discriminate].
    intros H. inversion H; subst. exists []. split; [reflexivity | ].
    intros a m r _ _. simpl. lia.
  - destruct (matchMarker END_EVENT (x :: s)) as [r | ] eqn:E.
    + intros H. inversion H; subst. exists (x :: s). split; [reflexivity | ].
      intros a m r' _ _. simpl. lia.
    + destruct (lazyBody s) as [[b r] | ]; [ | discriminate].
      intros H. inversion H; subst.
      destruct (IH b eq_refl) as (tail & -> & Hf).
      exists tail. split; [reflexivity | ].
      intros [ | y a] m r' Hm Em.
      * exfalso. simpl in Em. rewrite Em in E.
        now rewrite (matchMarker_at_closing _ Hm) in E.
      * simpl in Em. inversion Em as [[Ey Ea]].
        specialize (Hf a m r' Hm Ea). simpl. lia.
Qed.

Lemma opening_short o : isOpening o -> length o <= 12.
Proof. intros [-> | ->]; simpl; lia. Qed.

(** The match of the block pattern begins at the first opening marker. *)
Lemma execBlock_is_first s skipped body rest :
  execBlock s = Some (skipped, body, rest) ->
  exists tail, s = skipped ++ tail /\ firstAt isOpening skipped tail.
Proof.
  revert skipped. induction s as [ | x s IH]; intros skipped; rewrite execBlock_eq.
  - destruct (matchBlock []) as [[b r] | ]; [ | discriminate].
    intros H. inversion H; subst. exists []. split; [reflexivity | ].
    intros a m r' _ _. simpl. lia.
  - destruct (matchBlock (x :: s)) as [[b r] | ] eqn:E.
    + intros H. inversion H; subst. exists (x :: s). split; [reflexivity | ].
      intros a m r' _ _. simpl. lia.
    + destruct (execBlock s) as [[[sk b] r] | ] eqn:Es; [ | discriminate].
      intros H. inversion H; subst.
      destruct (IH sk eq_refl) as (tail & Et & Hf).
      exists tail. split; [now rewrite Et | ].
      intros [ | y a] m r' Hm Em.
      * exfalso. simpl in Em.
        apply execBlock_inv in Es as (o & c & Ho & Hc & Hs).
        assert (Ex : x :: s = m ++ r') by (rewrite Et; exact Em).
        unfold matchBlock in E. rewrite Ex, (matchMarker_at_opening _ Hm) in E.
        (* the closing marker of the block found later lies in [r'] *)
        assert (Hlen : length (c ++ rest) <= length r').
        { apply (f_equal (@length N)) in Ex. rewrite Hs in Ex.
          simpl in Ex. rewrite !length_app in Ex. rewrite length_app.
          pose proof (opening_length Ho). pose proof (opening_short Hm). lia. }
        assert (Hsuf : exists mid, r' = mid ++ c ++ rest).
        { apply (@suffix_by_length m (x :: sk ++ o ++ body) r' (c ++ rest)); [ | exact Hlen].
          rewrite <- Ex, Hs. simpl. now rewrite <- !app_assoc. }
        destruct Hsuf as (mid & ->).
        destruct (lazyBody (mid ++ c ++ rest)) as [[b' r''] | ] eqn:El; [discriminate | ].
        now apply lazyBody_finds in El.
      * simpl in Em. inversion Em as [[Ey Ea]].
        assert (Ea' : sk ++ tail = a ++ m ++ r')
          by (first [exact Ea | rewrite <- Et; exact Ea]).
        specialize (Hf a m r' Hm Ea'). simpl. lia.
Qed.

(** What the block pattern matches, in full. *)
Lemma execBlock_exactly s skipped body rest :
  execBlock s = Some (skipped, body, rest) ->
  exists o c,
    isOpening o /\ isClosing c /\ s = skipped ++ o ++ body ++ c ++ rest
    /\ firstAt isOpening skipped (o ++ body ++ c ++ rest)
    /\ firstAt isClosing body (c ++ rest).
Proof.
  intros E. destruct (execBlock_is_first _ E) as (tail & Et & Hf).
  pose proof E as E'. apply execBlock_inv in E' as (o & c & Ho & Hc & Hs).
  exists o, c. repeat split; auto.
  - rewrite Hs in Et. apply app_inv_head in Et. now rewrite Et.
  - rewrite Hs in E.
    assert (Hfo : firstAt isOpening skipped (o ++ body ++ c ++ rest)).
    { rewrite Hs in Et. apply app_inv_head in Et. now rewrite Et. }
    clear Et Hf Hs. induction skipped as [ | x sk IH].
    + simpl in E. rewrite execBlock_eq in E. unfold matchBlock in E.
      rewrite (matchMarker_at_opening _ Ho) in E.
      destruct (lazyBody (body ++ c ++ rest)) as [[b r] | ] eqn:El; [ | ].
      * inversion E; subst.
        destruct (lazyBody_is_first _ El) as (tail' & Et' & Hf').
        apply app_inv_head in Et'. now rewrite Et'.
      * destruct (o ++ body ++ c ++ rest) as [ | y t]; [discriminate | ].
        destruct (execBlock t) as [[[? ?] ?] | ]; discriminate.
    + apply IH; [ | eapply firstAt_tail; exact Hfo].
      rewrite execBlock_eq in E.
      destruct (matchBlock ((x :: sk) ++ o ++ body ++ c ++ rest)) as [[b r] | ];
        [discriminate | ].
      simpl in E.
      destruct (execBlock (sk ++ o ++ body ++ c ++ rest)) as [[[sk' b] r] | ];
        [ | discriminate].
      inversion E; subst. reflexivity.
Qed.

Lemma firstAt_opening_by_exec pre tail body rest :
  execBlock (pre ++ tail) = Some (pre, body, rest) -> firstAt isOpening pre tail.
Proof.
  intros E. destruct (execBlock_is_first _ E) as (tail' & Et & Hf).
  apply app_inv_head in Et. now rewrite Et.
Qed.

Lemma firstAt_closing_by_lazy body tail rest :
  lazyBody (body ++ tail) = Some (body, rest) -> firstAt isClosing body tail.
Proof.
  intros E. destruct (lazyBody_is_first _ E) as (tail' & Et & Hf).
  apply app_inv_head in Et. now rewrite Et.
Qed.

(** *** The scan *)

Lemma not_HasBlock_exec s : ~ HasBlock s -> execBlock s = None.
Proof.
  intros H. destruct (execBlock s) eqn:E; [ | reflexivity].
  exfalso. apply H, execBlock_HasBlock. congruence.
Qed.

(** Every text has a scan. *)
Lemma Scan_exists content : exists blocks last, Scan content blocks last.
Proof.
  assert (H : forall n s, length s <= n -> exists blocks last, Scan s blocks last).
  { induction n as [ | n IH]; intros s Hle;
      destruct (execBlock s) as [[[sk b] r] | ] eqn:E.
    - apply execBlock_shorter in E. lia.
    - exists [], s. constructor. rewrite <- execBlock_HasBlock. congruence.
    - pose proof (execBlock_shorter _ E) as Hr.
      destruct (execBlock_exactly _ E) as (o & c & Ho & Hc & -> & Hfo & Hfc).
      destruct (IH r ltac:(lia)) as (blocks & last & Hs).
      exists ({| gap := sk; opening := o; inner := b; closing := c |} :: blocks), last.
      apply Scan_block; assumption.
    - exists [], s. constructor. rewrite <- execBlock_HasBlock. congruence. }
  now apply (H (length content)).
Qed.

(** The scan is what the parser reads and what the replacement removes. *)
Lemma Scan_sound content blocks last :
  Scan content blocks last ->
  content = flat_map spanText blocks ++ last
  /\ stripEventBlocks content = flat_map gap blocks ++ last
  /\ parseEventsFromContent content = flat_map (fun b => parseBlock (inner b)) blocks.
Proof.
  induction 1 as [s Hs | g o b c rest blocks last Ho Hc Hfo Hfc _ (IH1 & IH2 & IH3)].
  - apply not_HasBlock_exec in Hs.
    rewrite stripEventBlocks_eq, parseEventsFromContent_eq, Hs. auto.
  - rewrite stripEventBlocks_eq, parseEventsFromContent_eq.
    rewrite execBlock_first by assumption.
    cbn [flat_map gap inner]. unfold spanText at 1. cbn [gap opening inner closing].
    rewrite IH2, IH3. repeat split.
    + rewrite IH1 at 1. now rewrite <- !app_assoc.
    + now rewrite <- app_assoc.
Qed.

(** C7, amended: scanning a text from left to right, each block beginning
    at the first opening marker of what is left and ending with the first
    closing marker after it, gives the blocks that the parser reads; the
    replacement removes exactly these blocks, markers and contents, and keeps
    the text before, between and after them unchanged and in order; and a
    second replacement changes nothing exactly when the first result contains
    no complete block. *)
Theorem strip_removes_scanned_blocks :
  forall content,
    (exists blocks last, Scan content blocks last)
    /\ (forall blocks last,
           Scan content blocks last ->
           content = flat_map spanText blocks ++ last
           /\ stripEventBlocks content = flat_map gap blocks ++ last
           /\ parseEventsFromContent content
              = flat_map (fun b => parseBlock (inner b)) blocks)
    /\ (stripEventBlocks (stripEventBlocks content) = stripEventBlocks content
        <-> ~ HasBlock (stripEventBlocks content)).
Proof.
  intros content. split; [apply Scan_exists | ]. split; [apply Scan_sound | ].
  rewrite stripEventBlocks_fixed, <- execBlock_HasBlock.
  destruct (execBlock (stripEventBlocks content)); split.
  - discriminate.
  - intros H. exfalso. apply H. discriminate.
  - intros _ H. now apply H.
  - reflexivity.
Qed.

Lemma strip_removes_scanned_blocks_witness :
  stripEventBlocks looseText
  = (str "Intro" ++ [10%N] ++ str "---" ++ [10%N]) ++ str " bye".
Proof.
  destruct (strip_removes_scanned_blocks looseText) as (_ & H & _).
  destruct (H [ {| gap := str "Intro" ++ [10%N] ++ str "---" ++ [10%N];
                   opening := str "---EVENTS---";
                   inner := looseLead ++ looseEntry;
                   closing := str "---END-EVENT---" |} ] (str " bye"))
    as (_ & Hs & _); [ | exact Hs].
  apply (@Scan_block (str "Intro" ++ [10%N] ++ str "---" ++ [10%N])
           (str "---EVENTS---") (looseLead ++ looseEntry) (str "---END-EVENT---")
           (str " bye") [] (str " bye")).
  - now right.
  - now left.
  - apply (@firstAt_opening_by_exec _ _ (looseLead ++ looseEntry) (str " bye")).
    vm_compute. reflexivity.
  - apply (@firstAt_closing_by_lazy _ _ (str " bye")). vm_compute. reflexivity.
  - apply Scan_done. rewrite <- execBlock_HasBlock. intros Hn. now apply Hn.
Defined.

(** *** Fields that are followed by something *)

Lemma spelled_length key k : spelled key k -> length k = length key.
Proof.
  unfold spelled, toUpperCase. intros H.
  apply (f_equal (@length N)) in H. now rewrite !length_map in H.
Qed.

(** The leftmost match of a key, exactly. *)
Lemma searchCI_exactly key s r :
  searchCI key s = Some r ->
  exists before k,
    s = before ++ k ++ r /\ spelled key k /\ firstAt (spelled key) before (k ++ r).
Proof.
  induction s as [ | x s IH]; cbn [searchCI]; intros H.
  - destruct (litCI key []) eqn:E; [ | discriminate]. inversion H; subst.
    apply litCI_inv in E as (k & Hk & Hs).
    exists [], k. repeat apply conj; [exact Hk | exact Hs | ].
    intros a m r0 _ _. cbn. lia.
  - destruct (litCI key (x :: s)) eqn:E.
    + inversion H; subst. apply litCI_inv in E as (k & Hk & Hs).
      exists [], k. repeat apply conj; [exact Hk | exact Hs | ].
      intros a m r0 _ _. cbn. lia.
    + destruct (IH H) as (before & k & -> & Hs & Hf).
      exists (x :: before), k. repeat apply conj; [reflexivity | exact Hs | ].
      intros a m r0 Hm Ha. destruct a as [ | y a].
      * exfalso. cbn [app] in Ha. rewrite Ha in E.
        rewrite (@litCI_app key m r0 Hm) in E. discriminate.
      * cbn [app] in Ha. inversion Ha; subst.
        cbn [length]. apply le_n_S. now apply (Hf a m r0).
Qed.

Lemma searchCI_at_first key before k r :
  spelled key k -> firstAt (spelled key) before (k ++ r) ->
  searchCI key (before ++ k ++ r) = Some r.
Proof.
  intros Hk. induction before as [ | x before IH]; intros Hf.
  - cbn [app]. apply searchCI_head. now apply litCI_app.
  - cbn [app searchCI].
    destruct (litCI key (x :: before ++ k ++ r)) as [l | ] eqn:E.
    + exfalso. apply litCI_inv in E as (k' & Hk' & Hs').
      now apply (@firstAt_not_head (spelled key) x before (k ++ r) k' l Hf Hs').
    + apply IH. now apply firstAt_tail with x.
Qed.

Lemma visible_dropWhile s : existsb visible s = true <-> dropWhile isSpace s <> [].
Proof.
  induction s as [ | c s IH]; cbn [existsb dropWhile].
  - split; [discriminate | intros H; now contradiction H].
  - unfold visible at 1. destruct (isSpace c); cbn [negb orb].
    + exact IH.
    + split; [discriminate | reflexivity].
Qed.

Lemma lineTerminator_space c : isLineTerminator c = true -> isSpace c = true.
Proof. unfold isSpace. intros ->. apply orb_true_r. Qed.

(** The value a field gets is not empty exactly when something visible
    follows the leftmost occurrence of its key. *)
Lemma value_visible r :
  trim (takeWhile (fun c => negb (isLineTerminator c)) (dropWhile isSpace r)) <> []
  <-> existsb visible r = true.
Proof.
  rewrite visible_dropWhile. split.
  - intros H E. rewrite E in H. now apply H.
  - intros H. destruct (dropWhile isSpace r) as [ | c t] eqn:E; [now contradiction H | ].
    pose proof (dropWhile_head _ _ E) as Hc.
    cbn [takeWhile].
    destruct (isLineTerminator c) eqn:El.
    + apply lineTerminator_space in El. congruence.
    + cbn [negb]. now apply trim_visible.
Qed.

Lemma extractField_followed s name : extractField s name <> [] <-> followed name s.
Proof.
  unfold extractField. split.
  - destruct (searchCI (name ++ str ":") s) as [r | ] eqn:E;
      [ | intros H; now contradiction H].
    intros H. apply value_visible in H.
    destruct (searchCI_exactly _ _ E) as (before & k & Hs & Hk & _).
    now exists before, k, r.
  - intros (before & key & rest & Hs & Hk & Hv).
    destruct (searchCI (name ++ str ":") s) as [r | ] eqn:E.
    + apply value_visible.
      destruct (searchCI_exactly _ _ E) as (b0 & k0 & Hs0 & Hk0 & Hf).
      pose proof (Hf before key rest Hk) as Hle.
      rewrite <- Hs0 in Hle. specialize (Hle Hs).
      assert (Hr : exists mid, r = mid ++ rest).
      { apply (@suffix_by_length (b0 ++ k0) (before ++ key)).
        - rewrite <- !app_assoc. now rewrite <- Hs0.
        - apply (f_equal (@length N)) in Hs0. rewrite Hs in Hs0.
          rewrite !length_app in Hs0.
          rewrite (spelled_length Hk), (spelled_length Hk0) in Hs0. lia. }
      destruct Hr as (mid & ->). rewrite existsb_app, Hv. apply orb_true_r.
    + exfalso. apply (@not_mentions (name ++ str ":") s E). now exists before, key, rest.
Qed.

Lemma not_followed s name : ~ followed name s -> extractField s name = [].
Proof.
  intros H. destruct (extractField s name) eqn:E; [reflexivity | ].
  exfalso. apply H, extractField_followed. rewrite E. discriminate.
Qed.

Lemma followed_infix name a s b : followed name s -> followed name (a ++ s ++ b).
Proof.
  intros (before & key & rest & -> & Hk & Hv).
  exists (a ++ before), key, (rest ++ b). repeat apply conj.
  - now rewrite <- !app_assoc.
  - exact Hk.
  - rewrite existsb_app, Hv. reflexivity.
Qed.

Lemma followed_visible name s : followed name s -> trim s <> [].
Proof.
  intros (before & key & rest & -> & _ & Hv).
  assert (H : existsb visible (before ++ key ++ rest) = true).
  { rewrite !existsb_app, Hv. now rewrite !orb_true_r. }
  apply visible_dropWhile in H. unfold trim, trimStart.
  destruct (dropWhile isSpace (before ++ key ++ rest)) as [ | c t] eqn:E;
    [now contradiction H | ].
  pose proof (dropWhile_head _ _ E) as Hc.
  pose proof (@trim_visible c t Hc) as Ht. unfold trim, trimStart in Ht.
  now rewrite (@dropWhile_keep isSpace c t Hc) in Ht.
Qed.

(** An entry becomes a record exactly when it is complete. *)
Lemma pushEntry_complete entry : complete entry -> pushEntry entry = [makeEvent entry].
Proof.
  intros (Ht & Hd & Hm). apply extractField_followed in Ht, Hd, Hm.
  unfold pushEntry. cbn [makeEvent title date time].
  destruct (extractField entry (str "title")); [now contradiction Ht | ].
  destruct (extractField entry (str "date")); [now contradiction Hd | ].
  destruct (extractField entry (str "time")); [now contradiction Hm | ].
  reflexivity.
Qed.

Lemma pushEntry_incomplete entry : ~ complete entry -> pushEntry entry = [].
Proof.
  intros H. apply pushEntry_empty. cbn [makeEvent title date time].
  destruct (extractField entry (str "title")) eqn:Et; [now left | ].
  destruct (extractField entry (str "date")) eqn:Ed; [right; now left | ].
  destruct (extractField entry (str "time")) eqn:Em; [right; now right | ].
  exfalso. apply H. repeat split; apply extractField_followed; congruence.
Qed.

Lemma pushEntry_iff entry : pushEntry entry <> [] <-> complete entry.
Proof.
  split.
  - intros H. unfold pushEntry in H. cbn [makeEvent title date time] in H.
    destruct (extractField entry (str "title")) eqn:Et; [now contradiction H | ].
    destruct (extractField entry (str "date")) eqn:Ed; [now contradiction H | ].
    destruct (extractField entry (str "time")) eqn:Em; [now contradiction H | ].
    repeat split; apply extractField_followed; congruence.
  - intros H. rewrite (pushEntry_complete H). discriminate.
Qed.

(** *** Which blocks give records *)

Lemma parseBlock_nil block :
  parseBlock block = []
  <-> (forall entry, In entry (splitEntries block) -> ~ complete entry).
Proof.
  unfold parseBlock. split.
  - intros H entry Hin Hc.
    assert (Hf : In entry (filter (fun e => truthy (trim e)) (splitEntries block))).
    { apply filter_In. split; [exact Hin | ].
      apply truthy_nonempty. destruct Hc as (Ht & _). now apply followed_visible with (str "title"). }
    apply in_split in Hf as (l1 & l2 & Hl). rewrite Hl in H.
    rewrite flat_map_app in H. cbn [flat_map] in H.
    rewrite (pushEntry_complete Hc) in H.
    now destruct (flat_map pushEntry l1).
  - intros H. apply flat_map_nil. intros e He. apply filter_In in He as (He & _).
    apply pushEntry_incomplete. now apply H.
Qed.

Lemma block_not_followed name block entry :
  ~ followed name block -> In entry (splitEntries block) -> ~ followed name entry.
Proof.
  intros H Hin Hf. apply entry_infix in Hin as (a & b & ->).
  now apply H, followed_infix.
Qed.

Lemma block_without_field block :
  ~ followed (str "title") block \/ ~ followed (str "date") block
  \/ ~ followed (str "time") block ->
  parseBlock block = [].
Proof.
  intros H. apply parseBlock_nil. intros entry Hin (Ht & Hd & Hm).
  destruct H as [H | [H | H]]; now apply (block_not_followed H Hin).
Qed.




(** *** The one record of a block *)

(** Entries that are blank push nothing, so the filter does not show. *)
Lemma parseBlock_all block : parseBlock block = flat_map pushEntry (splitEntries block).
Proof.
  unfold parseBlock. induction (splitEntries block) as [ | x l IH]; [reflexivity | ].
  cbn [filter flat_map]. destruct (truthy (trim x)) eqn:E.
  - cbn [flat_map]. now rewrite IH.
  - rewrite IH. rewrite pushEntry_incomplete; [reflexivity | ].
    intros (Ht & _). apply followed_visible in Ht.
    apply truthy_nonempty in Ht. congruence.
Qed.

Lemma pushEntry_cases entry :
  (complete entry /\ pushEntry entry = [makeEvent entry])
  \/ (~ complete entry /\ pushEntry entry = []).
Proof.
  destruct (pushEntry entry) eqn:E.
  - right. split; [ | reflexivity]. intros H. apply pushEntry_iff in H. now apply H.
  - left. assert (H : complete entry) by (apply pushEntry_iff; congruence).
    split; [exact H | ]. rewrite <- E. now apply pushEntry_complete.
Qed.

Lemma one_pushed l e :
  flat_map pushEntry l = [e] <->
  exists before entry after,
    l = before ++ entry :: after /\ complete entry
    /\ (forall x, In x (before ++ after) -> ~ complete x)
    /\ e = makeEvent entry.
Proof.
  split.
  - induction l as [ | x l IH]; cbn [flat_map]; [discriminate | ].
    destruct (pushEntry_cases x) as [(Hc & ->) | (Hc & ->)]; cbn [app]; intros H.
    + inversion H as [[He Hl]]. exists [], x, l.
      split; [reflexivity | ]. split; [exact Hc | ]. split; [ | reflexivity].
      cbn [app]. intros y Hy Hcy.
      apply in_split in Hy as (l1 & l2 & ->).
      rewrite flat_map_app in Hl. cbn [flat_map] in Hl.
      rewrite (pushEntry_complete Hcy) in Hl.
      now destruct (flat_map pushEntry l1).
    + destruct (IH H) as (before & entry & after & -> & Hce & Hn & He).
      exists (x :: before), entry, after.
      split; [reflexivity | ]. split; [exact Hce | ]. split; [ | exact He].
      intros y [<- | Hy]; [exact Hc | now apply Hn].
  - intros (before & entry & after & -> & Hc & Hn & ->).
    rewrite flat_map_app. cbn [flat_map].
    rewrite (pushEntry_complete Hc).
    rewrite !flat_map_nil; [reflexivity | | ];
      intros x Hx; apply pushEntry_incomplete, Hn, in_or_app; auto.
Qed.

Lemma takeWhile_dropWhile p s : takeWhile p s ++ dropWhile p s = s.
Proof.
  induction s as [ | c s IH]; [reflexivity | ]. cbn [takeWhile dropWhile].
  destruct (p c); [ | reflexivity]. cbn [app]. now rewrite IH.
Qed.

(** What follows the leftmost key of a followed field has a visible character. *)
Lemma followed_search name s :
  followed name s ->
  exists r, searchCI (name ++ str ":") s = Some r /\ existsb visible r = true.
Proof.
  intros H. apply extractField_followed in H. unfold extractField in H.
  destruct (searchCI (name ++ str ":") s) as [r | ]; [ | now contradiction H].
  exists r. split; [reflexivity | ]. now apply value_visible.
Qed.

Lemma FieldValue_exists entry name :
  followed name entry -> exists value, FieldValue entry name value.
Proof.
  intros H. destruct (followed_search H) as (r & E & Hv).
  destruct (searchCI_exactly _ _ E) as (before & k & Hs & Hk & Hf).
  apply visible_dropWhile in Hv.
  destruct (dropWhile isSpace r) as [ | c t] eqn:Ed; [now contradiction Hv | ].
  pose proof (dropWhile_head _ _ Ed) as Hc.
  set (line := fun x : N => negb (isLineTerminator x)).
  assert (Hl : line c = true).
  { unfold line. destruct (isLineTerminator c) eqn:El; [ | reflexivity].
    apply lineTerminator_space in El. congruence. }
  exists (c :: takeWhile line t).
  apply (@field_value entry name (c :: takeWhile line t) before k
           (takeWhile isSpace r) (dropWhile line t)).
  - rewrite Hs. do 2 f_equal. change (c :: takeWhile line t) with ([c] ++ takeWhile line t).
    rewrite <- (app_assoc [c]), takeWhile_dropWhile. cbn [app].
    rewrite <- Ed. symmetry. apply takeWhile_dropWhile.
  - exact Hk.
  - replace (takeWhile isSpace r ++ (c :: takeWhile line t) ++ dropWhile line t) with r;
      [exact Hf | ].
    change (c :: takeWhile line t) with ([c] ++ takeWhile line t).
    rewrite <- (app_assoc [c]), takeWhile_dropWhile. cbn [app].
    rewrite <- Ed. symmetry. apply takeWhile_dropWhile.
  - apply forallb_takeWhile.
  - now exists c, (takeWhile line t).
  - cbn [forallb]. fold (line c). rewrite Hl. apply forallb_takeWhile.
  - destruct (dropWhile line t) as [ | u w] eqn:Eu; [now left | right].
    exists u, w. split; [reflexivity | ].
    pose proof (dropWhile_head _ _ Eu) as Hu. unfold line in Hu.
    now destruct (isLineTerminator u).
Qed.

Lemma FieldValue_extract entry name value :
  FieldValue entry name value -> extractField entry name = trim value.
Proof.
  intros [before key space rest -> Hk Hf Hsp (c & v & -> & Hc) Hline Hrest].
  unfold extractField. rewrite searchCI_at_first by assumption.
  cbn [app]. rewrite dropWhile_spaces by assumption.
  change (c :: v ++ rest) with ((c :: v) ++ rest).
  now rewrite takeWhile_line by assumption.
Qed.

Lemma makeEvent_fields entry name get :
  In (name, get) fieldsByName ->
  (forall value, FieldValue entry name value -> get (makeEvent entry) = trim value)
  /\ (followed name entry -> exists value, FieldValue entry name value)
  /\ (~ followed name entry -> get (makeEvent entry) = []).
Proof.
  intros Hin. destruct (@field_of_makeEvent entry name get Hin) as (_ & ->).
  repeat apply conj.
  - apply FieldValue_extract.
  - apply FieldValue_exists.
  - apply not_followed.
Qed.

Lemma fields_determine e entry :
  (forall name get, In (name, get) fieldsByName -> get e = get (makeEvent entry)) ->
  e = makeEvent entry.
Proof.
  intros H. destruct e as [t d tm l ds ol].
  pose proof (H (str "title") title) as H1.
  pose proof (H (str "date") date) as H2.
  pose proof (H (str "time") time) as H3.
  pose proof (H (str "location") location) as H4.
  pose proof (H (str "description") description) as H5.
  pose proof (H (str "originalLink") originalLink) as H6.
  unfold fieldsByName in H1, H2, H3, H4, H5, H6.
  cbn [In title date time location description originalLink makeEvent] in H1, H2, H3, H4, H5, H6.
  unfold makeEvent.
  rewrite <- H1, <- H2, <- H3, <- H4, <- H5, <- H6; [reflexivity | | | | | | ]; tauto.
Qed.

Lemma parse_one_block content b last :
  Scan content [b] last ->
  parseEventsFromContent content = flat_map pushEntry (splitEntries (inner b)).
Proof.
  intros H. apply Scan_sound in H as (_ & _ & ->).
  cbn [flat_map]. now rewrite app_nil_r, parseBlock_all.
Qed.


Lemma looseText_scan :
  Scan looseText
    [ {| gap := str "Intro" ++ [10%N] ++ str "---" ++ [10%N];
         opening := str "---EVENTS---";
         inner := looseLead ++ looseEntry;
         closing := str "---END-EVENT---" |} ] (str " bye").
Proof.
  apply (@Scan_block (str "Intro" ++ [10%N] ++ str "---" ++ [10%N])
           (str "---EVENTS---") (looseLead ++ looseEntry) (str "---END-EVENT---")
           (str " bye") [] (str " bye")).
  - now right.
  - now left.
  - apply (@firstAt_opening_by_exec _ _ (looseLead ++ looseEntry) (str " bye")).
    vm_compute. reflexivity.
  - apply (@firstAt_closing_by_lazy _ _ (str " bye")). vm_compute. reflexivity.
  - apply Scan_done. rewrite <- execBlock_HasBlock. intros Hn. now apply Hn.
Defined.


End ParserExact.

(** ** More about the components *)

Module DispatchMore.
Import JS Patterns Fetch Samples Statements MoreStatements Storage DispatchFacts.

Local Open Scope N_scope.

(** *** The address check *)

Lemma truthy_nonempty_N (s : jsstring) : truthy s = true -> s <> [].
Proof. destruct s; [discriminate | discriminate]. Qed.

Lemma dotSuffix_cons c b :
  dotSuffix (c :: b) = (c =? 46) && (truthy b && forallb emailChar b).
Proof.
  destruct (N.eqb_spec c 46) as [-> | Hc]; [reflexivity | ].
  unfold dotSuffix. destruct c as [ | p]; [reflexivity | ].
  do 7 (try destruct p as [p | p | ]); try reflexivity. congruence.
Qed.

Lemma testEmail_cons c r :
  testEmail (c :: r)
  = emailChar c
    && (match r with
        | [] => false
        | x :: d => (x =? 64) && emailDomain d
        end || testEmail r).
Proof.
  cbn [testEmail]. f_equal. f_equal.
  destruct r as [ | x d]; [reflexivity | ].
  destruct (N.eqb_spec x 64) as [-> | Hx]; [reflexivity | ].
  destruct x as [ | p]; [reflexivity | ].
  do 8 (try destruct p as [p | p | ]); try reflexivity. congruence.
Qed.

Lemma emailDomain_cons c r :
  emailDomain (c :: r) = emailChar c && (dotSuffix r || emailDomain r).
Proof. reflexivity. Qed.

Lemma emailDomain_shape s :
  emailDomain s = true <->
  exists d1 d2, s = d1 ++ str "." ++ d2 /\ d1 <> [] /\ d2 <> []
                /\ forallb emailChar d1 = true /\ forallb emailChar d2 = true.
Proof.
  split.
  - induction s as [ | c r IH]; [discriminate | ].
    cbn [emailDomain]. intros H. apply andb_true_iff in H as [Hc H].
    apply orb_true_iff in H as [H | H].
    + destruct r as [ | x b]; [discriminate | ].
      rewrite dotSuffix_cons in H. apply andb_true_iff in H as [Hx H].
      apply andb_true_iff in H as [Hb1 Hb2]. apply N.eqb_eq in Hx. subst x.
      exists [c], b. simpl. rewrite Hc. repeat split; auto; try discriminate.
      now apply truthy_nonempty_N.
    + destruct (IH H) as (d1 & d2 & -> & H1 & H2 & H3 & H4).
      exists (c :: d1), d2. simpl. rewrite Hc, H3. repeat split; auto. discriminate.
  - intros (d1 & d2 & -> & H1 & H2 & H3 & H4).
    induction d1 as [ | c d1 IH]; [contradiction | ].
    simpl in H3. apply andb_true_iff in H3 as [Hc H3].
    rewrite <- app_comm_cons, emailDomain_cons, Hc, andb_true_l.
    destruct d1 as [ | y d1].
    + change (dotSuffix (46 :: d2) || emailDomain (46 :: d2) = true).
      rewrite dotSuffix_cons, H4. destruct d2; [contradiction | reflexivity].
    + rewrite IH; auto; [apply orb_true_r | discriminate].
Qed.

(** X5: the address check accepts exactly the strings made of a local
    part, an at sign and a domain with a dot that has text on both sides, none
    of the three containing white space or an at sign. *)
Theorem validateEmail_shape :
  forall value,
    (CalendarButton.validateEmail value = true <-> emailShape value)
    /\ (CalendarEventRenderer.validateEmail value = true <-> emailShape value).
Proof.
  assert (H : forall value, testEmail value = true <-> emailShape value).
  { intros s. split.
    - induction s as [ | c r IH]; [discriminate | ].
      rewrite testEmail_cons. intros H. apply andb_true_iff in H as [Hc H].
      apply orb_true_iff in H as [H | H].
      + destruct r as [ | x d]; [discriminate | ].
        apply andb_true_iff in H as [Hx H]. apply N.eqb_eq in Hx. subst x.
        apply emailDomain_shape in H as (d1 & d2 & -> & H1 & H2 & H3 & H4).
        exists [c], d1, d2. simpl. rewrite Hc. repeat split; auto. discriminate.
      + destruct (IH H) as (l & d1 & d2 & -> & H0 & H1 & H2 & H3 & H4 & H5).
        exists (c :: l), d1, d2. simpl. rewrite Hc, H3. repeat split; auto. discriminate.
    - intros (l & d1 & d2 & -> & H0 & H1 & H2 & H3 & H4 & H5).
      induction l as [ | c l IH]; [contradiction | ].
      simpl in H3. apply andb_true_iff in H3 as [Hc H3].
      rewrite <- app_comm_cons, testEmail_cons, Hc, andb_true_l.
      destruct l as [ | y l].
      + assert (E : emailDomain (d1 ++ str "." ++ d2) = true).
        { apply emailDomain_shape. exists d1, d2. auto. }
        change ((64 =? 64) && emailDomain (d1 ++ str "." ++ d2)
                || testEmail (64 :: d1 ++ str "." ++ d2) = true).
        now rewrite E.
      + rewrite IH; auto; [apply orb_true_r | discriminate]. }
  intros value. split; apply H.
Qed.

(** *** The remembered address *)

Lemma emailShape_nonempty value : testEmail value = true -> value <> [].
Proof. destruct value; [discriminate | discriminate]. Qed.

(** Whatever the components write into the storage passes the check. *)
Lemma writes_valid ts store :
  match store with Some v => testEmail v = true | None => True end ->
  match writes ts store with Some v => testEmail v = true | None => True end.
Proof.
  revert store. induction ts as [ | t ts IH]; intros store H; [exact H | ].
  simpl. apply IH. destruct t as [value | value]; simpl;
    unfold buttonStore, rendererStore, CalendarButton.validateEmail,
      CalendarEventRenderer.validateEmail;
    destruct (testEmail value) eqn:E; auto.
Qed.



(** *** What a dispatch leaves behind *)

Lemma catching_cases cb t message :
  Callbacks.catching cb t message
  = if Callbacks.threw t then
      match cb with
      | Some f =>
          (Callbacks.made t ++ [(false, message)],
           match f false message with Callbacks.Throws => true | Callbacks.Returns => false end)
      | None => (Callbacks.made t, false)
      end
    else (Callbacks.made t, false).
Proof.
  unfold Callbacks.catching, Callbacks.invoke.
  destruct (Callbacks.threw t); [ | reflexivity].
  destruct cb as [f | ]; [ | now rewrite app_nil_r].
  now destruct (f false message).
Qed.

Lemma reportSuccess_cases cb message :
  Callbacks.reportSuccess cb message
  = match cb with
    | Some f =>
        match f true message with
        | Callbacks.Returns =>
            {| Callbacks.made := [(true, message)]; Callbacks.threw := false;
               Callbacks.hid := true |}
        | Callbacks.Throws =>
            {| Callbacks.made := [(true, message)]; Callbacks.threw := true;
               Callbacks.hid := false |}
        end
    | None =>
        {| Callbacks.made := []; Callbacks.threw := false; Callbacks.hid := true |}
    end.
Proof.
  unfold Callbacks.reportSuccess, Callbacks.invoke.
  destruct cb as [f | ]; [ | reflexivity]. now destruct (f true message).
Qed.

(** The calls after a [try] block that reports a success or fails. *)
Lemma calls_after_try (cb : Callbacks.Callback) (ok : bool) success failure :
  let tried := if ok then Callbacks.reportSuccess cb success else Callbacks.failed in
  let caught := Callbacks.catching cb tried failure in
  match cb with
  | None => fst caught = [] /\ snd caught = false
  | Some f =>
      (ok = true /\ fst caught = [(true, success)] /\ f true success = Callbacks.Returns
       /\ snd caught = false /\ Callbacks.hid tried = true)
      \/ (ok = false /\ fst caught = [(false, failure)]
          /\ (snd caught = true <-> f false failure = Callbacks.Throws)
          /\ Callbacks.hid tried = false)
      \/ (ok = true /\ fst caught = [(true, success); (false, failure)]
          /\ f true success = Callbacks.Throws
          /\ (snd caught = true <-> f false failure = Callbacks.Throws)
          /\ Callbacks.hid tried = false)
  end.
Proof.
  cbv zeta. rewrite catching_cases.
  destruct cb as [f | ].
  - destruct ok.
    + rewrite reportSuccess_cases. destruct (f true success) eqn:Es.
      * left. cbn. auto.
      * right. right. cbn. repeat (split; [reflexivity | ]).
        split; [ | reflexivity]. destruct (f false failure); split; congruence.
    + right. left. cbn. repeat (split; [reflexivity | ]).
      split; [ | reflexivity]. destruct (f false failure); split; congruence.
  - destruct ok; [rewrite reportSuccess_cases | ]; cbn; auto.
Qed.

Lemma callsMade_after_try {State : Type} (cb : Callbacks.Callback) (ok : bool)
    success failure reqs (st : State) :
  reqs <> [] ->
  let tried := if ok then Callbacks.reportSuccess cb success else Callbacks.failed in
  let caught := Callbacks.catching cb tried failure in
  Callbacks.callsMade cb
    {| Callbacks.requested := reqs; Callbacks.calls := fst caught;
       Callbacks.final := st; Callbacks.escaped := snd caught |}.
Proof.
  intros Hr. cbv zeta.
  pose proof (calls_after_try cb ok success failure) as H. cbv zeta in H.
  unfold Callbacks.callsMade. cbn [Callbacks.requested Callbacks.calls Callbacks.escaped].
  destruct cb as [f | ]; [ | exact H].
  destruct reqs as [ | r rs]; [now contradiction Hr | ].
  destruct H as [(_ & Hc & Hs & He & _) | [(_ & Hc & He & _) | (_ & Hc & Hs & He & _)]].
  - left. now exists success.
  - right. left. now exists failure.
  - right. right. now exists success, failure.
Qed.


Lemma succeeded_zero results :
  CalendarEventRenderer.succeeded results = 0%nat
  <-> Forall (fun r => r = Rejected) results.
Proof.
  unfold CalendarEventRenderer.succeeded.
  induction results as [ | r results IH]; simpl.
  - split; auto.
  - destruct r as [ok | ]; simpl.
    + split; [discriminate | ]. intros H. inversion H; discriminate.
    + rewrite IH. split; [now constructor | ]. intros H. now inversion H.
Qed.

(** The calls of the bulk handler once it has passed its guard. *)
Lemma bulk_calls env f net p st :
  CalendarEventRenderer.isValid st = true ->
  CalendarEventRenderer.isAdding st = false ->
  CalendarEventRenderer.events p <> [] ->
  let n := CalendarEventRenderer.succeeded
             (allSettled net (CalendarEventRenderer.requests env p st)) in
  let success := CalendarEventRenderer.successMessage n (CalendarEventRenderer.email st) in
  let failure := str "Failed to add events to calendar. Please try again." in
  Callbacks.calls (Callbacks.handleAddAllToCalendar env (Some f) net p st)
  = if (0 <? n)%nat
    then (true, success)
           :: match f true success with
              | Callbacks.Throws => [(false, failure)]
              | Callbacks.Returns => []
              end
    else [(false, failure)].
Proof.
  intros Hv Ha He. unfold Callbacks.handleAddAllToCalendar.
  rewrite Hv, Ha. cbn [negb orb].
  destruct (CalendarEventRenderer.events p) eqn:E; [congruence | ].
  cbn [length Nat.eqb]. cbv zeta. cbn [Callbacks.calls].
  rewrite catching_cases.
  destruct (0 <? _)%nat; [ | reflexivity].
  rewrite reportSuccess_cases. now destruct (f true _).
Qed.

(** With a callback that always returns, the handlers do what the
    handlers without a callback report. *)
Lemma quiet_callback env f net :
  Callbacks.quiet (Some f) ->
  (forall p st,
      let t := Callbacks.handleAddToCalendar env (Some f) net p st in
      let run := CalendarButton.handleAddToCalendar env net p st in
      Callbacks.requested t = sent run /\ Callbacks.calls t = reported run
      /\ Callbacks.final t = after run /\ Callbacks.escaped t = false)
  /\ (forall p st,
      let t := Callbacks.handleAddAllToCalendar env (Some f) net p st in
      let run := CalendarEventRenderer.handleAddAllToCalendar env net p st in
      Callbacks.requested t = sent run /\ Callbacks.calls t = reported run
      /\ Callbacks.final t = after run /\ Callbacks.escaped t = false).
Proof.
  intros Hq. cbn [Callbacks.quiet] in Hq. split; intros p st t run; subst t run.
  - unfold Callbacks.handleAddToCalendar, CalendarButton.handleAddToCalendar.
    destruct (negb (CalendarButton.isValid st) || CalendarButton.isAdding st);
      [repeat split | ].
    cbv zeta. rewrite catching_cases.
    destruct (net 0%nat _) as [[ | ] | ];
      rewrite ?reportSuccess_cases, ?Hq; cbn; rewrite ?Hq; repeat split.
  - unfold Callbacks.handleAddAllToCalendar, CalendarEventRenderer.handleAddAllToCalendar.
    destruct (negb (CalendarEventRenderer.isValid st) || CalendarEventRenderer.isAdding st
              || (length (CalendarEventRenderer.events p) =? 0)%nat);
      [repeat split | ].
    cbv zeta. rewrite catching_cases.
    destruct (0 <? _)%nat;
      rewrite ?reportSuccess_cases, ?Hq; cbn; rewrite ?Hq; repeat split.
Qed.

Lemma some_fulfilled results :
  Exists (fun r => exists ok, r = Fulfilled ok) results
  <-> CalendarEventRenderer.succeeded results <> 0%nat.
Proof.
  rewrite succeeded_zero. split.
  - intros H Hall. apply Exists_exists in H as (r & Hin & ok & ->).
    rewrite Forall_forall in Hall. now apply Hall in Hin.
  - intros H. induction results as [ | r rs IH].
    + exfalso. apply H. constructor.
    + destruct r as [ok | ]; [left; eauto | right].
      apply IH. intros Hall. apply H. now constructor.
Qed.



(** X9: for the same address, the request that the bulk handler sends for
    an event is the request that the button rendered for that event sends:
    same target, same body. *)
Theorem bulk_sends_what_buttons_send :
  forall env net p st stB,
    CalendarButton.email stB = CalendarEventRenderer.email st ->
    CalendarButton.isValid stB = true ->
    CalendarButton.isAdding stB = false ->
    CalendarEventRenderer.requests env p st
    = flat_map (fun ev => sent (CalendarButton.handleAddToCalendar env net
                                  (buttonPropsOf p ev) stB))
               (CalendarEventRenderer.events p).
Proof.
  intros env net p st stB He Hv Ha.
  unfold CalendarEventRenderer.requests.
  induction (CalendarEventRenderer.events p) as [ | ev evs IH]; [reflexivity | ].
  cbn [map flat_map]. rewrite IH. clear IH.
  unfold CalendarButton.handleAddToCalendar. rewrite Hv, Ha. cbn [negb orb].
  assert (E : CalendarButton.payload env (buttonPropsOf p ev) stB
              = CalendarEventRenderer.payload env p st ev).
  { unfold CalendarButton.payload, CalendarEventRenderer.payload. rewrite He.
    reflexivity. }
  rewrite E. destruct (net 0%nat _) as [[ | ] | ]; reflexivity.
Qed.

Lemma bulk_sends_what_buttons_send_witness :
  CalendarEventRenderer.requests env0 (rendererProps 2) typed
  = flat_map (fun ev => sent (CalendarButton.handleAddToCalendar env0 allFail
                                (buttonPropsOf (rendererProps 2) ev)
                                (CalendarButton.handleEmailChange (str "a@b.co")
                                   CalendarButton.initial)))
             (CalendarEventRenderer.events (rendererProps 2)).
Proof. apply bulk_sends_what_buttons_send; reflexivity. Defined.

End DispatchMore.

(** ** More about dates and times *)

Module NormalizerMore.
Import JS Patterns Fetch Samples Statements MoreStatements NormalizerFacts.

Local Open Scope Z_scope.

(** *** The calendar *)

(** The day number of a calendar date gives that date back. *)
Lemma civil_roundtrip y m d :
  1 <= m <= 12 -> 1 <= d <= daysInMonth y m ->
  civilFromDays (daysFromCivil y m d) = (y, m, d).
Proof.
  intros Hm Hd.
  unfold daysFromCivil. cbv zeta.
  set (y' := if m <=? 2 then y - 1 else y).
  set (era := y' / 400).
  set (yoe := y' - era * 400).
  assert (Hyoe : 0 <= yoe < 400) by (subst yoe era; Z.div_mod_to_equations; lia).
  set (mp := if m <=? 2 then m + 9 else m - 3).
  set (doy := (153 * mp + 2) / 5 + d - 1).
  set (doe := yoe * 365 + yoe / 4 - yoe / 100 + doy).
  assert (Hdoy : 0 <= doy
                 /\ doy <= 364 + (if isLeap (y' + 1) then 1 else 0)
                 /\ (5 * doy + 2) / 153 = mp
                 /\ doy - (153 * mp + 2) / 5 + 1 = d).
  { unfold daysInMonth in Hd. subst doy mp y'.
    assert (Hc : m = 1 \/ m = 2 \/ m = 3 \/ m = 4 \/ m = 5 \/ m = 6 \/ m = 7
                 \/ m = 8 \/ m = 9 \/ m = 10 \/ m = 11 \/ m = 12) by lia.
    destruct Hc as [-> | [-> | [-> | [-> | [-> | [-> | [-> | [-> | [-> | [-> | [-> | ->]]]]]]]]]]];
      cbn [Z.eqb Pos.eqb orb Z.leb Z.compare Pos.compare Pos.compare_cont] in *;
      try (replace (y - 1 + 1) with y in * by lia); destruct (isLeap _);
      repeat split; Z.div_mod_to_equations; lia. }
  assert (Hmpm : mp = if m <=? 2 then m + 9 else m - 3) by reflexivity.
  clearbody doy mp.
  assert (Hleap : isLeap (y' + 1) = true ->
                  (yoe + 1) mod 4 = 0 /\ ((yoe + 1) mod 100 <> 0 \/ yoe = 399)).
  { unfold isLeap. intros H. apply andb_true_iff in H as [H1 H2]. apply Z.eqb_eq in H1.
    apply orb_true_iff in H2. rewrite negb_true_iff, Z.eqb_neq, Z.eqb_eq in H2.
    subst yoe era. clearbody y'. clear - H1 H2. Z.div_mod_to_equations. lia. }
  destruct Hdoy as (Hd0 & Hd1 & Hmp & Hdd).
  assert (Hdoe : 0 <= doe < 146097).
  { subst doe. destruct (isLeap (y' + 1)); [specialize (Hleap eq_refl) | clear Hleap];
      Z.div_mod_to_equations; lia. }
  assert (Hyoe' : (doe - doe / 1460 + doe / 36524 - doe / 146096) / 365 = yoe).
  { subst doe. destruct (isLeap (y' + 1)); [specialize (Hleap eq_refl) | clear Hleap];
      clear Hmp Hdd Hmpm; Z.div_mod_to_equations; lia. }
  unfold civilFromDays. cbv zeta.
  replace (era * 146097 + doe - 719468 + 719468) with (doe + era * 146097) by lia.
  rewrite Z.div_add, Z.mod_add by lia.
  rewrite (Z.div_small doe), (Z.mod_small doe) by lia.
  unfold civilOfDoe. cbv zeta. rewrite Hyoe'.
  replace (doe - (365 * yoe + yoe / 4 - yoe / 100)) with doy by (subst doe; lia).
  rewrite Hmp, Hdd.
  assert (Hy : yoe + era * 400 = y') by (subst yoe; lia).
  rewrite Z.add_0_l, Hy. subst y'. rewrite Hmpm.
  destruct (m <=? 2) eqn:E; [apply Z.leb_le in E | apply Z.leb_gt in E].
  - destruct (m + 9 <? 10) eqn:E1; [apply Z.ltb_lt in E1; lia | ].
    replace (m + 9 - 9) with m by lia. rewrite (proj2 (Z.leb_le m 2)) by lia.
    f_equal. f_equal. lia.
  - destruct (m - 3 <? 10) eqn:E1; [ | apply Z.ltb_ge in E1; lia].
    replace (m - 3 + 3) with m by lia. rewrite (proj2 (Z.leb_gt m 2)) by lia.
    reflexivity.
Qed.

(** *** Digit strings *)

Lemma isDigit_In c : isDigit c = true -> In c digitCodes.
Proof.
  unfold isDigit. intros H. apply andb_true_iff in H as [H1 H2].
  apply N.leb_le in H1, H2. unfold digitCodes. simpl.
  assert (Hc : (c = 48 \/ c = 49 \/ c = 50 \/ c = 51 \/ c = 52 \/ c = 53 \/ c = 54
               \/ c = 55 \/ c = 56 \/ c = 57)%N) by lia.
  intuition auto.
Qed.

Lemma digit_not_sep c sep :
  isDigit c = true -> (sep = 45 \/ sep = 58)%N -> (c =? sep)%N = false.
Proof.
  unfold isDigit. intros H Hs. apply andb_true_iff in H as [H1 H2].
  apply N.leb_le in H1, H2. apply N.eqb_neq. lia.
Qed.

Lemma takeWhile_digits ds : forallb isDigit ds = true -> takeWhile isDigit ds = ds.
Proof.
  induction ds as [ | c ds IH]; simpl; [reflexivity | ].
  intros H. apply andb_true_iff in H as [-> H]. now rewrite IH.
Qed.

Lemma digitsN_app n ds rest :
  digitString n ds -> digitsN n (ds ++ rest) = Some (ds, rest).
Proof.
  intros [Hl Hd]. revert n Hl. induction ds as [ | c ds IH]; intros [ | n] Hl;
    simpl in Hl; try discriminate; [reflexivity | ].
  simpl in Hd. apply andb_true_iff in Hd as [Hc Hd].
  simpl. rewrite Hc, (IH Hd n) by lia. reflexivity.
Qed.

Lemma digitsN_inv n s ds r :
  digitsN n s = Some (ds, r) -> s = ds ++ r /\ digitString n ds.
Proof.
  revert s ds. induction n as [ | n IH]; intros s ds; simpl.
  - intros H. inversion H; subst. repeat split.
  - destruct s as [ | c s]; [discriminate | ].
    destruct (isDigit c) eqn:Ec; [ | discriminate].
    destruct (digitsN n s) as [[ds' r'] | ] eqn:E; [ | discriminate].
    intros H. inversion H; subst. destruct (IH _ _ E) as (-> & Hl & Hd).
    repeat split; simpl; [now rewrite Hl | now rewrite Ec, Hd].
Qed.

Lemma digits12_inv s h r :
  digits12 s = Some (h, r) -> s = h ++ r /\ hourString h.
Proof.
  unfold digits12, hourString. destruct s as [ | a s]; [discriminate | ].
  destruct (isDigit a) eqn:Ea; [ | discriminate].
  destruct s as [ | b s].
  - intros H. inversion H; subst. simpl. rewrite Ea. auto.
  - destruct (isDigit b) eqn:Eb; intros H; inversion H; subst; simpl;
      rewrite Ea, ?Eb; auto.
Qed.

Lemma digits12_app h c rest :
  hourString h -> isDigit c = false ->
  digits12 (h ++ c :: rest) = Some (h, c :: rest).
Proof.
  intros [[Hl | Hl] Hd] Hc.
  - destruct h as [ | a [ | ? ?]]; try discriminate.
    simpl in Hd. rewrite andb_true_r in Hd. simpl. now rewrite Hd, Hc.
  - destruct h as [ | a [ | b [ | ? ?]]]; try discriminate.
    simpl in Hd. apply andb_true_iff in Hd as [Ha Hb]. rewrite andb_true_r in Hb.
    simpl. now rewrite Ha, Hb.
Qed.

Lemma splitChar_digits sep ds rest :
  (sep = 45 \/ sep = 58)%N -> forallb isDigit ds = true ->
  splitChar sep (ds ++ rest)
  = (ds ++ fst (splitChar sep rest), snd (splitChar sep rest)).
Proof.
  intros Hs. induction ds as [ | c ds IH]; simpl.
  - intros _. now destruct (splitChar sep rest).
  - intros H. apply andb_true_iff in H as [Hc H]. rewrite (IH H).
    now rewrite (digit_not_sep _ Hc Hs).
Qed.

(** *** Numbers and their digits *)

Lemma small_number n :
  0 <= n <= 111 ->
  forallb isDigit (toString n) = true
  /\ parseInt (toString n) = n
  /\ (n <= 9 -> length (toString n) = 1%nat)
  /\ (10 <= n <= 99 -> length (toString n) = 2%nat)
  /\ (100 <= n -> length (toString n) = 3%nat).
Proof.
  intros Hn.
  pose (ok := fun k : nat =>
          let n := Z.of_nat k in
          let s := toString n in
          forallb isDigit s && (parseInt s =? n)
          && Nat.eqb (length s) (if n <=? 9 then 1 else if n <=? 99 then 2 else 3)).
  assert (H : forallb ok (seq 0 112) = true) by (vm_compute; reflexivity).
  rewrite forallb_forall in H.
  specialize (H (Z.to_nat n)). unfold ok in H. cbv zeta in H.
  rewrite Z2Nat.id in H by lia.
  specialize (H ltac:(apply in_seq; lia)).
  apply andb_true_iff in H as [H H3]. apply andb_true_iff in H as [H1 H2].
  apply Z.eqb_eq in H2. apply Nat.eqb_eq in H3.
  repeat split; auto; intros Hr; rewrite H3.
  - now rewrite (proj2 (Z.leb_le n 9)) by lia.
  - rewrite (proj2 (Z.leb_gt n 9)) by lia. now rewrite (proj2 (Z.leb_le n 99)) by lia.
  - rewrite (proj2 (Z.leb_gt n 9)) by lia. now rewrite (proj2 (Z.leb_gt n 99)) by lia.
Qed.

(** Printing the value of one or two digits and padding it gives the
    digits, padded. *)
Lemma pad_hourString h :
  hourString h -> padStart2 (toString (parseInt h)) = padStart2 h.
Proof.
  intros [Hl Hd].
  assert (H1 : forallb (fun a => eqs (padStart2 (toString (parseInt [a]))) (padStart2 [a]))
                 digitCodes = true) by (vm_compute; reflexivity).
  assert (H2 : forallb (fun a => forallb (fun b =>
                 eqs (padStart2 (toString (parseInt [a; b]))) (padStart2 [a; b]))
                 digitCodes) digitCodes = true) by (vm_compute; reflexivity).
  rewrite forallb_forall in H1, H2.
  assert (Heqs : forall x y, eqs x y = true -> x = y).
  { intros x y. unfold eqs. now destruct (list_eq_dec N.eq_dec x y). }
  destruct Hl as [Hl | Hl].
  - destruct h as [ | a [ | ? ?]]; try discriminate.
    simpl in Hd. rewrite andb_true_r in Hd. apply Heqs, H1. now apply isDigit_In.
  - destruct h as [ | a [ | b [ | ? ?]]]; try discriminate.
    simpl in Hd. apply andb_true_iff in Hd as [Ha Hb]. rewrite andb_true_r in Hb.
    apply Heqs. specialize (H2 a (isDigit_In _ Ha)). rewrite forallb_forall in H2.
    apply H2. now apply isDigit_In.
Qed.

(** Printing the value of four digits, the first not a zero, gives the
    digits. *)
Lemma print_year Y :
  digitString 4 Y -> 1000 <= parseInt Y -> toString (parseInt Y) = Y.
Proof.
  intros [Hl Hd] Hy.
  destruct Y as [ | a [ | b [ | c [ | d [ | ? ?]]]]]; try discriminate.
  simpl in Hd.
  apply andb_true_iff in Hd as [Ha Hd]. apply andb_true_iff in Hd as [Hb Hd].
  apply andb_true_iff in Hd as [Hc Hd]. rewrite andb_true_r in Hd.
  apply isDigit_In in Ha, Hb, Hc, Hd.
  pose (ok := fun a b c d : N =>
          let s := [a; b; c; d] in (parseInt s <? 1000) || eqs (toString (parseInt s)) s).
  assert (H : forall a, In a digitCodes -> forall b, In b digitCodes ->
              forall c, In c digitCodes -> forall d, In d digitCodes ->
              ok a b c d = true).
  { assert (H : forallb (fun a => forallb (fun b => forallb (fun c => forallb (fun d =>
                  ok a b c d) digitCodes) digitCodes) digitCodes) digitCodes = true)
      by (vm_compute; reflexivity).
    rewrite forallb_forall in H.
    intros a0 Ha0. specialize (H a0 Ha0). rewrite forallb_forall in H.
    intros b0 Hb0. specialize (H b0 Hb0). rewrite forallb_forall in H.
    intros c0 Hc0. specialize (H c0 Hc0). rewrite forallb_forall in H.
    exact H. }
  specialize (H a Ha b Hb c Hc d Hd). clear Ha Hb Hc Hd Hl.
  unfold ok in H. cbv zeta in H. clear ok.
  apply orb_true_iff in H as [H | H].
  - apply Z.ltb_lt in H. exfalso. exact (proj1 (Z.lt_nge _ _) H Hy).
  - unfold eqs in H.
    destruct (list_eq_dec N.eq_dec (toString (parseInt [a; b; c; d])) [a; b; c; d]) as [E | E];
      [exact E | discriminate H].
Qed.

(** *** ISO dates *)

Lemma testIsoDate_isoDate Y M D :
  digitString 4 Y -> digitString 2 M -> digitString 2 D ->
  testIsoDate (isoDate Y M D) = true.
Proof.
  intros HY HM HD. unfold testIsoDate, isoDate.
  rewrite (@digitsN_app 4 Y _ HY). cbn [app str chr N_of_ascii].
  change (N_of_ascii "-") with 45%N. cbn [chr]. rewrite N.eqb_refl.
  rewrite (@digitsN_app 2 M _ HM). cbn [app chr]. rewrite N.eqb_refl.
  rewrite <- (app_nil_r D), (@digitsN_app 2 D _ HD). reflexivity.
Qed.

Lemma split_isoDate Y M D :
  digitString 4 Y -> digitString 2 M -> digitString 2 D ->
  split 45 (isoDate Y M D) = [Y; M; D].
Proof.
  intros [_ HY] [_ HM] [_ HD]. unfold split, isoDate.
  rewrite (@splitChar_digits 45%N Y _ (or_introl eq_refl) HY).
  change (str "-" ++ M ++ str "-" ++ D) with (45%N :: M ++ 45%N :: D).
  cbn [splitChar]. rewrite N.eqb_refl.
  rewrite (@splitChar_digits 45%N M _ (or_introl eq_refl) HM).
  cbn [splitChar]. rewrite N.eqb_refl.
  rewrite <- (app_nil_r D), (@splitChar_digits 45%N D _ (or_introl eq_refl) HD).
  simpl. now rewrite !app_nil_r.
Qed.

(** The date that [parseDate] makes of [YYYY-MM-DD]. *)
Lemma parseDate_isoDate env Y M D :
  digitString 4 Y -> digitString 2 M -> digitString 2 D ->
  CalendarEventRenderer.parseDate env (isoDate Y M D)
  = newDate (parseInt Y) (parseInt M - 1) (parseInt D).
Proof.
  intros HY HM HD. unfold CalendarEventRenderer.parseDate.
  now rewrite testIsoDate_isoDate, split_isoDate.
Qed.

Lemma iso_date_is_read_as_written_aux :
  forall env Y M D,
    digitString 4 Y -> digitString 2 M -> digitString 2 D ->
    1 <= parseInt M <= 12 ->
    1 <= parseInt D <= daysInMonth (MakeFullYear (parseInt Y)) (parseInt M) ->
    let date := CalendarEventRenderer.parseDate env (isoDate Y M D) in
    getFullYear date = (if parseInt Y <=? 99 then 1900 + parseInt Y else parseInt Y)
    /\ getMonth date + 1 = parseInt M
    /\ getDate date = parseInt D.
Proof.
  intros env Y M D HY HM HD Hm Hd date. subst date.
  rewrite parseDate_isoDate by assumption.
  unfold newDate, MakeDay, getFullYear, getMonth, getDate.
  replace ((parseInt M - 1) / 12) with 0 by (Z.div_mod_to_equations; lia).
  replace ((parseInt M - 1) mod 12 + 1) with (parseInt M)
    by (Z.div_mod_to_equations; lia).
  rewrite Z.add_0_r.
  replace (daysFromCivil (MakeFullYear (parseInt Y)) (parseInt M) 1 + parseInt D - 1)
    with (daysFromCivil (MakeFullYear (parseInt Y)) (parseInt M) (parseInt D))
    by (unfold daysFromCivil; lia).
  rewrite civil_roundtrip by assumption. simpl fst. simpl snd.
  assert (Hy : 0 <= parseInt Y).
  { destruct HY as [_ HY]. unfold parseInt. rewrite takeWhile_digits by assumption.
    clear - HY. assert (G : forall acc, 0 <= acc ->
      0 <= fold_left (fun a c => 10 * a + (Z.of_N c - 48)) Y acc).
    { induction Y as [ | c Y IH]; intros acc Ha; cbn [fold_left]; [exact Ha | ].
      cbn [forallb] in HY. apply andb_true_iff in HY as [Hc HY].
      apply IH; auto. pose proof (isDigit_value _ Hc). lia. }
    apply G. lia. }
  unfold MakeFullYear.
  rewrite (proj2 (Z.leb_le 0 (parseInt Y))) by lia. simpl andb.
  repeat split; lia.
Qed.

(** *** The same in a time zone *)

Lemma year_range Y : digitString 4 Y -> 0 <= parseInt Y <= 9999.
Proof.
  intros [Hl Hd]. unfold parseInt. rewrite takeWhile_digits by assumption.
  destruct Y as [ | a [ | b [ | c [ | d [ | ? ?]]]]]; try discriminate.
  cbn [forallb] in Hd.
  apply andb_true_iff in Hd as [Ha Hd]. apply andb_true_iff in Hd as [Hb Hd].
  apply andb_true_iff in Hd as [Hc Hd]. apply andb_true_iff in Hd as [Hd _].
  apply isDigit_value in Ha, Hb, Hc, Hd. cbn [fold_left]. lia.
Qed.

Lemma MakeDay_civil y m d : 1 <= m <= 12 -> MakeDay y (m - 1) d = daysFromCivil y m d.
Proof.
  intros Hm. unfold MakeDay.
  replace ((m - 1) / 12) with 0 by (Z.div_mod_to_equations; lia).
  replace ((m - 1) mod 12 + 1) with m by (Z.div_mod_to_equations; lia).
  rewrite Z.add_0_r. unfold daysFromCivil. lia.
Qed.

Lemma daysFromCivil_range y m d :
  0 <= y <= 9999 -> 1 <= m <= 12 -> 1 <= d <= 31 ->
  -720000 <= daysFromCivil y m d <= 2940000.
Proof.
  intros Hy Hm Hd. unfold daysFromCivil.
  destruct (m <=? 2) eqn:E; [apply Z.leb_le in E | apply Z.leb_gt in E];
    Z.div_mod_to_equations; lia.
Qed.

Lemma daysInMonth_le y m : daysInMonth y m <= 31.
Proof.
  unfold daysInMonth. destruct (m =? 2); [destruct (isLeap y); lia | ].
  destruct ((m =? 4) || (m =? 6) || (m =? 9) || (m =? 11)); lia.
Qed.

Lemma MakeFullYear_range y : 0 <= y <= 9999 -> 0 <= MakeFullYear y <= 9999.
Proof.
  intros Hy. unfold MakeFullYear.
  destruct ((0 <=? y) && (y <=? 99)) eqn:E; [ | lia].
  apply andb_true_iff in E as [_ E]. apply Z.leb_le in E. lia.
Qed.

(** In a zone that keeps the day, the Date that [parseDate] makes of
    [YYYY-MM-DD] is a time of the local day that the calendar gives. *)
Lemma zoned_iso_day pf Y M D :
  digitString 4 Y -> digitString 2 M -> digitString 2 D ->
  1 <= parseInt M <= 12 ->
  1 <= parseInt D <= daysInMonth (MakeFullYear (parseInt Y)) (parseInt M) ->
  Zoned.bounded (Zoned.zone pf) ->
  Zoned.keeps (Zoned.zone pf)
    (daysFromCivil (MakeFullYear (parseInt Y)) (parseInt M) (parseInt D)) ->
  Zoned.localDay (Zoned.zone pf) (Zoned.parseDate pf (isoDate Y M D))
  = CalendarEventRenderer.parseDate (Zoned.days pf) (isoDate Y M D).
Proof.
  intros HY HM HD Hm Hd Hb Hk.
  rewrite parseDate_isoDate by assumption.
  unfold Zoned.parseDate. rewrite testIsoDate_isoDate, split_isoDate by assumption.
  unfold Zoned.newDate, newDate. rewrite MakeDay_civil by assumption.
  set (day := daysFromCivil (MakeFullYear (parseInt Y)) (parseInt M) (parseInt D)) in *.
  assert (Hr : -720000 <= day <= 2940000).
  { apply daysFromCivil_range; [ | assumption | ].
    - apply MakeFullYear_range, year_range, HY.
    - pose proof (daysInMonth_le (MakeFullYear (parseInt Y)) (parseInt M)). lia. }
  unfold Zoned.TimeClip.
  pose proof (Hb (day * Zoned.msPerDay)) as Hu. unfold Zoned.msPerDay in *.
  destruct (Z.abs _ <=? 8640000000000000) eqn:E.
  - exact Hk.
  - apply Z.leb_gt in E. lia.
Qed.

(** With any other string the zone is not asked. *)
Lemma zoned_other_day pf dateStr :
  testIsoDate dateStr = false ->
  Zoned.localDay (Zoned.zone pf) (Zoned.parseDate pf dateStr)
  = CalendarEventRenderer.parseDate (Zoned.days pf) dateStr.
Proof.
  intros E. unfold Zoned.parseDate, CalendarEventRenderer.parseDate. rewrite E.
  cbn [dateParse now Zoned.days].
  destruct (testMonthName dateStr), (testSlashDate dateStr);
    destruct (Zoned.construct pf dateStr); reflexivity.
Qed.

(** The instant depends on the Date through its local day alone. *)
Lemma formatDateTime_days pf date time :
  Zoned.localDay (Zoned.zone pf) (Zoned.parseDate pf date)
  = CalendarEventRenderer.parseDate (Zoned.days pf) date ->
  Zoned.formatDateTime pf date time
  = CalendarEventRenderer.formatDateTime (Zoned.days pf) date time
  /\ Zoned.datePart pf date = datePart (Zoned.days pf) date.
Proof.
  intros H.
  unfold Zoned.formatDateTime, CalendarEventRenderer.formatDateTime,
    Zoned.datePart, datePart, Zoned.getFullYear, Zoned.getMonth, Zoned.getDate.
  now rewrite H.
Qed.

(** In the zone of Apia the day 2011-12-30 was skipped, and the date
    written so is read as the day after. *)
Lemma apia_skips_a_day :
  ~ Zoned.keeps Zoned.apia (daysFromCivil 2011 12 30)
  /\ Zoned.getDate Zoned.apia (Zoned.parseDate Zoned.inApia (str "2011-12-30")) = 31
  /\ Zoned.formatDateTime Zoned.inApia (str "2011-12-30") (str "noon")
     = str "2011-12-31T12:00:00-06:00".
Proof.
  split; [vm_compute; discriminate | split; vm_compute; reflexivity].
Qed.

(** X10: in a time zone that keeps the day, a date written [YYYY-MM-DD]
    that exists in the calendar is read as that very year, month and day,
    whatever the platform's clock and date parser; only a year from 0000 to
    0099 is read as 1900 to 1999. A zone keeps a day when midnight of that day
    in local time is a time of that day; the zone's local time is taken to be
    never more than a day from the time value. *)
Theorem iso_date_is_read_as_written :
  forall pf Y M D,
    digitString 4 Y -> digitString 2 M -> digitString 2 D ->
    1 <= parseInt M <= 12 ->
    1 <= parseInt D <= daysInMonth (MakeFullYear (parseInt Y)) (parseInt M) ->
    Zoned.bounded (Zoned.zone pf) ->
    Zoned.keeps (Zoned.zone pf)
      (daysFromCivil (MakeFullYear (parseInt Y)) (parseInt M) (parseInt D)) ->
    let date := Zoned.parseDate pf (isoDate Y M D) in
    Zoned.getFullYear (Zoned.zone pf) date
    = (if parseInt Y <=? 99 then 1900 + parseInt Y else parseInt Y)
    /\ Zoned.getMonth (Zoned.zone pf) date + 1 = parseInt M
    /\ Zoned.getDate (Zoned.zone pf) date = parseInt D.
Proof.
  intros pf Y M D HY HM HD Hm Hd Hb Hk date. subst date.
  unfold Zoned.getFullYear, Zoned.getMonth, Zoned.getDate.
  rewrite zoned_iso_day by assumption.
  now apply iso_date_is_read_as_written_aux.
Qed.

Lemma iso_date_is_read_as_written_witness :
  Zoned.getFullYear (Zoned.zone Zoned.inChicago)
    (Zoned.parseDate Zoned.inChicago (isoDate (str "2024") (str "02") (str "29"))) = 2024
  /\ Zoned.getMonth (Zoned.zone Zoned.inChicago)
       (Zoned.parseDate Zoned.inChicago (isoDate (str "2024") (str "02") (str "29"))) + 1 = 2
  /\ Zoned.getDate (Zoned.zone Zoned.inChicago)
       (Zoned.parseDate Zoned.inChicago (isoDate (str "2024") (str "02") (str "29"))) = 29.
Proof.
  apply (@iso_date_is_read_as_written Zoned.inChicago (str "2024") (str "02") (str "29")).
  - split; reflexivity.
  - split; reflexivity.
  - split; reflexivity.
  - vm_compute. split; discriminate.
  - vm_compute. split; discriminate.
  - intros t. cbn [Zoned.zone Zoned.inChicago Zoned.UTC Zoned.fixedZone].
    unfold Zoned.msPerDay. lia.
  - vm_compute. reflexivity.
Defined.

(** *** The parts of the instant *)

Lemma formatDateTime_parts env date time :
  CalendarEventRenderer.formatDateTime env date time
  = datePart env date ++ str "T"
      ++ match searchTime (CalendarEventRenderer.formatDisplayTime time) with
         | None => str "12:00"
         | Some m =>
             padStart2 (toString (CalendarEventRenderer.to24 (toUpperCase (tmAmPm m))
                                    (parseInt (tmHours m))))
               ++ str ":" ++ tmMinutes m
         end
      ++ str ":00-06:00".
Proof.
  unfold CalendarEventRenderer.formatDateTime, datePart. cbv zeta.
  destruct (searchTime (CalendarEventRenderer.formatDisplayTime time));
    repeat rewrite <- app_assoc; reflexivity.
Qed.

(** The date part of the instant when the Date is the day the calendar
    gives. *)
Lemma instant_keeps_iso_date_aux :
  forall env Y M D time,
    digitString 4 Y -> digitString 2 M -> digitString 2 D ->
    1000 <= parseInt Y ->
    1 <= parseInt M <= 12 ->
    1 <= parseInt D <= daysInMonth (parseInt Y) (parseInt M) ->
    datePart env (isoDate Y M D) = isoDate Y M D
    /\ exists rest,
         CalendarEventRenderer.formatDateTime env (isoDate Y M D) time
         = isoDate Y M D ++ str "T" ++ rest.
Proof.
  intros env Y M D time HY HM HD Hy Hm Hd.
  assert (E : datePart env (isoDate Y M D) = isoDate Y M D).
  { assert (Hd' : 1 <= parseInt D
                  <= daysInMonth (MakeFullYear (parseInt Y)) (parseInt M)).
    { unfold MakeFullYear. rewrite (proj2 (Z.leb_gt (parseInt Y) 99)) by lia.
      now rewrite andb_false_r. }
    destruct (@iso_date_is_read_as_written_aux env Y M D HY HM HD Hm Hd')
      as (Ey & Em & Ed).
    unfold datePart. rewrite Ey, Em, Ed.
    rewrite (proj2 (Z.leb_gt (parseInt Y) 99)) by lia.
    rewrite (print_year HY Hy).
    assert (HM' : hourString M) by (destruct HM as [Hl ?]; split; auto).
    assert (HD' : hourString D) by (destruct HD as [Hl ?]; split; auto).
    rewrite (pad_hourString HM'), (pad_hourString HD').
    destruct HM as [HMl _], HD as [HDl _].
    destruct M as [ | ? [ | ? [ | ? ?]]]; try discriminate.
    destruct D as [ | ? [ | ? [ | ? ?]]]; try discriminate.
    reflexivity. }
  split; [exact E | ].
  rewrite formatDateTime_parts, E. eexists. reflexivity.
Qed.

(** X11: in a time zone that keeps the day, for a date written
    [YYYY-MM-DD] that exists in the calendar, with a year from 1000 on, the
    instant starts with the date exactly as it was written, whatever the time
    string, the platform's clock and its date parser. *)
Theorem instant_keeps_iso_date :
  forall pf Y M D time,
    digitString 4 Y -> digitString 2 M -> digitString 2 D ->
    1000 <= parseInt Y ->
    1 <= parseInt M <= 12 ->
    1 <= parseInt D <= daysInMonth (parseInt Y) (parseInt M) ->
    Zoned.bounded (Zoned.zone pf) ->
    Zoned.keeps (Zoned.zone pf) (daysFromCivil (parseInt Y) (parseInt M) (parseInt D)) ->
    Zoned.datePart pf (isoDate Y M D) = isoDate Y M D
    /\ exists rest,
         Zoned.formatDateTime pf (isoDate Y M D) time
         = isoDate Y M D ++ str "T" ++ rest.
Proof.
  intros pf Y M D time HY HM HD Hy Hm Hd Hb Hk.
  assert (Ey : MakeFullYear (parseInt Y) = parseInt Y).
  { unfold MakeFullYear. rewrite (proj2 (Z.leb_gt (parseInt Y) 99)) by lia.
    now rewrite andb_false_r. }
  assert (Hday : Zoned.localDay (Zoned.zone pf) (Zoned.parseDate pf (isoDate Y M D))
                 = CalendarEventRenderer.parseDate (Zoned.days pf) (isoDate Y M D)).
  { apply zoned_iso_day; try assumption; now rewrite Ey. }
  destruct (@formatDateTime_days pf (isoDate Y M D) time Hday) as (-> & ->).
  now apply instant_keeps_iso_date_aux.
Qed.

Lemma instant_keeps_iso_date_witness :
  Zoned.datePart Zoned.inChicago (isoDate (str "2025") (str "03") (str "05"))
  = str "2025-03-05"
  /\ exists rest,
       Zoned.formatDateTime Zoned.inChicago
         (isoDate (str "2025") (str "03") (str "05")) (str "teatime")
       = str "2025-03-05" ++ str "T" ++ rest.
Proof.
  apply (@instant_keeps_iso_date Zoned.inChicago (str "2025") (str "03") (str "05")
           (str "teatime")).
  - split; reflexivity.
  - split; reflexivity.
  - split; reflexivity.
  - vm_compute. discriminate.
  - vm_compute. split; discriminate.
  - vm_compute. split; discriminate.
  - intros t. cbn [Zoned.zone Zoned.inChicago Zoned.UTC Zoned.fixedZone].
    unfold Zoned.msPerDay. lia.
  - vm_compute. reflexivity.
Defined.

(** X12: every instant is the date part, a [T], an hour of two or three
    digits, a colon, two digits of minutes, and always [:00-06:00]: the date
    part depends on the date alone and the rest on the time alone. *)
Theorem instant_layout :
  forall env date time,
    exists hh mm,
      CalendarEventRenderer.formatDateTime env date time
      = datePart env date ++ str "T" ++ hh ++ str ":" ++ mm ++ str ":00-06:00"
      /\ digitString 2 mm
      /\ forallb isDigit hh = true
      /\ (length hh = 2%nat \/ length hh = 3%nat)
      /\ (forall env' date',
             CalendarEventRenderer.formatDateTime env' date' time
             = datePart env' date' ++ str "T" ++ hh ++ str ":" ++ mm ++ str ":00-06:00").
Proof.
  intros env date time.
  destruct (searchTime (CalendarEventRenderer.formatDisplayTime time)) as [m | ] eqn:E.
  - pose proof (searchTime_inv _ E) as (Hh & Hm & Hap).
    set (h := CalendarEventRenderer.to24 (toUpperCase (tmAmPm m)) (parseInt (tmHours m))).
    assert (Hr : 0 <= h <= 111).
    { subst h. destruct Hap as [-> | ->]; [rewrite to24_AM | rewrite to24_PM];
        destruct (parseInt (tmHours m) =? 12); lia. }
    destruct (small_number Hr) as (Hd & _ & L1 & L2 & L3).
    exists (padStart2 (toString h)), (tmMinutes m).
    assert (Hmm : digitString 2 (tmMinutes m)).
    { destruct (tmMinutes m) as [ | a [ | b [ | ? ?]]]; try discriminate.
      - simpl in Hm. destruct (isDigit a); discriminate.
      - simpl in Hm. split; [reflexivity | ]. simpl.
        now rewrite andb_true_r in Hm |- *.
      - simpl in Hm. destruct (isDigit a), (isDigit b); discriminate. }
    assert (Hpad : forallb isDigit (padStart2 (toString h)) = true
                   /\ (length (padStart2 (toString h)) = 2%nat
                       \/ length (padStart2 (toString h)) = 3%nat)).
    { destruct (Z_le_gt_dec h 9) as [H9 | H9].
      - specialize (L1 H9). destruct (toString h) as [ | a [ | ? ?]]; try discriminate.
        simpl in *. auto.
      - destruct (Z_le_gt_dec h 99) as [H99 | H99].
        + specialize (L2 ltac:(lia)).
          destruct (toString h) as [ | a [ | b [ | ? ?]]]; try discriminate.
          simpl in *. auto.
        + specialize (L3 ltac:(lia)).
          destruct (toString h) as [ | a [ | b [ | c [ | ? ?]]]]; try discriminate.
          simpl in *. auto. }
    destruct Hpad as [Hp1 Hp2].
    refine (conj _ (conj Hmm (conj Hp1 (conj Hp2 _)))).
    + rewrite formatDateTime_parts, E. subst h.
      repeat rewrite <- app_assoc. reflexivity.
    + intros env' date'. rewrite formatDateTime_parts, E. subst h.
      repeat rewrite <- app_assoc. reflexivity.
  - exists (str "12"), (str "00").
    refine (conj _ (conj (conj eq_refl eq_refl) (conj eq_refl (conj (or_introl eq_refl) _)))).
    + rewrite formatDateTime_parts, E. reflexivity.
    + intros env' date'. rewrite formatDateTime_parts, E. reflexivity.
Qed.

(** *** 24-hour times *)

Lemma colon_not_digit : isDigit 58 = false.
Proof. reflexivity. Qed.

Lemma matchTime_clock H Mi :
  hourString H -> digitString 2 Mi -> matchTime (clock H Mi) = None.
Proof.
  intros HH HM. unfold matchTime, clock.
  change (str ":" ++ Mi) with (58%N :: Mi).
  rewrite (@digits12_app H 58%N Mi HH colon_not_digit).
  cbn [chr]. rewrite N.eqb_refl.
  rewrite <- (app_nil_r Mi), (@digitsN_app 2 Mi [] HM). reflexivity.
Qed.

Lemma testTime24_clock H Mi :
  hourString H -> digitString 2 Mi -> testTime24 (clock H Mi) = true.
Proof.
  intros HH HM. unfold testTime24, clock.
  change (str ":" ++ Mi) with (58%N :: Mi).
  rewrite (@digits12_app H 58%N Mi HH colon_not_digit).
  cbn [chr]. rewrite N.eqb_refl.
  rewrite <- (app_nil_r Mi), (@digitsN_app 2 Mi [] HM). reflexivity.
Qed.

Lemma testTime24_inv t :
  testTime24 t = true ->
  exists H Mi, t = clock H Mi /\ hourString H /\ digitString 2 Mi.
Proof.
  unfold testTime24.
  destruct (digits12 t) as [[H s1] | ] eqn:E1; [ | discriminate].
  destruct (chr 58 s1) as [s2 | ] eqn:E2; [ | discriminate].
  destruct (digitsN 2 s2) as [[Mi s3] | ] eqn:E3; [ | discriminate].
  destruct s3; [intros _ | discriminate].
  apply digits12_inv in E1 as [-> HH]. apply digitsN_inv in E3 as [-> HM].
  unfold chr in E2. destruct s1 as [ | c s1]; [discriminate | ].
  destruct (N.eqb_spec c 58) as [-> | ]; [ | discriminate]. inversion E2; subst.
  exists H, Mi. rewrite app_nil_r. repeat split; auto; apply HH || apply HM.
Qed.

Lemma split_clock H Mi :
  hourString H -> digitString 2 Mi -> split 58 (clock H Mi) = [H; Mi].
Proof.
  intros [_ HH] [_ HM]. unfold split, clock.
  rewrite (@splitChar_digits 58%N H _ (or_intror eq_refl) HH).
  change (str ":" ++ Mi) with (58%N :: Mi).
  cbn [splitChar]. rewrite N.eqb_refl.
  rewrite <- (app_nil_r Mi), (@splitChar_digits 58%N Mi _ (or_intror eq_refl) HM).
  simpl. now rewrite !app_nil_r.
Qed.

Lemma formatDisplayTime_clock H Mi :
  hourString H -> digitString 2 Mi ->
  CalendarEventRenderer.formatDisplayTime (clock H Mi)
  = toString (hour12 (parseInt H)) ++ str ":" ++ Mi ++ str " " ++ meridiem (parseInt H).
Proof.
  intros HH HM. unfold CalendarEventRenderer.formatDisplayTime, testTime12.
  now rewrite matchTime_clock, testTime24_clock, split_clock.
Qed.

Lemma hourString_value H : hourString H -> 0 <= parseInt H <= 99.
Proof.
  intros HH. apply (@digits12_value (H ++ [58%N]) H [58%N]).
  now apply digits12_app.
Qed.

Lemma toString_hourString n : 0 <= n <= 99 -> hourString (toString n).
Proof.
  intros Hn. destruct (@small_number n ltac:(lia)) as (Hd & _ & L1 & L2 & _).
  split; [ | exact Hd].
  destruct (Z_le_gt_dec n 9); [left; apply L1; lia | right; apply L2; lia].
Qed.

(** The time pattern on a normalized 24-hour time. *)
Lemma matchTime_normalized n Mi ap :
  0 <= n <= 99 -> digitString 2 Mi -> ap = str "AM" \/ ap = str "PM" ->
  matchTime (toString n ++ str ":" ++ Mi ++ str " " ++ ap)
  = Some ({| tmHours := toString n; tmMinutes := Mi; tmAmPm := ap |}, []).
Proof.
  intros Hn HM Hap. unfold matchTime.
  change (str ":" ++ Mi ++ str " " ++ ap) with (58%N :: Mi ++ str " " ++ ap).
  rewrite (@digits12_app (toString n) 58%N _ (toString_hourString Hn) colon_not_digit).
  cbn [chr]. rewrite N.eqb_refl.
  rewrite (@digitsN_app 2 Mi _ HM).
  destruct Hap as [-> | ->]; reflexivity.
Qed.

Lemma hour12_range h : 0 <= h <= 99 -> 1 <= hour12 h <= 87.
Proof.
  intros Hh. unfold hour12.
  destruct (h =? 0) eqn:E0; [lia | apply Z.eqb_neq in E0].
  destruct (12 <? h) eqn:E1; [apply Z.ltb_lt in E1 | apply Z.ltb_ge in E1]; lia.
Qed.

Lemma meridiem_cases h : meridiem h = str "AM" \/ meridiem h = str "PM".
Proof. unfold meridiem. destruct (h <? 12); auto. Qed.

(** X13: normalizing a time for display twice is the same as normalizing
    it once. *)
Theorem formatDisplayTime_idempotent :
  forall timeStr,
    CalendarButton.formatDisplayTime (CalendarButton.formatDisplayTime timeStr)
    = CalendarButton.formatDisplayTime timeStr
    /\ CalendarEventRenderer.formatDisplayTime
         (CalendarEventRenderer.formatDisplayTime timeStr)
       = CalendarEventRenderer.formatDisplayTime timeStr.
Proof.
  assert (H : forall t, CalendarEventRenderer.formatDisplayTime
                          (CalendarEventRenderer.formatDisplayTime t)
                        = CalendarEventRenderer.formatDisplayTime t).
  { intros t.
    destruct (testTime12 t) eqn:E12.
    { unfold CalendarEventRenderer.formatDisplayTime at 2. rewrite E12.
      unfold CalendarEventRenderer.formatDisplayTime. now rewrite E12. }
    destruct (testTime24 t) eqn:E24.
    - apply testTime24_inv in E24 as (H & Mi & -> & HH & HM).
      rewrite (formatDisplayTime_clock HH HM).
      pose proof (hourString_value HH) as Hv.
      pose proof (hour12_range Hv) as Hr.
      unfold CalendarEventRenderer.formatDisplayTime, testTime12.
      rewrite (@matchTime_normalized (hour12 (parseInt H)) Mi (meridiem (parseInt H))
                 ltac:(lia) HM (meridiem_cases _)).
      reflexivity.
    - unfold CalendarEventRenderer.formatDisplayTime at 2. rewrite E12, E24.
      unfold CalendarEventRenderer.formatDisplayTime. now rewrite E12, E24. }
  intros timeStr. split; apply H.
Qed.

Lemma searchTime_head s m r : matchTime s = Some (m, r) -> searchTime s = Some m.
Proof. destruct s; cbn [searchTime]; intros ->; reflexivity. Qed.

(** X14: a 24-hour time [H:MM] (one or two digits of hours) keeps its
    hour and minutes in the instant, the hour padded to two digits; only the
    hour 24 comes out as 12. *)
Theorem clock_time_is_kept :
  forall env date H Mi,
    hourString H -> digitString 2 Mi ->
    CalendarEventRenderer.formatDateTime env date (clock H Mi)
    = datePart env date ++ str "T"
        ++ (if parseInt H =? 24 then str "12" else padStart2 H)
        ++ str ":" ++ Mi ++ str ":00-06:00".
Proof.
  intros env date H Mi HH HM.
  rewrite formatDateTime_parts, (formatDisplayTime_clock HH HM).
  pose proof (hourString_value HH) as Hv.
  pose proof (hour12_range Hv) as Hr.
  rewrite (searchTime_head _
             (@matchTime_normalized (hour12 (parseInt H)) Mi (meridiem (parseInt H))
                ltac:(lia) HM (meridiem_cases _))).
  cbn [tmHours tmMinutes tmAmPm].
  destruct (@small_number (hour12 (parseInt H)) ltac:(lia)) as (_ & -> & _).
  assert (E : CalendarEventRenderer.to24 (toUpperCase (meridiem (parseInt H)))
                (hour12 (parseInt H))
              = if parseInt H =? 24 then 12 else parseInt H).
  { unfold meridiem, hour12.
    destruct (parseInt H <? 12) eqn:E1; [apply Z.ltb_lt in E1 | apply Z.ltb_ge in E1].
    - change (toUpperCase (str "AM")) with (str "AM"). rewrite to24_AM.
      rewrite (proj2 (Z.eqb_neq (parseInt H) 24)) by lia.
      destruct (parseInt H =? 0) eqn:E0; [apply Z.eqb_eq in E0 | apply Z.eqb_neq in E0].
      + simpl. lia.
      + rewrite (proj2 (Z.ltb_ge 12 (parseInt H))) by lia.
        now rewrite (proj2 (Z.eqb_neq (parseInt H) 12)) by lia.
    - change (toUpperCase (str "PM")) with (str "PM"). rewrite to24_PM.
      rewrite (proj2 (Z.eqb_neq (parseInt H) 0)) by lia.
      destruct (12 <? parseInt H) eqn:E2; [apply Z.ltb_lt in E2 | apply Z.ltb_ge in E2].
      + destruct (parseInt H =? 24) eqn:E3;
          [apply Z.eqb_eq in E3 | apply Z.eqb_neq in E3].
        * rewrite E3. reflexivity.
        * rewrite (proj2 (Z.eqb_neq (parseInt H - 12) 12)) by lia. lia.
      + assert (E3 : parseInt H = 12) by lia. rewrite E3. reflexivity. }
  rewrite E.
  destruct (parseInt H =? 24) eqn:E24.
  - repeat rewrite <- app_assoc. reflexivity.
  - rewrite (pad_hourString HH). repeat rewrite <- app_assoc. reflexivity.
Qed.

Lemma clock_time_is_kept_witness :
  CalendarEventRenderer.formatDateTime env0 (str "2025-03-05") (clock (str "9") (str "05"))
  = str "2025-03-05T09:05:00-06:00"
  /\ CalendarEventRenderer.formatDateTime env0 (str "2025-03-05")
       (clock (str "24") (str "30"))
     = str "2025-03-05T12:30:00-06:00".
Proof.
  split.
  - rewrite (@clock_time_is_kept env0 (str "2025-03-05") (str "9") (str "05"));
      [reflexivity | split; [now left | reflexivity] | split; reflexivity].
  - rewrite (@clock_time_is_kept env0 (str "2025-03-05") (str "24") (str "30"));
      [reflexivity | split; [now right | reflexivity] | split; reflexivity].
Defined.

(** *** 12-hour times *)

Lemma amPm_exact ap :
  length ap = 2%nat ->
  toUpperCase ap = str "AM" \/ toUpperCase ap = str "PM" ->
  amPm ap = Some (ap, []).
Proof.
  intros Hl Hap. destruct ap as [ | a [ | m [ | ? ?]]]; try discriminate.
  unfold amPm. simpl in Hap.
  destruct Hap as [Hap | Hap]; inversion Hap as [[Ha Hm]]; rewrite Ha, Hm; reflexivity.
Qed.

Lemma amPm_visible ap :
  length ap = 2%nat ->
  toUpperCase ap = str "AM" \/ toUpperCase ap = str "PM" ->
  exists a r, ap = a :: r /\ isSpace a = false.
Proof.
  intros Hl Hap. destruct ap as [ | a [ | m [ | ? ?]]]; try discriminate.
  exists a, [m]. split; [reflexivity | ].
  assert (Ha : canonicalize a = 65%N \/ canonicalize a = 80%N).
  { simpl in Hap. destruct Hap as [Hap | Hap]; inversion Hap; auto. }
  unfold canonicalize in Ha.
  destruct ((97 <=? a)%N && (a <=? 122)%N) eqn:E.
  - apply andb_true_iff in E as [E1 E2]. apply N.leb_le in E1, E2.
    assert (Hc : a = 97%N \/ a = 112%N) by lia.
    destruct Hc as [-> | ->]; reflexivity.
  - destruct Ha as [-> | ->]; reflexivity.
Qed.

(** X15: a 12-hour time, [h:MM] followed by any white space and AM or PM
    in any letter case, is displayed as it is, and its instant has the minutes
    as written and the hour by the meridiem rules: 12 AM is 00, 12 PM is 12,
    any other PM hour is twelve more. *)
Theorem meridiem_time_is_converted :
  forall env date H Mi space ap,
    hourString H -> digitString 2 Mi ->
    forallb isSpace space = true ->
    length ap = 2%nat ->
    toUpperCase ap = str "AM" \/ toUpperCase ap = str "PM" ->
    let timeStr := H ++ str ":" ++ Mi ++ space ++ ap in
    CalendarEventRenderer.formatDisplayTime timeStr = timeStr
    /\ CalendarEventRenderer.formatDateTime env date timeStr
       = datePart env date ++ str "T"
           ++ padStart2 (toString
                (if parseInt H =? 12
                 then (if eqs (toUpperCase ap) (str "AM") then 0 else 12)
                 else (if eqs (toUpperCase ap) (str "AM")
                       then parseInt H else parseInt H + 12)))
           ++ str ":" ++ Mi ++ str ":00-06:00".
Proof.
  intros env date H Mi space ap HH HM Hs Hl Hap timeStr.
  assert (Em : matchTime timeStr
               = Some ({| tmHours := H; tmMinutes := Mi; tmAmPm := ap |}, [])).
  { subst timeStr. unfold matchTime.
    change (str ":" ++ Mi ++ space ++ ap) with (58%N :: Mi ++ space ++ ap).
    rewrite (@digits12_app H 58%N _ HH colon_not_digit).
    cbn [chr]. rewrite N.eqb_refl.
    rewrite (@digitsN_app 2 Mi _ HM).
    destruct (@amPm_visible ap Hl Hap) as (a & r & Eap & Ha).
    rewrite Eap at 1.
    rewrite (@ParserFacts.dropWhile_spaces space a r Hs Ha).
    rewrite <- Eap. now rewrite (@amPm_exact ap Hl Hap). }
  assert (Ed : CalendarEventRenderer.formatDisplayTime timeStr = timeStr).
  { unfold CalendarEventRenderer.formatDisplayTime, testTime12. now rewrite Em. }
  split; [exact Ed | ].
  rewrite formatDateTime_parts, Ed, (searchTime_head _ Em).
  cbn [tmHours tmMinutes tmAmPm].
  assert (E : CalendarEventRenderer.to24 (toUpperCase ap) (parseInt H)
              = if parseInt H =? 12
                then (if eqs (toUpperCase ap) (str "AM") then 0 else 12)
                else (if eqs (toUpperCase ap) (str "AM")
                      then parseInt H else parseInt H + 12)).
  { destruct Hap as [-> | ->]; [rewrite to24_AM | rewrite to24_PM];
      destruct (parseInt H =? 12); reflexivity. }
  rewrite E. repeat rewrite <- app_assoc. reflexivity.
Qed.

Lemma meridiem_time_is_converted_witness :
  CalendarEventRenderer.formatDateTime env0 (str "2025-03-05") (str "12:15  am")
  = str "2025-03-05T00:15:00-06:00".
Proof.
  assert (HH : hourString (str "12")) by (split; [now right | reflexivity]).
  assert (HM : digitString 2 (str "15")) by (split; reflexivity).
  exact (proj2 (@meridiem_time_is_converted env0 (str "2025-03-05")
                  (str "12") (str "15") (str "  ") (str "am")
                  HH HM eq_refl eq_refl (or_introl eq_refl))).
Defined.

End NormalizerMore.
